(** * Two-column PDF text extraction: reading order and text clean-up

    A shallow embedding of [txt_preprocessor/pdf_text_extractor.py]:
    the column detector and classifier ([detect_columns],
    [_find_column_boundary]), the reading-order reconstruction
    ([reorder_text_blocks], [_interleave_columns]) and the text normaliser
    ([clean_extracted_text]).

    Python values are modelled as the program has them:
    - a [float] is an IEEE 754 binary64 number (Rocq's primitive floats), with
      Python's comparison, division and [int()] conversion;
    - an [int] is a [Z];
    - a [str] is the list of its Unicode code points;
    - a [list] is a [list]; indexing follows Python (negative indices count
      from the end, out of range raises [IndexError]);
    - a [dict] or [set] is an association list in insertion order, keyed up to
      the key type's [==];
    - a [TextBlock] object lives in a store and lists hold references to it,
      so that the attribute writes of [detect_columns] are visible through
      every alias;
    - a raised exception is a value of the error monad [result].

    Part I is the program, Part II the lemmas about its pieces, Part III the
    properties of the specification, C1 to C10, Part IV further properties
    of the code, X1 to X21. Where a property depends on
    the order of the floats it is stated for numbers that are not NaN: on a
    NaN, Python's sort and dictionaries follow the identity of the object,
    which a bounding box never needs. *)

From Stdlib Require Import ZArith NArith List Bool Floats Lia.
From Stdlib Require Import Permutation Sorted.
From Stdlib Require String Ascii.
Import ListNotations.

Set Warnings "-inexact-float".

(* ================================================================== *)
(** * Part I: the program *)
(* ================================================================== *)

(** ** Python primitives *)

Module Py.

(** The built-in exceptions the modelled code can raise. *)
Inductive exn : Type :=
| ZeroDivisionError
| ValueError
| OverflowError
| IndexError.

Inductive result (A : Type) : Type :=
| Ok (a : A)
| Raise (e : exn).

Arguments Ok {A} a.
Arguments Raise {A} e.

Definition bind {A B : Type} (c : result A) (k : A -> result B) : result B :=
  match c with
  | Ok a => k a
  | Raise e => Raise e
  end.

Notation "x <- c ;; k" := (bind c (fun x => k))
  (at level 61, c at next level, right associativity).

(** A [for] loop whose body may raise. *)
Fixpoint for_each {A S : Type} (body : S -> A -> result S) (l : list A) (s : S)
  : result S :=
  match l with
  | [] => Ok s
  | x :: l' => s' <- body s x ;; for_each body l' s'
  end.

(** *** Floats *)

Definition flt (a b : float) : bool := PrimFloat.ltb a b.
Definition fle (a b : float) : bool := PrimFloat.leb a b.
Definition feq (a b : float) : bool := PrimFloat.eqb a b.
Definition fgt (a b : float) : bool := PrimFloat.ltb b a.
Definition fge (a b : float) : bool := PrimFloat.leb b a.

(** [a / b] on floats: Python raises where IEEE 754 would return an infinity
    or a NaN. *)
Definition truediv (a b : float) : result float :=
  if feq b 0%float then Raise ZeroDivisionError else Ok (a / b)%float.

(** [int(x)]: truncation towards zero. *)
Definition int_of_float (x : float) : result Z :=
  match Prim2SF x with
  | S754_nan => Raise ValueError
  | S754_infinity _ => Raise OverflowError
  | S754_zero _ => Ok 0%Z
  | S754_finite s m e =>
      let a := Z.shiftl (Zpos m) e in
      Ok (if s then (- a)%Z else a)
  end.

(** [float(n)], the conversion applied to the [int] operand of a mixed
    arithmetic operation or comparison: the nearest binary64 number. It is
    exact below 2^53, which every count and index of this program is. *)
Definition float_of_int (n : Z) : float :=
  SF2Prim (binary_normalize prec emax n 0%Z false).

(** *** Lists *)

(** [max(l)] with the comparison [gt]: the first maximal element. *)
Definition py_max {A : Type} (gt : A -> A -> bool) (l : list A) : result A :=
  match l with
  | [] => Raise ValueError
  | x :: l' => Ok (fold_left (fun m y => if gt y m then y else m) l' x)
  end.

(** Where a subscript [i] lands in a list of length [n]. *)
Definition norm_index (n : nat) (i : Z) : result nat :=
  if (i <? 0)%Z then
    if (i + Z.of_nat n <? 0)%Z then Raise IndexError
    else Ok (Z.to_nat (i + Z.of_nat n))
  else if (i <? Z.of_nat n)%Z then Ok (Z.to_nat i)
  else Raise IndexError.

(** [l[i]] *)
Definition getitem {A : Type} (l : list A) (i : Z) : result A :=
  k <- norm_index (length l) i ;;
  match nth_error l k with
  | Some x => Ok x
  | None => Raise IndexError
  end.

(** [l[i] = v] *)
Definition setitem {A : Type} (l : list A) (i : Z) (v : A) : result (list A) :=
  k <- norm_index (length l) i ;;
  Ok (firstn k l ++ v :: skipn (S k) l).

(** [range(a, b)] *)
Definition range (a b : Z) : list Z :=
  map (fun k => (a + Z.of_nat k)%Z) (seq 0 (Z.to_nat (b - a))).

(** [list.sort(key=key)] and [sorted]: a stable sort that compares keys with
    [<] only. On keys that [<] orders totally the stable sorted arrangement
    is unique, so that insertion from the right computes what Python's merge
    sort does. *)
Fixpoint sort_insert {A K : Type} (lt : K -> K -> bool) (key : A -> K)
  (x : A) (l : list A) : list A :=
  match l with
  | [] => [x]
  | y :: l' =>
      if lt (key y) (key x) then y :: sort_insert lt key x l' else x :: l
  end.

Definition sort_by {A K : Type} (lt : K -> K -> bool) (key : A -> K)
  (l : list A) : list A :=
  fold_right (sort_insert lt key) [] l.

Definition sorted {K : Type} (lt : K -> K -> bool) (l : list K) : list K :=
  sort_by lt (fun k => k) l.

(** *** Dictionaries and sets *)

Section Dict.
Context {K V : Type} (eqb : K -> K -> bool).

Definition dict : Type := list (K * V).

(** [d.get(k)] *)
Fixpoint dict_get (d : dict) (k : K) : option V :=
  match d with
  | [] => None
  | (k', v) :: d' => if eqb k' k then Some v else dict_get d' k
  end.

(** [k in d] *)
Definition dict_mem (d : dict) (k : K) : bool :=
  match dict_get d k with
  | Some _ => true
  | None => false
  end.

(** [d[k] = v]: a key already present keeps its place and its key object. *)
Fixpoint dict_set (d : dict) (k : K) (v : V) : dict :=
  match d with
  | [] => [(k, v)]
  | (k', v') :: d' =>
      if eqb k' k then (k', v) :: d' else (k', v') :: dict_set d' k v
  end.

(** [d.keys()] *)
Definition dict_keys (d : dict) : list K := map fst d.
End Dict.

Section PySet.
Context {K : Type} (eqb : K -> K -> bool).

(** [s.add(k)] *)
Definition set_add (s : list K) (k : K) : list K :=
  if existsb (fun k' => eqb k' k) s then s else s ++ [k].

(** [set(l)] *)
Definition set_of (l : list K) : list K := fold_left set_add l [].

(** [s | t] *)
Definition set_union (s t : list K) : list K := fold_left set_add t s.
End PySet.

(** *** Strings *)

(** A [str] is a sequence of Unicode code points. *)
Definition str : Type := list N.

(** [str.isspace] on one character, which is also the class [\s] of [re] on
    [str] patterns. *)
Definition isspace (c : N) : bool :=
  ((9 <=? c) && (c <=? 13) || (28 <=? c) && (c <=? 32)
   || (c =? 133) || (c =? 160) || (c =? 5760)
   || (8192 <=? c) && (c <=? 8202)
   || (c =? 8232) || (c =? 8233) || (c =? 8239) || (c =? 8287)
   || (c =? 12288))%N.

(** [s.split(sep)] for a one-character separator. *)
Fixpoint split (sep : N) (s : str) : list str :=
  match s with
  | [] => [[]]
  | c :: s' =>
      if (c =? sep)%N then [] :: split sep s'
      else
        match split sep s' with
        | l :: ls => (c :: l) :: ls
        | [] => [[c]]
        end
  end.

(** [sep.join(ls)] *)
Fixpoint join (sep : str) (ls : list str) : str :=
  match ls with
  | [] => []
  | [l] => l
  | l :: ls' => l ++ sep ++ join sep ls'
  end.

Fixpoint lstrip (s : str) : str :=
  match s with
  | [] => []
  | c :: s' => if isspace c then lstrip s' else s
  end.

Definition rstrip (s : str) : str := rev (lstrip (rev s)).

(** [s.strip()] *)
Definition strip (s : str) : str := rstrip (lstrip s).

End Py.

Export Py.

(** ** The text-block extractor ([TwoColumnPDFExtractor]) *)

Module Extractor.

Open Scope float_scope.

(** [TextBlock]: a run of text with its bounding box [(x0, y0, x1, y1)],
    its page and its column (0 left, 1 right). *)
Record TextBlock : Type := mkTextBlock {
  text : str;
  bbox : float * float * float * float;
  page_num : Z;
  column : Z
}.

Definition bbox0 (b : TextBlock) : float := let '(x0, _, _, _) := bbox b in x0.
Definition bbox1 (b : TextBlock) : float := let '(_, y0, _, _) := bbox b in y0.
Definition bbox2 (b : TextBlock) : float := let '(_, _, x1, _) := bbox b in x1.
Definition bbox3 (b : TextBlock) : float := let '(_, _, _, y1) := bbox b in y1.

(** The object store: every reference denotes a [TextBlock]. *)
Definition ref : Type := nat.
Definition heap : Type := ref -> TextBlock.

(** [block.column = c] *)
Definition set_column (h : heap) (a : ref) (c : Z) : heap :=
  fun a' =>
    if Nat.eqb a' a
    then {| text := text (h a); bbox := bbox (h a);
            page_num := page_num (h a); column := c |}
    else h a'.

(** [min(int(x / bin_size), 19)] *)
Definition bin_index (bin_size x : float) : result Z :=
  q <- truediv x bin_size ;;
  n <- int_of_float q ;;
  Ok (Z.min n 19).

(** The body of the binning loop: [bin_idx = min(int(x / bin_size), 19)],
    then [bins[bin_idx] += 1]. *)
Definition count_into_bin (bin_size : float) (bins : list Z) (x : float)
  : result (list Z) :=
  bin_idx <- bin_index bin_size x ;;
  c <- getitem bins bin_idx ;;
  setitem bins bin_idx (c + 1)%Z.

(** The test of the valley loop, for the bin [i]. *)
Definition is_valley (bins : list Z) (threshold : float) (i : Z) : result bool :=
  b <- getitem bins i ;;
  if flt (float_of_int b) threshold then
    bl <- getitem bins (i - 1) ;;
    if fge (float_of_int bl) threshold then
      br <- getitem bins (i + 1) ;;
      Ok (fge (float_of_int br) threshold)
    else Ok false
  else Ok false.

Definition _find_column_boundary (x_positions : list float) (page_width : float)
  : result (option float) :=
  if (length x_positions <? 4)%nat then Ok None
  else
    let bin_size := page_width / 20 in
    let bins := repeat 0%Z 20 in
    bins <- for_each (count_into_bin bin_size) x_positions bins ;;
    max_bin <- py_max Z.gtb bins ;;
    let threshold := float_of_int max_bin * 0.3 in
    valleys <- for_each
                 (fun valleys i =>
                    v <- is_valley bins threshold i ;;
                    Ok (if v then valleys ++ [i] else valleys))
                 (range 1 (Z.of_nat (length bins) - 1)) [] ;;
    match valleys with
    | _ :: _ =>
        valley_idx <- getitem valleys (Z.of_nat (length valleys) / 2) ;;
        Ok (Some (float_of_int valley_idx * bin_size))
    | [] => Ok None
    end.

(** Code that reads and writes the store and may raise: the store it leaves
    and its outcome. *)
Definition M (A : Type) : Type := heap -> heap * result A.

Definition ret {A : Type} (a : A) : M A := fun h => (h, Ok a).

Definition bindM {A B : Type} (c : M A) (k : A -> M B) : M B :=
  fun h =>
    match c h with
    | (h', Ok a) => k a h'
    | (h', Raise e) => (h', Raise e)
    end.

Notation "x <~ c ;; k" := (bindM c (fun x => k))
  (at level 61, c at next level, right associativity).

(** A computation that does not touch the store. *)
Definition lift {A : Type} (r : result A) : M A := fun h => (h, r).

(** An expression over the attributes of the blocks. *)
Definition read {A : Type} (f : heap -> A) : M A := fun h => (h, Ok (f h)).

(** [block.column = c] as a statement. *)
Definition write_column (block : ref) (c : Z) : M unit :=
  fun h => (set_column h block c, Ok tt).

(** A [for] loop over [l] whose body is a statement. *)
Fixpoint for_each_do {A : Type} (body : A -> M unit) (l : list A) : M unit :=
  match l with
  | [] => ret tt
  | x :: l' => _ <~ body x ;; for_each_do body l'
  end.

Definition detect_columns (blocks : list ref) : M (list ref) :=
  match blocks with
  | [] => ret blocks
  | _ :: _ =>
      xs <~ read (fun h => map (fun block => bbox2 (h block)) blocks) ;;
      page_width <~ lift (py_max fgt xs) ;;
      x_positions <~ read (fun h => map (fun block => bbox0 (h block)) blocks) ;;
      let x_positions := sorted flt x_positions in
      column_boundary <~ lift (_find_column_boundary x_positions page_width) ;;
      let column_boundary :=
        match column_boundary with
        | None => page_width * 0.5
        | Some b => b
        end in
      _ <~ for_each_do
             (fun block =>
                x <~ read (fun h => bbox0 (h block)) ;;
                if flt x column_boundary
                then write_column block 0
                else write_column block 1)
             blocks ;;
      ret blocks
  end.

(** [{block.bbox[1]: block for block in blocks}]. The keys are floats up to
    [==], so that 0.0 and -0.0 are one key; a NaN is equal to no key. *)
Definition y_map (h : heap) (blocks : list ref) : @dict float ref :=
  fold_left (fun d block => dict_set feq d (bbox1 (h block)) block) blocks [].

(** [sorted(set(left_y_map.keys()) | set(right_y_map.keys()))] *)
Definition all_y_coords (left_y_map right_y_map : @dict float ref) : list float :=
  sorted flt (set_union feq (set_of feq (dict_keys left_y_map))
                            (set_of feq (dict_keys right_y_map))).

Definition _interleave_columns (h : heap) (left_blocks right_blocks : list ref)
  : list ref :=
  let left_y_map := y_map h left_blocks in
  let right_y_map := y_map h right_blocks in
  fold_left
    (fun result y =>
       let result :=
         match dict_get feq left_y_map y with
         | Some block => result ++ [block]
         | None => result
         end in
       match dict_get feq right_y_map y with
       | Some block => result ++ [block]
       | None => result
       end)
    (all_y_coords left_y_map right_y_map) [].

(** The blocks of page [page_num] in the order in which they were appended;
    [pages[page_num]] cannot miss, the key comes from [pages.keys()]. *)
Definition pages_getitem (pages : @dict Z (list ref)) (page_num : Z) : list ref :=
  match dict_get Z.eqb pages page_num with
  | Some page_blocks => page_blocks
  | None => []
  end.

(** The body of the loop over the pages. *)
Definition reorder_page (h : heap) (page_blocks : list ref) : list ref :=
  let page_blocks := sort_by flt (fun b => bbox1 (h b)) page_blocks in
  let left_blocks := filter (fun b => (column (h b) =? 0)%Z) page_blocks in
  let right_blocks := filter (fun b => (column (h b) =? 1)%Z) page_blocks in
  match left_blocks, right_blocks with
  | _ :: _, _ :: _ => _interleave_columns h left_blocks right_blocks
  | _, _ => page_blocks
  end.

(** The body of the loop that groups the blocks by page. *)
Definition add_to_page (h : heap) (pages : @dict Z (list ref)) (block : ref)
  : @dict Z (list ref) :=
  let pages :=
    if dict_mem Z.eqb pages (page_num (h block)) then pages
    else dict_set Z.eqb pages (page_num (h block)) [] in
  dict_set Z.eqb pages (page_num (h block))
           (pages_getitem pages (page_num (h block)) ++ [block]).

Definition group_by_page (h : heap) (blocks : list ref) : @dict Z (list ref) :=
  fold_left (add_to_page h) blocks [].

Definition reorder_text_blocks (h : heap) (blocks : list ref) : list ref :=
  match blocks with
  | [] => blocks
  | _ :: _ =>
      let pages := group_by_page h blocks in
      fold_left
        (fun reordered_blocks page_num =>
           reordered_blocks ++ reorder_page h (pages_getitem pages page_num))
        (sorted Z.ltb (dict_keys pages)) []
  end.

End Extractor.

Export Extractor.

(** ** Regular expressions ([re]) *)

Module Re.

(** The fragment of the pattern language the program uses: a pattern is a
    sequence of items, each a literal character, a class with a greedy
    repetition, or an anchor. *)
Inductive item : Type :=
| Chr (c : N)                 (* a literal character *)
| Star (cls : N -> bool)      (* [cls*] *)
| Plus (cls : N -> bool)      (* [cls+] *)
| Bos                         (* [^] *)
| Eos.                        (* [$] *)

Definition pattern : Type := list item.

(** [cls*] followed by the continuation [k]: the backtracking matcher takes
    as many characters as it can and gives them back one at a time until
    [k] succeeds. The result is the number of characters matched. *)
Fixpoint greedy (cls : N -> bool) (k : nat -> str -> option nat)
  (pos : nat) (s : str) : option nat :=
  match s with
  | c :: s' =>
      if cls c then
        match greedy cls k (S pos) s' with
        | Some n => Some (S n)
        | None => k pos s
        end
      else k pos s
  | [] => k pos s
  end.

(** The match of [p] that starts at [s], the rest of the subject from
    position [pos] on. *)
Fixpoint match_here (p : pattern) (pos : nat) (s : str) {struct p} : option nat :=
  match p with
  | [] => Some 0%nat
  | Chr c :: p' =>
      match s with
      | a :: s' => if (a =? c)%N then option_map S (match_here p' (S pos) s') else None
      | [] => None
      end
  | Star cls :: p' => greedy cls (match_here p') pos s
  | Plus cls :: p' =>
      match s with
      | a :: s' =>
          if cls a then option_map S (greedy cls (match_here p') (S pos) s')
          else None
      | [] => None
      end
  | Bos :: p' =>
      match pos with
      | O => match_here p' pos s
      | S _ => None
      end
  | Eos :: p' =>
      match s with
      | [] => match_here p' pos s
      | [c] => if (c =? 10)%N then match_here p' pos s else None
      | _ => None
      end
  end.

(** [re.match(p, s)] as a truth value. *)
Definition re_match (p : pattern) (s : str) : bool :=
  match match_here p 0 s with
  | Some _ => true
  | None => false
  end.

(** The scan of [re.sub]: leftmost matches, none overlapping. [skip] counts
    the characters still inside the match that was just replaced. *)
Fixpoint sub_scan (p : pattern) (repl : str) (pos skip : nat) (s : str) : str :=
  match s with
  | [] =>
      match skip, match_here p pos [] with
      | O, Some _ => repl
      | _, _ => []
      end
  | c :: s' =>
      match skip with
      | S k => sub_scan p repl (S pos) k s'
      | O =>
          match match_here p pos s with
          | Some (S n) => repl ++ sub_scan p repl (S pos) n s'
          | Some O => repl ++ c :: sub_scan p repl (S pos) 0 s'
          | None => c :: sub_scan p repl (S pos) 0 s'
          end
      end
  end.

(** [re.sub(p, repl, s)] for a replacement without group references. *)
Definition re_sub (p : pattern) (repl : str) (s : str) : str :=
  sub_scan p repl 0 0 s.

End Re.

Export Re.

(** ** The text normaliser *)

Module Normalizer.

(** Code points of the characters the patterns name. *)
Definition LF : N := 10.
Definition TAB : N := 9.
Definition SP : N := 32.

Definition blank (c : N) : bool := ((c =? SP) || (c =? TAB))%N.

Section Digits.

(** The class [\d] of [re] on [str] patterns is Unicode's decimal digits.
    ASCII has the ten digits 0 to 9; [unicode_decimal] is the rest of the
    table, which belongs to the Python runtime. *)
Variable unicode_decimal : N -> bool.

Definition isdecimal (c : N) : bool :=
  ((48 <=? c) && (c <=? 57))%N || ((128 <=? c)%N && unicode_decimal c).

(** The body of the loop over the lines. *)
Definition keep_line (cleaned_lines : list str) (line : str) : list str :=
  let line := strip line in
  match line with
  | [] => cleaned_lines
  | _ :: _ =>
      if re_match [Bos; Plus isdecimal; Eos] line
         || re_match [Bos; Plus isdecimal; Star isspace; Eos] line
      then cleaned_lines
      else if (length line <? 3)%nat then cleaned_lines
      else cleaned_lines ++ [line]
  end.

Definition clean_extracted_text (text : str) : str :=
  match text with
  | [] => []
  | _ :: _ =>
      let text := re_sub [Chr LF; Star isspace; Chr LF; Star isspace; Chr LF]
                         [LF; LF] text in
      let text := re_sub [Plus blank] [SP] text in
      let text := re_sub [Chr LF; Chr SP] [LF] text in
      let lines := split LF text in
      let cleaned_lines := fold_left keep_line lines [] in
      join [LF] cleaned_lines
  end.

End Digits.

(** A string literal as a [str]; a line feed is written [LF]. *)
Definition lit (s : String.string) : str :=
  map Ascii.N_of_ascii (String.list_ascii_of_string s).

Section Literals.
Import String.
Local Open Scope string_scope.

(** The text of scenario D: "Page\n\n\n5\n\nReal content here". *)
Definition scenario_D : str :=
  (lit "Page" ++ [LF; LF; LF] ++ lit "5" ++ [LF; LF]
     ++ lit "Real content here")%list.

Definition real_content_here : str := lit "Real content here".

Definition page_real_content_here : str :=
  (lit "Page" ++ [LF] ++ lit "Real content here")%list.
End Literals.

End Normalizer.

Export Normalizer.

(** ** Vocabulary of the specification *)

Module Spec.

(** *** The order of the floats *)

(** The rank of a number that is not NaN. *)
Definition sf_rank (f : spec_float) : Z * Z * Z :=
  match f with
  | S754_nan => (0, 0, 0)
  | S754_zero _ => (0, 0, 0)
  | S754_infinity s => (if s then -2 else 2, 0, 0)
  | S754_finite s m e => if s then (-1, - e, - Zpos m) else (1, e, Zpos m)
  end%Z.

Definition lex3 (a b : Z * Z * Z) : comparison :=
  let '(a1, a2, a3) := a in
  let '(b1, b2, b3) := b in
  match (a1 ?= b1)%Z with
  | Eq => match (a2 ?= b2)%Z with Eq => (a3 ?= b3)%Z | c => c end
  | c => c
  end.

Definition sf_nan (f : spec_float) : bool :=
  match f with S754_nan => true | _ => false end.

Definition rank (x : float) : Z * Z * Z := sf_rank (Prim2SF x).

(** *** Ordered keys *)

(** What the sort, the dictionaries and the sets need of the comparisons
    [<] and [==] of their keys, on the keys that satisfy [ok]. *)
Record key_order {K : Type} (ltb eqb : K -> K -> bool) (ok : K -> Prop)
  : Prop := {
  ko_eq_refl : forall x, ok x -> eqb x x = true;
  ko_eq_sym : forall x y, eqb x y = true -> eqb y x = true;
  ko_eq_trans : forall x y z, eqb x y = true -> eqb y z = true -> eqb x z = true;
  ko_lt_irrefl : forall x, ltb x x = false;
  ko_lt_trans : forall x y z, ltb x y = true -> ltb y z = true -> ltb x z = true;
  ko_total : forall x y, ok x -> ok y ->
                         ltb x y = true \/ eqb x y = true \/ ltb y x = true;
  ko_lt_eq_l : forall x y z, eqb x y = true -> ltb x z = ltb y z;
  ko_lt_eq_r : forall x y z, eqb x y = true -> ltb z x = ltb z y;
  ko_lt_neq : forall x y, ltb x y = true -> eqb x y = false
}.

Section Keyed.
Context {A K : Type} (ltb eqb : K -> K -> bool) (key : A -> K).

(** No element is before an element of smaller key. *)
Definition ascending (l : list A) : Prop :=
  StronglySorted (fun a b => ltb (key b) (key a) = false) l.

(** Every element has a smaller key than the elements after it. *)
Definition strictly_ascending (l : list A) : Prop :=
  StronglySorted (fun a b => ltb (key a) (key b) = true) l.

(** No two elements at different positions have equal keys. *)
Definition distinct_keys (l : list A) : Prop :=
  ForallOrdPairs (fun a b => eqb (key a) (key b) = false) l.

(** The last element of [l] whose key equals [k]. *)
Definition last_with (l : list A) (k : K) : option A :=
  find (fun a => eqb (key a) k) (rev l).
End Keyed.

Definition opt_list {A : Type} (o : option A) : list A :=
  match o with
  | Some a => [a]
  | None => []
  end.

(** *** Blocks *)

Definition not_nan (x : float) : Prop := is_nan x = false.

(** The top edge of the block at [a]. *)
Definition y0 (h : heap) (a : ref) : float := bbox1 (h a).

(** The left edge of the block at [a]. *)
Definition x0 (h : heap) (a : ref) : float := bbox0 (h a).

Definition on_page (h : heap) (p : Z) (a : ref) : bool :=
  (page_num (h a) =? p)%Z.

Definition in_column (h : heap) (c : Z) (a : ref) : bool :=
  (column (h a) =? c)%Z.

(** The page numbers of [blocks], in the order of the loop over the pages. *)
Definition page_nums (h : heap) (blocks : list ref) : list Z :=
  sorted Z.ltb (dict_keys (group_by_page h blocks)).

(** What the merge emits for the row [y]: the last left block at that
    height, then the last right block at that height. *)
Definition emit_row (h : heap) (left_blocks right_blocks : list ref) (y : float)
  : list ref :=
  opt_list (last_with feq (y0 h) left_blocks y)
  ++ opt_list (last_with feq (y0 h) right_blocks y).

(** *** The column boundary *)

(** [w] is a largest element of [l]. *)
Definition is_maximum (w : float) (l : list float) : Prop :=
  In w l /\ forall x, In x l -> fle x w = true.

(** The page width that [detect_columns] computes. *)
Definition page_width (h : heap) (blocks : list ref) : float :=
  match py_max fgt (map (fun a => bbox2 (h a)) blocks) with
  | Ok w => w
  | Raise _ => 0%float
  end.

(** The left edges of the blocks, as [detect_columns] hands them over. *)
Definition x_positions (h : heap) (blocks : list ref) : list float :=
  sorted flt (map (x0 h) blocks).

(** A left edge that falls into one of the bins 0 to 19. *)
Definition binnable (bin_size x : float) : bool :=
  match bin_index bin_size x with
  | Ok i => (0 <=? i)%Z
  | Raise _ => false
  end.

Definition in_bin (bin_size : float) (i : Z) (x : float) : bool :=
  match bin_index bin_size x with
  | Ok j => (j =? i)%Z
  | Raise _ => false
  end.

(** The histogram: for each of the 20 bins, how many left edges fall into
    it. *)
Definition histogram (bin_size : float) (xs : list float) : list Z :=
  map (fun k => Z.of_nat (length (filter (in_bin bin_size (Z.of_nat k)) xs)))
      (seq 0 20).

Definition maximum (l : list Z) : Z :=
  match l with
  | [] => 0%Z
  | x :: l' => fold_right Z.max x l'
  end.

Definition threshold_of (hist : list Z) : float :=
  (float_of_int (maximum hist) * 0.3)%float.

(** [l[i]] for an index that is in range. *)
Definition item (l : list Z) (i : Z) : Z := nth (Z.to_nat i) l 0%Z.

(** Bin [i] is below the threshold and both its neighbours reach it. *)
Definition valley (hist : list Z) (i : Z) : bool :=
  flt (float_of_int (item hist i)) (threshold_of hist)
  && (fge (float_of_int (item hist (i - 1))) (threshold_of hist)
      && fge (float_of_int (item hist (i + 1))) (threshold_of hist)).

(** The valleys among the bins 1 to 18, in ascending order. *)
Definition valleys (hist : list Z) : list Z := filter (valley hist) (range 1 19).

(** The left edge of the middle valley, if there is a valley. *)
Definition boundary_of (bin_size : float) (hist : list Z) : option float :=
  match valleys hist with
  | [] => None
  | _ :: _ =>
      Some (float_of_int (item (valleys hist)
                              (Z.of_nat (length (valleys hist) / 2)))
            * bin_size)%float
  end.

(** The store after every block of [blocks] got its column from the
    boundary [b]. *)
Definition classified (h : heap) (blocks : list ref) (b : float) : heap :=
  fold_left
    (fun h a => set_column h a (if flt (bbox0 (h a)) b then 0%Z else 1%Z))
    blocks h.

(** *** Example pages *)

Definition block_at (x0 y0 x1 y1 : float) (page col : Z) : TextBlock :=
  mkTextBlock [97%N] (x0, y0, x1, y1) page col.

(** The store that holds the blocks [l] at the references 0, 1, ... *)
Definition heap_of (l : list TextBlock) : heap :=
  fun a => nth a l (block_at 0 0 0 0 0 0).

(** Page 0 with two rows, each a left and a right block, listed left column
    first. *)
Definition two_column_page : heap :=
  heap_of [block_at 10 5 100 6 0 0; block_at 10 7 100 8 0 0;
           block_at 250 5 300 6 0 1; block_at 250 7 300 8 0 1]%float.

(** Page 0 with four blocks at two left edges, 10 and 250, and width 2000. *)
Definition two_edge_page : heap :=
  heap_of [block_at 10 5 100 6 0 0; block_at 10 7 200 8 0 0;
           block_at 250 5 2000 6 0 0; block_at 250 7 300 8 0 0]%float.

(** Page 0 with three blocks in one narrow column. *)
Definition narrow_page : heap :=
  heap_of [block_at 10 5 100 6 0 0; block_at 15 7 200 8 0 0;
           block_at 20 9 120 10 0 0]%float.

(** Page 0 with one column, two blocks at the same height. *)
Definition tied_page : heap :=
  heap_of [block_at 10 5 100 6 0 0; block_at 10 5 100 6 0 0]%float.

(** Page 0 with a left column in which two blocks share their height. *)
Definition colliding_page : heap :=
  heap_of [block_at 10 5 100 6 0 0; block_at 60 5 100 6 0 0;
           block_at 250 5 300 6 0 1]%float.

(** *** Normalised text *)

(** The text is empty or starts with a character that is not white space. *)
Definition starts_solid (s : str) : Prop :=
  match s with
  | [] => True
  | c :: _ => isspace c = false
  end.

Definition starts_blank (s : str) : bool :=
  match s with
  | [] => false
  | c :: _ => blank c
  end.

(** No tab and no two blanks in a row. *)
Fixpoint tidy (s : str) : Prop :=
  match s with
  | [] => True
  | c :: s' =>
      c <> TAB /\ (blank c = true -> starts_blank s' = false) /\ tidy s'
  end.

(** Every line feed is followed by a character that is not white space. *)
Fixpoint solid_after_lf (s : str) : Prop :=
  match s with
  | [] => True
  | c :: s' =>
      (c = LF -> match s' with
                 | [] => False
                 | c' :: _ => isspace c' = false
                 end)
      /\ solid_after_lf s'
  end.

(** The number of blanks [s] starts with. *)
Fixpoint blank_run (s : str) : nat :=
  match s with
  | [] => 0
  | c :: s' => if blank c then S (blank_run s') else 0
  end.

(** A line as the normaliser lets it through. *)
Definition clean_line (unicode_decimal : N -> bool) (l : str) : Prop :=
  strip l = l
  /\ l <> []
  /\ ~ In LF l
  /\ tidy l
  /\ (re_match [Bos; Plus (isdecimal unicode_decimal); Eos] l
      || re_match [Bos; Plus (isdecimal unicode_decimal); Star isspace; Eos] l)
     = false
  /\ (3 <= length l)%nat.

(*SPECDEFS*)
End Spec.

Export Spec.

(** ** The rest of the extractor *)

Module Pipeline.

(** What PyMuPDF's [page.get_text("dict")] holds, as far as the extractor
    reads it: the blocks of the page, each with its bounding box and, if it
    is a text block, its lines, each a list of spans of text. An image
    block has no ["lines"] key. *)
Record Span : Type := mkSpan { span_text : str }.

Record Line : Type := mkLine { spans : list Span }.

Record RawBlock : Type := mkRawBlock {
  raw_bbox : float * float * float * float;
  raw_lines : option (list Line)
}.

(** The truth value of a [str]. *)
Definition truthy (s : str) : bool :=
  match s with
  | [] => false
  | _ :: _ => true
  end.

(** The loop over the spans of a line. *)
Definition line_text_of (line : Line) : str :=
  fold_left (fun line_text span => line_text ++ span_text span) (spans line) [].

(** The loop over the lines of a block. *)
Definition text_lines_of (lines : list Line) : list str :=
  fold_left
    (fun text_lines line =>
       let line_text := line_text_of line in
       if truthy (strip line_text) then text_lines ++ [line_text]
       else text_lines)
    lines [].

(** [extract_text_blocks], on the dictionary of the page [page_num]. The
    column of a new [TextBlock] is the default of the class, 0. *)
Definition extract_text_blocks (text_dict_blocks : list RawBlock) (page_num : Z)
  : list TextBlock :=
  fold_left
    (fun blocks block =>
       match raw_lines block with
       | Some lines =>
           let text_lines := text_lines_of lines in
           let bbox := raw_bbox block in
           match text_lines with
           | _ :: _ =>
               let text := join [SP] text_lines in
               if truthy (strip text)
               then blocks ++ [mkTextBlock (strip text) bbox page_num 0]
               else blocks
           | [] => blocks
           end
       | None => blocks
       end)
    text_dict_blocks [].

(** The blocks of all pages, [all_blocks] of [extract_text]: the pages are
    numbered from 0 in the order of the document. *)
Definition extract_all_blocks (doc : list (list RawBlock)) : list TextBlock :=
  fold_left
    (fun all_blocks page =>
       all_blocks ++ extract_text_blocks (snd page) (fst page))
    (combine (range 0 (Z.of_nat (length doc))) doc) [].

(** [extract_text]: the new blocks are the objects 0, 1, ... of the store,
    in the order of [all_blocks]. *)
Definition extract_text (doc : list (list RawBlock)) : result str :=
  let all_blocks := extract_all_blocks doc in
  let h := heap_of all_blocks in
  let all_blocks := seq 0 (length all_blocks) in
  snd ((all_blocks <~ detect_columns all_blocks ;;
        ordered_blocks <~ read (fun h => reorder_text_blocks h all_blocks) ;;
        text_parts <~ read (fun h => map (fun block => text (h block))
                                         ordered_blocks) ;;
        ret (join [LF] text_parts)) h).

(** [s.replace(old, new)] for an [old] that is not empty: the occurrences
    of [old] from the left, none overlapping. *)
Definition replace (old new s : str) : str :=
  sub_scan (map Chr old) new 0 0 s.

(** The characters of [".pdf"] and of [".txt"]. *)
Definition dot_pdf : str := [46; 112; 100; 102]%N.
Definition dot_txt : str := [46; 116; 120; 116]%N.

(** The output path of [convert_pdf_to_txt] and of [convert_single_pdf]:
    [pdf_path.replace('.pdf', '.txt')] when none is given. *)
Definition output_path_of (pdf_path : str) (output_path : option str) : str :=
  match output_path with
  | None => replace dot_pdf dot_txt pdf_path
  | Some output_path => output_path
  end.

(** The layout that [preview_pdf_structure] reports for a page. *)
Inductive layout : Type :=
| TwoColumns       (* both lists hold blocks *)
| OneColumn        (* one of them does *)
| NoTextBlocks.    (* neither does *)

(** The two lists that [preview_pdf_structure] counts. *)
Definition left_blocks (h : heap) (blocks : list ref) : list ref :=
  filter (fun b => (column (h b) =? 0)%Z) blocks.

Definition right_blocks (h : heap) (blocks : list ref) : list ref :=
  filter (fun b => (column (h b) =? 1)%Z) blocks.

Definition layout_of (h : heap) (blocks : list ref) : layout :=
  let left_blocks := left_blocks h blocks in
  let right_blocks := right_blocks h blocks in
  match left_blocks, right_blocks with
  | _ :: _, _ :: _ => TwoColumns
  | [], [] => NoTextBlocks
  | _, _ => OneColumn
  end.

End Pipeline.

Export Pipeline.

(** ** Vocabulary of the further properties *)

Module Spec2.

(** The sum of the bins. *)
Definition total (bins : list Z) : Z := fold_right Z.add 0%Z bins.

(** A left edge whose bin exists as a subscript of 20 bins, from either
    end. *)
Definition subscriptable (bin_size x : float) : bool :=
  match bin_index bin_size x with
  | Ok i => (-20 <=? i)%Z
  | Raise _ => false
  end.

(** A raw block that [extract_text_blocks] keeps: a text block with a line
    that is not blank. *)
Definition has_text (block : RawBlock) : bool :=
  match raw_lines block with
  | Some lines => existsb (fun line => truthy (strip (line_text_of line))) lines
  | None => false
  end.

(** No two blocks of one page and one column have the same top edge. *)
Definition no_collision (h : heap) (blocks : list ref) : Prop :=
  ForallOrdPairs
    (fun a b => page_num (h a) = page_num (h b) ->
                column (h a) = column (h b) ->
                feq (y0 h a) (y0 h b) = false)
    blocks.

(** The number of characters a match of [p] has at least: one for each
    literal character and each [+] class. *)
Fixpoint min_len (p : pattern) : nat :=
  match p with
  | [] => 0
  | Chr _ :: p' => S (min_len p')
  | Plus _ :: p' => S (min_len p')
  | _ :: p' => min_len p'
  end.

(** The characters of the lines and of the line feeds after them. *)
Definition lines_size (ls : list str) : nat :=
  list_sum (map (fun l => S (length l)) ls).

(** Page 0 with four blocks of which one starts far to the left of the
    page, at -2100; the page width is 2000. *)
Definition far_left_page : heap :=
  heap_of [block_at (-2100) 5 100 6 0 0; block_at 10 7 200 8 0 0;
           block_at 250 5 2000 6 0 0; block_at 250 7 300 8 0 0]%float.

(** A character that is not white space. *)
Definition solid (c : N) : bool := negb (isspace c).

(** The block that [extract_text_blocks] makes of a raw text block of the
    page [page_num]. *)
Definition block_of (page_num : Z) (block : RawBlock) : TextBlock :=
  let lines := match raw_lines block with Some lines => lines | None => [] end in
  mkTextBlock (strip (join [SP] (text_lines_of lines))) (raw_bbox block)
              page_num 0.

(** [s.startswith(old)] *)
Fixpoint startswith (old s : str) : bool :=
  match old, s with
  | [], _ => true
  | c :: old', a :: s' => (a =? c)%N && startswith old' s'
  | _ :: _, [] => false
  end.

(** [old in s] *)
Fixpoint occurs (old s : str) : bool :=
  startswith old s
  || match s with
     | [] => false
     | _ :: s' => occurs old s'
     end.

(** A page with an image block, a text block of two lines of which one is
    blank, a text block of blank lines only and a text block of one line. *)
Definition sample_page : list RawBlock :=
  [mkRawBlock (0, 0, 50, 50)%float None;
   mkRawBlock (10, 5, 100, 6)%float
     (Some [mkLine [mkSpan [32; 72; 105]%N; mkSpan [33; 32]%N];
            mkLine [mkSpan [32; 9]%N]]);
   mkRawBlock (10, 7, 100, 8)%float (Some [mkLine [mkSpan [32]%N]]);
   mkRawBlock (10, 9, 100, 10)%float (Some [mkLine [mkSpan [79; 75]%N]])].

(** A document of two pages. *)
Definition sample_doc : list (list RawBlock) :=
  [sample_page;
   [mkRawBlock (10, 5, 100, 6)%float (Some [mkLine [mkSpan [66; 121; 101]%N]])]].

End Spec2.

Export Spec2.

(* ================================================================== *)
(** * Part II: properties *)
(* ================================================================== *)

(** ** The order of the floats

    The comparisons of binary64 numbers are those of their ranks in a
    lexicographic order, NaN apart: that gives the laws of a total preorder
    on the numbers that are not NaN. *)

Module FloatOrder.

Lemma lex3_spec a1 a2 a3 b1 b2 b3 :
  match lex3 (a1, a2, a3) (b1, b2, b3) with
  | Lt => (a1 < b1 \/ a1 = b1 /\ (a2 < b2 \/ a2 = b2 /\ a3 < b3))%Z
  | Eq => a1 = b1 /\ a2 = b2 /\ a3 = b3
  | Gt => (b1 < a1 \/ a1 = b1 /\ (b2 < a2 \/ a2 = b2 /\ b3 < a3))%Z
  end.
Proof.
  unfold lex3.
  destruct (Z.compare_spec a1 b1), (Z.compare_spec a2 b2),
    (Z.compare_spec a3 b3); lia.
Qed.

Lemma lex3_intro c a1 a2 a3 b1 b2 b3 :
  match c with
  | Lt => (a1 < b1 \/ a1 = b1 /\ (a2 < b2 \/ a2 = b2 /\ a3 < b3))%Z
  | Eq => a1 = b1 /\ a2 = b2 /\ a3 = b3
  | Gt => (b1 < a1 \/ a1 = b1 /\ (b2 < a2 \/ a2 = b2 /\ b3 < a3))%Z
  end -> lex3 (a1, a2, a3) (b1, b2, b3) = c.
Proof.
  intros H. pose proof (lex3_spec a1 a2 a3 b1 b2 b3) as S.
  destruct (lex3 (a1, a2, a3) (b1, b2, b3)), c; try reflexivity; lia.
Qed.

Lemma SFcompare_rank f g :
  SFcompare f g =
  if sf_nan f || sf_nan g then None else Some (lex3 (sf_rank f) (sf_rank g)).
Proof.
  destruct f as [s1| s1 | | s1 m1 e1], g as [s2 | s2 | | s2 m2 e2];
    try destruct s1; try destruct s2; try reflexivity;
    cbn [SFcompare sf_nan orb sf_rank]; f_equal; symmetry; apply lex3_intro;
    rewrite Pos.compare_cont_spec; cbn [Pos.switch_Eq];
    destruct (Z.compare_spec e1 e2), (Pos.compare_spec m1 m2);
    cbn [CompOpp Pos.switch_Eq]; lia.
Qed.

Lemma Prim2SF_nan x : sf_nan (Prim2SF x) = is_nan x.
Proof.
  unfold is_nan. rewrite eqb_spec. unfold SFeqb. rewrite SFcompare_rank.
  destruct (sf_nan (Prim2SF x)) eqn:E; cbn [orb negb]; [reflexivity|].
  destruct (sf_rank (Prim2SF x)) as [[a b] c].
  rewrite (lex3_intro Eq) by lia. reflexivity.
Qed.

Lemma fcompare_rank x y :
  SFcompare (Prim2SF x) (Prim2SF y) =
  if is_nan x || is_nan y then None else Some (lex3 (rank x) (rank y)).
Proof. rewrite SFcompare_rank, !Prim2SF_nan. reflexivity. Qed.

Lemma flt_rank x y :
  flt x y = negb (is_nan x || is_nan y) &&
            match lex3 (rank x) (rank y) with Lt => true | _ => false end.
Proof.
  unfold flt. rewrite ltb_spec. unfold SFltb. rewrite fcompare_rank.
  destruct (is_nan x || is_nan y); reflexivity.
Qed.

Lemma feq_rank x y :
  feq x y = negb (is_nan x || is_nan y) &&
            match lex3 (rank x) (rank y) with Eq => true | _ => false end.
Proof.
  unfold feq. rewrite eqb_spec. unfold SFeqb. rewrite fcompare_rank.
  destruct (is_nan x || is_nan y); reflexivity.
Qed.

Lemma fle_rank x y :
  fle x y = negb (is_nan x || is_nan y) &&
            match lex3 (rank x) (rank y) with Gt => false | _ => true end.
Proof.
  unfold fle. rewrite leb_spec. unfold SFleb. rewrite fcompare_rank.
  destruct (is_nan x || is_nan y); [reflexivity|].
  destruct (lex3 (rank x) (rank y)); reflexivity.
Qed.

Ltac float_order :=
  repeat match goal with
  | x : float |- _ =>
      lazymatch goal with
      | _ : rank x = _ |- _ => fail
      | _ => let a := fresh "a" in let b := fresh "b" in let c := fresh "c" in
             let E := fresh "E" in
             destruct (rank x) as [[a b] c] eqn:E
      end
  end;
  repeat match goal with
  | |- context [lex3 (?a, ?b, ?c) (?d, ?e, ?f)] =>
      let S := fresh "S" in
      pose proof (lex3_spec a b c d e f) as S;
      destruct (lex3 (a, b, c) (d, e, f))
  | H : context [lex3 (?a, ?b, ?c) (?d, ?e, ?f)] |- _ =>
      let S := fresh "S" in
      pose proof (lex3_spec a b c d e f) as S;
      destruct (lex3 (a, b, c) (d, e, f))
  end;
  cbn [andb orb negb] in *; try discriminate; try reflexivity; try lia.

Lemma flt_trans x y z : flt x y = true -> flt y z = true -> flt x z = true.
Proof.
  rewrite !flt_rank.
  destruct (is_nan x), (is_nan y), (is_nan z); cbn [orb negb andb];
    try discriminate.
  float_order.
Qed.


Lemma flt_irrefl x : flt x x = false.
Proof. rewrite flt_rank. destruct (is_nan x); cbn [orb negb andb]; float_order. Qed.

Lemma flt_asym x y : flt x y = true -> flt y x = false.
Proof.
  rewrite !flt_rank. destruct (is_nan x), (is_nan y); cbn [orb negb andb];
    try discriminate; try reflexivity.
  float_order.
Qed.

Lemma feq_refl x : is_nan x = false -> feq x x = true.
Proof. intros H. rewrite feq_rank, H. cbn [orb negb andb]. float_order. Qed.

Lemma feq_sym x y : feq x y = true -> feq y x = true.
Proof.
  rewrite !feq_rank. destruct (is_nan x), (is_nan y); cbn [orb negb andb];
    try discriminate.
  float_order.
Qed.

Lemma feq_trans x y z : feq x y = true -> feq y z = true -> feq x z = true.
Proof.
  rewrite !feq_rank.
  destruct (is_nan x), (is_nan y), (is_nan z); cbn [orb negb andb];
    try discriminate.
  float_order.
Qed.

Lemma flt_total x y :
  is_nan x = false -> is_nan y = false ->
  flt x y = true \/ feq x y = true \/ flt y x = true.
Proof.
  intros Hx Hy. rewrite !flt_rank, feq_rank, Hx, Hy. cbn [orb negb andb].
  float_order; auto.
Qed.

Lemma flt_feq_l x y z : feq x y = true -> flt x z = flt y z.
Proof.
  rewrite !flt_rank, feq_rank.
  destruct (is_nan x), (is_nan y), (is_nan z); cbn [orb negb andb];
    try discriminate; try reflexivity.
  float_order.
Qed.

Lemma flt_feq_r x y z : feq x y = true -> flt z x = flt z y.
Proof.
  rewrite !flt_rank, feq_rank.
  destruct (is_nan x), (is_nan y), (is_nan z); cbn [orb negb andb];
    try discriminate; try reflexivity.
  float_order.
Qed.

Lemma flt_not_feq x y : flt x y = true -> feq x y = false.
Proof.
  rewrite !flt_rank, feq_rank. destruct (is_nan x), (is_nan y);
    cbn [orb negb andb]; try discriminate.
  float_order.
Qed.

Lemma fle_flt x y :
  is_nan x = false -> is_nan y = false -> fle x y = negb (flt y x).
Proof.
  intros Hx Hy. rewrite fle_rank, flt_rank, Hx, Hy. cbn [orb negb andb].
  float_order.
Qed.

Lemma fle_trans x y z : fle x y = true -> fle y z = true -> fle x z = true.
Proof.
  rewrite !fle_rank.
  destruct (is_nan x), (is_nan y), (is_nan z); cbn [orb negb andb];
    try discriminate.
  float_order.
Qed.

End FloatOrder.

(** ** Sorting, dictionaries and sets over ordered keys *)

Module Keys.

Section Sorting.
Context {A K : Type} (ltb eqb : K -> K -> bool) (ok : K -> Prop)
        (key : A -> K).

Lemma sort_insert_perm x l : Permutation (x :: l) (sort_insert ltb key x l).
Proof.
  induction l as [|y l IH]; cbn [sort_insert]; [reflexivity|].
  destruct (ltb (key y) (key x)); [|reflexivity].
  rewrite perm_swap. now constructor.
Qed.

Lemma sort_by_cons x l :
  sort_by ltb key (x :: l) = sort_insert ltb key x (sort_by ltb key l).
Proof. reflexivity. Qed.

Lemma sort_by_perm l : Permutation l (sort_by ltb key l).
Proof.
  induction l as [|x l IH]; [constructor|rewrite sort_by_cons].
  etransitivity; [|apply sort_insert_perm]. now constructor.
Qed.

Lemma sort_by_In l a : In a (sort_by ltb key l) <-> In a l.
Proof.
  split; apply Permutation_in;
    [symmetry|]; apply sort_by_perm.
Qed.

Lemma sort_by_length l : length (sort_by ltb key l) = length l.
Proof. symmetry. apply Permutation_length, sort_by_perm. Qed.

Hypothesis KO : key_order ltb eqb ok.

Lemma ko_lt_asym x y : ltb x y = true -> ltb y x = false.
Proof.
  intros H. destruct (ltb y x) eqn:E; [|reflexivity].
  rewrite <- (ko_lt_irrefl _ _ _ KO x). symmetry.
  eapply (ko_lt_trans _ _ _ KO); eassumption.
Qed.

(** [<] is negatively transitive on the keys that are [ok]. *)
Lemma ko_nlt_trans x y z :
  ok x -> ok y ->
  ltb z y = false -> ltb y x = false -> ltb z x = false.
Proof.
  intros Hx Hy Hzy Hyx. destruct (ltb z x) eqn:E; [|reflexivity].
  destruct (ko_total _ _ _ KO y x Hy Hx) as [H | [H | H]].
  - congruence.
  - rewrite (ko_lt_eq_r _ _ _ KO _ _ z H) in Hzy. congruence.
  - rewrite (ko_lt_trans _ _ _ KO _ _ _ E H) in Hzy. discriminate.
Qed.

Lemma sort_insert_ascending x l :
  ok (key x) -> Forall (fun a => ok (key a)) l ->
  ascending ltb key l -> ascending ltb key (sort_insert ltb key x l).
Proof.
  intros Hx. unfold ascending.
  induction l as [|y l IH]; intros Hl Hs; cbn [sort_insert].
  - constructor; constructor.
  - inversion Hl as [|? ? Hy Hl']; subst.
    inversion Hs as [|? ? Hs' Hall]; subst.
    destruct (ltb (key y) (key x)) eqn:E.
    + constructor; [now apply IH|].
      rewrite Forall_forall in *. intros z Hz.
      apply (Permutation_in _ (Permutation_sym (sort_insert_perm x l))) in Hz.
      destruct Hz as [<- | Hz]; [now apply ko_lt_asym | now apply Hall].
    + constructor; [assumption|].
      constructor; [assumption|].
      rewrite Forall_forall in *. intros z Hz.
      apply (ko_nlt_trans _ (key y)); auto.
Qed.

Lemma sort_by_ascending l :
  Forall (fun a => ok (key a)) l -> ascending ltb key (sort_by ltb key l).
Proof.
  induction l as [|x l IH]; intros H.
  - constructor.
  - rewrite sort_by_cons. inversion H as [|? ? Hx Hl]; subst.
    apply sort_insert_ascending; [assumption| |now apply IH].
    rewrite Forall_forall in *. intros a Ha. apply (proj1 (sort_by_In _ _)) in Ha. auto.
Qed.

Lemma sort_insert_strictly x l :
  ok (key x) -> Forall (fun a => ok (key a)) l ->
  Forall (fun a => eqb (key x) (key a) = false) l ->
  strictly_ascending ltb key l ->
  strictly_ascending ltb key (sort_insert ltb key x l).
Proof.
  intros Hx. unfold strictly_ascending.
  induction l as [|y l IH]; intros Hl Hd Hs; cbn [sort_insert].
  - constructor; constructor.
  - inversion Hl as [|? ? Hy Hl']; subst.
    inversion Hd as [|? ? Hxy Hd']; subst.
    inversion Hs as [|? ? Hs' Hall]; subst.
    destruct (ltb (key y) (key x)) eqn:E.
    + constructor; [now apply IH|].
      rewrite Forall_forall in *. intros z Hz.
      apply (Permutation_in _ (Permutation_sym (sort_insert_perm x l))) in Hz.
      destruct Hz as [<- | Hz]; [assumption | now apply Hall].
    + assert (Lxy : ltb (key x) (key y) = true).
      { destruct (ko_total _ _ _ KO (key x) (key y) Hx Hy) as [H | [H | H]];
          congruence. }
      constructor; [assumption|].
      constructor; [assumption|].
      rewrite Forall_forall in *. intros z Hz.
      eapply (ko_lt_trans _ _ _ KO); eauto.
Qed.

Lemma sort_by_strictly l :
  Forall (fun a => ok (key a)) l -> distinct_keys eqb key l ->
  strictly_ascending ltb key (sort_by ltb key l).
Proof.
  induction l as [|x l IH]; intros H D.
  - constructor.
  - rewrite sort_by_cons. inversion H as [|? ? Hx Hl]; subst.
    inversion D as [|? ? Dx Dl]; subst.
    apply sort_insert_strictly; [assumption| | |now apply IH].
    + rewrite Forall_forall in *. intros a Ha. apply (proj1 (sort_by_In _ _)) in Ha. auto.
    + rewrite Forall_forall in *. intros a Ha. apply (proj1 (sort_by_In _ _)) in Ha. auto.
Qed.

End Sorting.

Section Maps.
Context {A K : Type} (ltb eqb : K -> K -> bool) (ok : K -> Prop)
        (key : A -> K).
Hypothesis KO : key_order ltb eqb ok.

Lemma find_app (p : A -> bool) l1 l2 :
  find p (l1 ++ l2) =
  match find p l1 with
  | Some a => Some a
  | None => find p l2
  end.
Proof.
  induction l1 as [|x l1 IH]; cbn; [reflexivity|].
  destruct (p x); [reflexivity|apply IH].
Qed.

Lemma dict_get_set {V : Type} (d : @dict K V) k v q :
  dict_get eqb (dict_set eqb d k v) q =
  if eqb k q then Some v else dict_get eqb d q.
Proof.
  induction d as [|[k' v'] d IH]; cbn.
  - reflexivity.
  - destruct (eqb k' k) eqn:E; cbn.
    + destruct (eqb k q) eqn:Q.
      * rewrite (ko_eq_trans _ _ _ KO _ _ _ E Q). reflexivity.
      * destruct (eqb k' q) eqn:Q'; [|reflexivity].
        apply (ko_eq_sym _ _ _ KO) in E.
        rewrite (ko_eq_trans _ _ _ KO _ _ _ E Q') in Q. discriminate.
    + destruct (eqb k' q) eqn:Q'; [|apply IH].
      destruct (eqb k q) eqn:Q; [|reflexivity].
      apply (ko_eq_sym _ _ _ KO) in Q.
      rewrite (ko_eq_trans _ _ _ KO _ _ _ Q' Q) in E. discriminate.
Qed.

Lemma dict_keys_set {V : Type} (d : @dict K V) k v :
  dict_keys (dict_set eqb d k v) =
  if dict_mem eqb d k then dict_keys d else dict_keys d ++ [k].
Proof.
  unfold dict_mem, dict_keys.
  induction d as [|[k' v'] d IH]; cbn; [reflexivity|].
  destruct (eqb k' k); cbn; [reflexivity|].
  rewrite IH. destruct (dict_get eqb d k); reflexivity.
Qed.

(** The dictionary [{key(a): a for a in l}], built onto [d]. *)
Let key_map (l : list A) (d : @dict K A) : @dict K A :=
  fold_left (fun d a => dict_set eqb d (key a) a) l d.

Lemma dict_get_key_map l d q :
  dict_get eqb (key_map l d) q =
  match last_with eqb key l q with
  | Some a => Some a
  | None => dict_get eqb d q
  end.
Proof.
  unfold key_map, last_with. revert d.
  induction l as [|a l IH]; intros d; cbn [fold_left rev].
  - reflexivity.
  - rewrite IH, find_app. destruct (find _ (rev l)); [reflexivity|].
    rewrite dict_get_set. cbn. destruct (eqb (key a) q); reflexivity.
Qed.

Lemma dict_keys_key_map_In l d k :
  In k (dict_keys (key_map l d)) -> In k (dict_keys d) \/ In k (map key l).
Proof.
  unfold key_map. revert d.
  induction l as [|a l IH]; intros d H; cbn in *; [now left|].
  apply IH in H. destruct H as [H | H]; [|now right; right].
  rewrite dict_keys_set in H. destruct (dict_mem eqb d (key a)).
  - now left.
  - apply in_app_or in H. destruct H as [H | [<- | []]]; [now left|].
    right. now left.
Qed.

Lemma dict_get_In_keys {V : Type} (d : @dict K V) q v :
  dict_get eqb d q = Some v -> exists k, In k (dict_keys d) /\ eqb k q = true.
Proof.
  induction d as [|[k' v'] d IH]; cbn; [discriminate|].
  destruct (eqb k' q) eqn:E.
  - intros _. exists k'. auto.
  - intros H. destruct (IH H) as [k [Hk Ek]]. exists k. auto.
Qed.

Lemma last_with_Some l q a :
  last_with eqb key l q = Some a -> In a l /\ eqb (key a) q = true.
Proof.
  unfold last_with. intros H. apply find_some in H.
  destruct H as [H1 H2]. split; [now apply in_rev|assumption].
Qed.

Lemma last_with_covers l a :
  In a l -> ok (key a) ->
  exists b, last_with eqb key l (key a) = Some b.
Proof.
  unfold last_with. intros H Ha.
  destruct (find _ (rev l)) as [b|] eqn:E; [now exists b|].
  apply in_rev in H. apply (find_none _ _ E) in H.
  rewrite (ko_eq_refl _ _ _ KO _ Ha) in H. discriminate.
Qed.

Lemma key_map_covers l a :
  In a l -> ok (key a) ->
  exists k, In k (dict_keys (key_map l [])) /\ eqb k (key a) = true.
Proof.
  intros H Ha. destruct (last_with_covers l a H Ha) as [b Hb].
  apply (dict_get_In_keys _ _ b). rewrite dict_get_key_map, Hb. reflexivity.
Qed.

Lemma distinct_keys_eq l a b :
  distinct_keys eqb key l -> In a l -> In b l ->
  eqb (key a) (key b) = true -> a = b.
Proof.
  unfold distinct_keys. induction 1 as [|x l Hx Hl IH]; cbn; [tauto|].
  rewrite Forall_forall in Hx.
  intros [<- | Ha] [<- | Hb] E; auto.
  - rewrite (Hx _ Hb) in E. discriminate.
  - apply (ko_eq_sym _ _ _ KO) in E. rewrite (Hx _ Ha) in E. discriminate.
Qed.

Lemma distinct_keys_NoDup l :
  Forall (fun a => ok (key a)) l -> distinct_keys eqb key l -> NoDup l.
Proof.
  unfold distinct_keys. intros Hok. induction 1 as [|x l Hx Hl IH].
  - constructor.
  - inversion Hok; subst. constructor; [|now apply IH].
    intros Hin. rewrite Forall_forall in Hx. specialize (Hx _ Hin).
    rewrite (ko_eq_refl _ _ _ KO) in Hx; [discriminate|assumption].
Qed.

(** A block that a later block of the same key follows is never the
    last of its key. *)
Lemma last_with_shadowed l1 a l2 b q :
  In b l2 -> eqb (key b) (key a) = true -> ~ In a l2 ->
  last_with eqb key (l1 ++ a :: l2) q <> Some a.
Proof.
  intros Hb E Hna. unfold last_with.
  rewrite rev_app_distr. cbn [rev]. rewrite <- app_assoc, find_app.
  destruct (find _ (rev l2)) as [c|] eqn:F.
  - intros [= ->]. apply find_some in F. apply Hna, in_rev, F.
  - cbn. destruct (eqb (key a) q) eqn:Q; [|].
    + apply in_rev in Hb. apply (find_none _ _ F) in Hb.
      rewrite (ko_eq_trans _ _ _ KO _ _ _ E Q) in Hb. discriminate.
    + intros H. apply find_some in H. destruct H as [_ H]. congruence.
Qed.

End Maps.

Section Sets.
Context {K : Type} (ltb eqb : K -> K -> bool) (ok : K -> Prop).
Hypothesis KO : key_order ltb eqb ok.

Lemma FOP_snoc {B : Type} (R : B -> B -> Prop) l x :
  ForallOrdPairs R l -> Forall (fun y => R y x) l ->
  ForallOrdPairs R (l ++ [x]).
Proof.
  induction 1 as [|y l Hy Hl IH]; intros H; cbn.
  - constructor; constructor.
  - inversion H; subst. constructor; [|now apply IH].
    apply Forall_app. split; [assumption|]. constructor; [assumption|constructor].
Qed.

Lemma set_add_In s k x : In x (set_add eqb s k) -> In x s \/ x = k.
Proof.
  unfold set_add. destruct (existsb _ s); [now left|].
  intros H. apply in_app_or in H. destruct H as [H | [<- | []]]; auto.
Qed.

Lemma set_add_incl s k x : In x s -> In x (set_add eqb s k).
Proof.
  unfold set_add. destruct (existsb _ s); [trivial|].
  intros H. apply in_or_app. now left.
Qed.

Lemma set_add_covers s k :
  ok k -> exists y, In y (set_add eqb s k) /\ eqb y k = true.
Proof.
  intros Hk. unfold set_add. destruct (existsb _ s) eqn:E.
  - apply existsb_exists in E. exact E.
  - exists k. split; [apply in_or_app; right; now left|].
    now apply (ko_eq_refl _ _ _ KO).
Qed.

Lemma set_add_distinct s k :
  distinct_keys eqb (fun k => k) s ->
  distinct_keys eqb (fun k => k) (set_add eqb s k).
Proof.
  unfold set_add, distinct_keys. intros H.
  destruct (existsb _ s) eqn:E; [assumption|].
  apply FOP_snoc; [assumption|].
  apply Forall_forall. intros y Hy.
  destruct (eqb y k) eqn:F; [|reflexivity].
  rewrite <- E. symmetry. apply existsb_exists. eauto.
Qed.

Lemma set_union_In t s x :
  In x (set_union eqb s t) -> In x s \/ In x t.
Proof.
  unfold set_union. revert s.
  induction t as [|k t IH]; intros s H; cbn in *; [now left|].
  apply IH in H. destruct H as [H | H]; [|now right; right].
  apply set_add_In in H. destruct H as [H | ->]; [now left|right; now left].
Qed.

Lemma set_union_incl t s x : In x s -> In x (set_union eqb s t).
Proof.
  unfold set_union. revert s.
  induction t as [|k t IH]; intros s H; cbn; [assumption|].
  apply IH, set_add_incl, H.
Qed.

Lemma set_union_covers t s k :
  In k t -> ok k -> exists y, In y (set_union eqb s t) /\ eqb y k = true.
Proof.
  unfold set_union. revert s.
  induction t as [|k' t IH]; intros s H Hk; cbn in *; [contradiction|].
  destruct H as [-> | H]; [|now apply IH].
  destruct (set_add_covers s k Hk) as [y [Hy Ey]].
  exists y. split; [|assumption]. now apply set_union_incl.
Qed.

Lemma set_union_distinct t s :
  distinct_keys eqb (fun k => k) s ->
  distinct_keys eqb (fun k => k) (set_union eqb s t).
Proof.
  unfold set_union. revert s.
  induction t as [|k t IH]; intros s H; cbn; [assumption|].
  apply IH, set_add_distinct, H.
Qed.

Lemma set_of_In l x : In x (set_of eqb l) -> In x l.
Proof.
  intros H. apply (set_union_In l []) in H. destruct H as [[] | H]; exact H.
Qed.

Lemma set_of_covers l k :
  In k l -> ok k -> exists y, In y (set_of eqb l) /\ eqb y k = true.
Proof. apply set_union_covers. Qed.

Lemma set_of_distinct l : distinct_keys eqb (fun k => k) (set_of eqb l).
Proof. apply (set_union_distinct l []). constructor. Qed.

End Sets.

End Keys.

(** ** The column detector *)

Module Detector.

Import FloatOrder Keys.

(** *** Subscripts *)

Lemma norm_index_ok n i :
  (0 <= i < Z.of_nat n)%Z -> norm_index n i = Ok (Z.to_nat i).
Proof.
  intros H. unfold norm_index.
  destruct (Z.ltb_spec i 0); [lia|].
  destruct (Z.ltb_spec i (Z.of_nat n)); [reflexivity|lia].
Qed.

Lemma getitem_ok {A : Type} (l : list A) i d :
  (0 <= i < Z.of_nat (length l))%Z -> getitem l i = Ok (nth (Z.to_nat i) l d).
Proof.
  intros H. unfold getitem. rewrite norm_index_ok by assumption. cbn.
  destruct (nth_error l (Z.to_nat i)) as [x|] eqn:E.
  - f_equal. symmetry. now apply nth_error_nth.
  - apply nth_error_None in E. lia.
Qed.

(** The list [l] with [v] at the index [k]. *)
Lemma upd_length {A : Type} (l : list A) k v :
  (k < length l)%nat -> length (firstn k l ++ v :: skipn (S k) l) = length l.
Proof.
  intros H. rewrite length_app, length_firstn. cbn [length].
  rewrite length_skipn. lia.
Qed.

Lemma upd_nth {A : Type} (l : list A) k v d j :
  (k < length l)%nat ->
  nth j (firstn k l ++ v :: skipn (S k) l) d =
  if Nat.eqb j k then v else nth j l d.
Proof.
  intros H.
  assert (Lf : length (firstn k l) = k) by (rewrite length_firstn; lia).
  destruct (Nat.eqb_spec j k) as [-> | N].
  - rewrite app_nth2 by lia. now rewrite Lf, Nat.sub_diag.
  - destruct (Nat.lt_ge_cases j k) as [Lt | Ge].
    + rewrite app_nth1 by lia. rewrite nth_firstn.
      destruct (Nat.ltb_spec j k); [reflexivity|lia].
    + rewrite app_nth2 by lia. rewrite Lf.
      destruct (j - k)%nat as [|m] eqn:E; [lia|]. cbn [nth].
      rewrite nth_skipn. f_equal. lia.
Qed.

Lemma setitem_ok {A : Type} (l : list A) i v :
  (0 <= i < Z.of_nat (length l))%Z ->
  setitem l i v =
  Ok (firstn (Z.to_nat i) l ++ v :: skipn (S (Z.to_nat i)) l).
Proof.
  intros H. unfold setitem. now rewrite norm_index_ok.
Qed.


(** *** The histogram *)

Lemma map_nth_seq {A : Type} (l : list A) d :
  map (fun k => nth k l d) (seq 0 (length l)) = l.
Proof.
  apply (nth_ext _ _ d d).
  - now rewrite length_map, length_seq.
  - intros n Hn. rewrite length_map, length_seq in Hn.
    rewrite (nth_indep _ d (nth 0 l d)) by now rewrite length_map, length_seq.
    rewrite (map_nth (fun k => nth k l d) (seq 0 (length l)) 0%nat n).
    now rewrite seq_nth.
Qed.

Lemma norm_index_lt n i k : norm_index n i = Ok k -> (k < n)%nat.
Proof.
  unfold norm_index.
  destruct (Z.ltb_spec i 0).
  - destruct (Z.ltb_spec (i + Z.of_nat n) 0); [discriminate|].
    intros [= <-]. lia.
  - destruct (Z.ltb_spec i (Z.of_nat n)); [|discriminate].
    intros [= <-]. lia.
Qed.

Lemma count_into_bin_length bin_size bins x bins' :
  count_into_bin bin_size bins x = Ok bins' -> length bins' = length bins.
Proof.
  unfold count_into_bin, getitem, setitem.
  destruct (bin_index bin_size x) as [j|]; [cbn|discriminate].
  destruct (norm_index (length bins) j) as [k|] eqn:E; [cbn|discriminate].
  destruct (nth_error bins k); [cbn|discriminate].
  intros [= <-]. apply upd_length. now apply norm_index_lt in E.
Qed.

Lemma count_loop_length bin_size xs bins bins' :
  for_each (count_into_bin bin_size) xs bins = Ok bins' ->
  length bins' = length bins.
Proof.
  revert bins. induction xs as [|x xs IH]; intros bins; cbn.
  - now intros [= <-].
  - destruct (count_into_bin bin_size bins x) as [b|] eqn:E; [cbn|discriminate].
    intros H. rewrite (IH _ H). now apply count_into_bin_length in E.
Qed.

Lemma bin_index_le bin_size x j : bin_index bin_size x = Ok j -> (j <= 19)%Z.
Proof.
  unfold bin_index. destruct (truediv x bin_size); [cbn|discriminate].
  destruct (int_of_float a); [cbn|discriminate].
  intros [= <-]. lia.
Qed.

Lemma count_loop bin_size xs bins :
  length bins = 20%nat ->
  forallb (binnable bin_size) xs = true ->
  for_each (count_into_bin bin_size) xs bins =
  Ok (map (fun k => (nth k bins 0
                     + Z.of_nat (length (filter (in_bin bin_size (Z.of_nat k))
                                                xs)))%Z)
          (seq 0 20)).
Proof.
  revert bins. induction xs as [|x xs IH]; intros bins L B.
  - cbn [for_each filter length]. f_equal. rewrite <- L.
    rewrite <- (map_nth_seq bins 0%Z) at 1. apply map_ext. intros k.
    cbn. lia.
  - cbn [forallb] in B. apply andb_prop in B. destruct B as [Bx B].
    cbn [for_each]. unfold binnable in Bx. unfold count_into_bin at 1.
    destruct (bin_index bin_size x) as [j|] eqn:E; [|discriminate].
    apply Z.leb_le in Bx. pose proof (bin_index_le _ _ _ E) as Lj.
    cbn [bind].
    rewrite (getitem_ok bins j 0%Z) by lia. cbn [bind].
    rewrite setitem_ok by lia. cbn [bind].
    rewrite IH; [|rewrite upd_length; lia|assumption].
    f_equal. apply map_ext_in. intros k Hk. apply in_seq in Hk.
    rewrite upd_nth by lia. cbn [filter]. unfold in_bin at 2. rewrite E.
    destruct (Nat.eqb_spec k (Z.to_nat j)) as [-> | N].
    + rewrite Z2Nat.id, Z.eqb_refl by lia. cbn [length]. lia.
    + destruct (Z.eqb_spec j (Z.of_nat k)); [lia|]. reflexivity.
Qed.

Lemma binning_histogram bin_size xs :
  forallb (binnable bin_size) xs = true ->
  for_each (count_into_bin bin_size) xs (repeat 0%Z 20) =
  Ok (histogram bin_size xs).
Proof.
  intros B. rewrite count_loop by (reflexivity || assumption).
  reflexivity.
Qed.

Lemma histogram_perm bin_size xs xs' :
  Permutation xs xs' -> histogram bin_size xs = histogram bin_size xs'.
Proof.
  intros P. unfold histogram. apply map_ext. intros k. f_equal.
  apply Permutation_length. clear -P.
  induction P as [|x l l' P IH|x y l|l l' l'' P1 IH1 P2 IH2]; cbn.
  - constructor.
  - destruct (in_bin _ _ x); [now constructor|assumption].
  - destruct (in_bin _ _ x), (in_bin _ _ y); try reflexivity. apply perm_swap.
  - etransitivity; eassumption.
Qed.

(** *** The valleys *)

Lemma fold_max_shift l x y :
  fold_right Z.max (Z.max x y) l = Z.max y (fold_right Z.max x l).
Proof.
  induction l as [|z l IH]; cbn; [lia|]. rewrite IH. lia.
Qed.

Lemma py_max_maximum l :
  l <> [] -> py_max Z.gtb l = Ok (maximum l).
Proof.
  destruct l as [|x l]; [contradiction|]. intros _. cbn. f_equal.
  revert x. induction l as [|y l IH]; intros x; cbn; [reflexivity|].
  rewrite IH, <- fold_max_shift. f_equal.
  rewrite Z.gtb_ltb. destruct (Z.ltb_spec x y); lia.
Qed.

Lemma is_valley_ok bins threshold i :
  length bins = 20%nat -> (1 <= i <= 18)%Z ->
  is_valley bins threshold i =
  Ok (flt (float_of_int (item bins i)) threshold
      && (fge (float_of_int (item bins (i - 1))) threshold
          && fge (float_of_int (item bins (i + 1))) threshold)).
Proof.
  intros L H. unfold is_valley, item.
  rewrite (getitem_ok bins i 0%Z) by lia. cbn [bind].
  destruct (flt _ threshold); [|reflexivity].
  rewrite (getitem_ok bins (i - 1) 0%Z) by lia. cbn [bind].
  destruct (fge _ threshold); [|reflexivity].
  rewrite (getitem_ok bins (i + 1) 0%Z) by lia. reflexivity.
Qed.

Lemma valley_loop bins l acc :
  length bins = 20%nat -> Forall (fun i => 1 <= i <= 18)%Z l ->
  for_each
    (fun valleys i =>
       v <- is_valley bins (threshold_of bins) i ;;
       Ok (if v then valleys ++ [i] else valleys))
    l acc
  = Ok (acc ++ filter (valley bins) l).
Proof.
  intros L. revert acc. induction l as [|i l IH]; intros acc H.
  - cbn. now rewrite app_nil_r.
  - inversion H as [|? ? Hi Hl]; subst. cbn [for_each filter].
    rewrite is_valley_ok by assumption. cbn [bind]. fold (valley bins i).
    rewrite IH by assumption. destruct (valley bins i); [|reflexivity].
    now rewrite <- app_assoc.
Qed.

Lemma range_bounds a b i : In i (range a b) -> (a <= i < b)%Z.
Proof.
  unfold range. intros H. apply in_map_iff in H. destruct H as [k [<- Hk]].
  apply in_seq in Hk. lia.
Qed.

(** *** The boundary *)

Lemma find_column_boundary_short xs pw :
  (length xs < 4)%nat -> _find_column_boundary xs pw = Ok None.
Proof.
  intros H. unfold _find_column_boundary.
  destruct (Nat.ltb_spec (length xs) 4); [reflexivity|lia].
Qed.

Lemma find_column_boundary_raise xs pw e :
  (4 <= length xs)%nat ->
  for_each (count_into_bin (pw / 20)) xs (repeat 0%Z 20) = Raise e ->
  _find_column_boundary xs pw = Raise e.
Proof.
  intros H B. unfold _find_column_boundary.
  destruct (Nat.ltb_spec (length xs) 4); [lia|]. now rewrite B.
Qed.

Lemma find_column_boundary_binned xs pw bins :
  (4 <= length xs)%nat ->
  for_each (count_into_bin (pw / 20)) xs (repeat 0%Z 20) = Ok bins ->
  _find_column_boundary xs pw = Ok (boundary_of (pw / 20) bins).
Proof.
  intros H B. unfold _find_column_boundary.
  destruct (Nat.ltb_spec (length xs) 4); [lia|]. rewrite B. cbn [bind].
  assert (L : length bins = 20%nat).
  { now rewrite (count_loop_length _ _ _ _ B), repeat_length. }
  rewrite py_max_maximum by (destruct bins; [discriminate|congruence]).
  cbn [bind]. fold (threshold_of bins).
  rewrite L. change (Z.of_nat 20 - 1)%Z with 19%Z.
  rewrite valley_loop; [|assumption|].
  - cbn [bind app]. fold (valleys bins). unfold boundary_of.
    destruct (valleys bins) as [|v vs] eqn:V; [reflexivity|].
    rewrite (getitem_ok _ _ 0%Z).
    + cbn [bind]. unfold item. rewrite Nat2Z.inj_div.
      reflexivity.
    + split; [apply Z.div_pos; lia|].
      apply Z.div_lt_upper_bound; [lia|]. cbn [length]. lia.
  - apply Forall_forall. intros i Hi. apply range_bounds in Hi. lia.
Qed.


(** The binning has no lower clamp: a left edge at least one bin width
    below zero lands, through Python's negative subscripts, in a bin at the
    far end, and a page of width zero makes the division raise. *)
Example negative_edge_wraps :
  for_each (count_into_bin 100%float) [-100; 10; 250; 250]%float
           (repeat 0%Z 20)
  = Ok [1; 0; 2; 0; 0; 0; 0; 0; 0; 0; 0; 0; 0; 0; 0; 0; 0; 0; 0; 1]%Z.
Proof. vm_compute. reflexivity. Qed.

Example zero_width_raises :
  _find_column_boundary [0; 0; 0; 0]%float 0%float = Raise ZeroDivisionError.
Proof. vm_compute. reflexivity. Qed.

(** *** The page width *)

Lemma flt_fle x y : flt x y = true -> fle x y = true.
Proof.
  rewrite flt_rank, fle_rank. destruct (is_nan x), (is_nan y);
    cbn [orb negb andb]; try discriminate.
  float_order.
Qed.

Lemma fle_refl x : not_nan x -> fle x x = true.
Proof.
  unfold not_nan. intros H. rewrite fle_rank, H. cbn [orb negb andb].
  float_order.
Qed.

Lemma py_max_float l x :
  Forall not_nan (x :: l) ->
  is_maximum (fold_left (fun m y => if fgt y m then y else m) l x) (x :: l).
Proof.
  intros H.
  assert (G : forall seen m,
             Forall not_nan (m :: l) -> In m seen ->
             (forall z, In z seen -> fle z m = true) ->
             is_maximum (fold_left (fun m y => if fgt y m then y else m) l m)
                        (seen ++ l)).
  { clear. induction l as [|y l IH]; intros seen m N Hm Hb; cbn [fold_left].
    - rewrite app_nil_r. split; assumption.
    - inversion N as [|? ? Nm N']; subst. inversion N' as [|? ? Ny Nl]; subst.
      replace (seen ++ y :: l) with ((seen ++ [y]) ++ l)
        by now rewrite <- app_assoc.
      change (fgt y m) with (flt m y). destruct (flt m y) eqn:E.
      + apply IH.
        * constructor; assumption.
        * apply in_or_app. right. now left.
        * intros z Hz. apply in_app_or in Hz. destruct Hz as [Hz | [<- | []]].
          -- eapply fle_trans; [apply Hb, Hz|]. now apply flt_fle.
          -- now apply fle_refl.
      + apply IH.
        * constructor; assumption.
        * apply in_or_app. now left.
        * intros z Hz. apply in_app_or in Hz. destruct Hz as [Hz | [<- | []]].
          -- apply Hb, Hz.
          -- rewrite fle_flt by assumption. now rewrite E. }
  apply (G [x] x H); [now left|].
  intros z [<- | []]. apply fle_refl. now inversion H.
Qed.

Lemma page_width_max h blocks :
  blocks <> [] ->
  Forall (fun a => not_nan (bbox2 (h a))) blocks ->
  is_maximum (page_width h blocks) (map (fun a => bbox2 (h a)) blocks).
Proof.
  intros NE H. unfold page_width.
  destruct blocks as [|a l]; [contradiction|]. cbn [map py_max].
  apply py_max_float.
  change (Forall not_nan (map (fun a => bbox2 (h a)) (a :: l))).
  apply Forall_map. exact H.
Qed.

(** *** The classification *)

Lemma set_column_frame h a c a' :
  text (set_column h a c a') = text (h a')
  /\ bbox (set_column h a c a') = bbox (h a')
  /\ page_num (set_column h a c a') = page_num (h a').
Proof.
  unfold set_column. destruct (Nat.eqb_spec a' a) as [-> | N]; cbn; auto.
Qed.

Lemma classified_frame blocks b h a :
  text (classified h blocks b a) = text (h a)
  /\ bbox (classified h blocks b a) = bbox (h a)
  /\ page_num (classified h blocks b a) = page_num (h a).
Proof.
  unfold classified. revert h.
  induction blocks as [|x l IH]; intros h; cbn [fold_left]; [auto|].
  destruct (IH (set_column h x (if flt (bbox0 (h x)) b then 0%Z else 1%Z)))
    as [T [B P]].
  rewrite T, B, P. apply set_column_frame.
Qed.

Lemma classified_other blocks b h a :
  ~ In a blocks -> classified h blocks b a = h a.
Proof.
  unfold classified. revert h.
  induction blocks as [|x l IH]; intros h N; cbn [fold_left]; [reflexivity|].
  rewrite IH by (intros H; apply N; now right).
  unfold set_column. destruct (Nat.eqb_spec a x) as [-> | _]; [|reflexivity].
  exfalso. apply N. now left.
Qed.

Lemma classified_column blocks b h a :
  In a blocks ->
  column (classified h blocks b a) =
  if flt (bbox0 (h a)) b then 0%Z else 1%Z.
Proof.
  revert h. induction blocks as [|x l IH]; intros h H; [contradiction|].
  change (classified h (x :: l) b)
    with (classified (set_column h x (if flt (bbox0 (h x)) b then 0%Z else 1%Z))
                     l b).
  set (h1 := set_column h x _).
  assert (B : bbox0 (h1 a) = bbox0 (h a)).
  { unfold bbox0, h1.
    now rewrite (proj1 (proj2 (set_column_frame h x _ a))). }
  destruct (in_dec Nat.eq_dec a l) as [Hl | Hl].
  - rewrite IH by assumption. now rewrite B.
  - rewrite classified_other by assumption.
    destruct H as [-> | H]; [|contradiction].
    unfold h1, set_column. now rewrite Nat.eqb_refl.
Qed.

Lemma classify_loop blocks b h :
  for_each_do
    (fun block =>
       x <~ read (fun h => bbox0 (h block)) ;;
       if flt x b then write_column block 0 else write_column block 1)
    blocks h
  = (classified h blocks b, Ok tt).
Proof.
  unfold classified. revert h.
  induction blocks as [|x l IH]; intros h; [reflexivity|].
  cbn [for_each_do fold_left]. unfold bindM at 1. unfold bindM at 1.
  unfold read at 1. destruct (flt (bbox0 (h x)) b); unfold write_column at 1;
    apply IH.
Qed.

(** What a call of [detect_columns] on a list that is not empty does. *)
Lemma detect_columns_run blocks h :
  blocks <> [] ->
  detect_columns blocks h =
  match _find_column_boundary (x_positions h blocks) (page_width h blocks) with
  | Ok cb =>
      (classified h blocks
         (match cb with
          | None => (page_width h blocks * 0.5)%float
          | Some b => b
          end),
       Ok blocks)
  | Raise e => (h, Raise e)
  end.
Proof.
  intros NE. destruct blocks as [|a l]; [contradiction|].
  unfold detect_columns, page_width, x_positions.
  set (blocks := a :: l).
  unfold bindM at 1. unfold read at 1.
  unfold bindM at 1. unfold lift at 1.
  change (py_max fgt (map (fun block => bbox2 (h block)) blocks))
    with (Ok (fold_left (fun m y => if fgt y m then y else m)
                        (map (fun block => bbox2 (h block)) l) (bbox2 (h a)))).
  cbv iota. set (pw := fold_left _ _ _).
  unfold bindM at 1. unfold read at 1.
  unfold bindM at 1. unfold lift at 1.
  change (map (fun block => bbox0 (h block)) blocks) with (map (x0 h) blocks).
  destruct (_find_column_boundary (sorted flt (map (x0 h) blocks)) pw)
    as [cb|e]; [|reflexivity].
  unfold bindM at 1. rewrite classify_loop. reflexivity.
Qed.

End Detector.

(** ** The reading-order reconstruction *)

Module Reorder.

Import FloatOrder Keys.

Lemma float_key_order : key_order flt feq not_nan.
Proof.
  constructor.
  - exact feq_refl.
  - exact feq_sym.
  - exact feq_trans.
  - exact flt_irrefl.
  - exact flt_trans.
  - exact flt_total.
  - exact flt_feq_l.
  - exact flt_feq_r.
  - exact flt_not_feq.
Qed.

Lemma Z_key_order : key_order Z.ltb Z.eqb (fun _ => True).
Proof.
  constructor.
  - intros x _. apply Z.eqb_refl.
  - intros x y. rewrite !Z.eqb_eq. congruence.
  - intros x y z. rewrite !Z.eqb_eq. congruence.
  - apply Z.ltb_irrefl.
  - intros x y z. rewrite !Z.ltb_lt. lia.
  - intros x y _ _. rewrite !Z.ltb_lt, Z.eqb_eq. lia.
  - intros x y z. rewrite Z.eqb_eq. now intros ->.
  - intros x y z. rewrite Z.eqb_eq. now intros ->.
  - intros x y. rewrite Z.ltb_lt, Z.eqb_neq. lia.
Qed.

Lemma fold_left_append {A B : Type} (f : B -> list A) l acc :
  fold_left (fun acc y => acc ++ f y) l acc = acc ++ flat_map f l.
Proof.
  revert acc. induction l as [|y l IH]; intros acc; cbn.
  - now rewrite app_nil_r.
  - rewrite IH. now rewrite app_assoc.
Qed.

Lemma fold_left_ext {A B : Type} (f g : A -> B -> A) l acc :
  (forall a b, f a b = g a b) -> fold_left f l acc = fold_left g l acc.
Proof.
  intros H. revert acc. induction l as [|y l IH]; intros acc; cbn.
  - reflexivity.
  - now rewrite H, IH.
Qed.

Lemma interleave_rows h left_blocks right_blocks :
  _interleave_columns h left_blocks right_blocks =
  flat_map (emit_row h left_blocks right_blocks)
           (all_y_coords (y_map h left_blocks) (y_map h right_blocks)).
Proof.
  unfold _interleave_columns.
  rewrite <- (app_nil_l (flat_map _ _)), <- fold_left_append.
  apply fold_left_ext. intros acc y. unfold emit_row, y_map.
  rewrite !(dict_get_key_map flt feq not_nan (y0 h) float_key_order).
  cbn [dict_get].
  destruct (last_with feq (y0 h) left_blocks y),
    (last_with feq (y0 h) right_blocks y); cbn [opt_list];
    rewrite <- ?app_assoc, ?app_nil_r; reflexivity.
Qed.

(** *** Grouping by page *)

Section Pages.
Variable h : heap.

Lemma existsb_false_filter {A : Type} (f : A -> bool) l :
  existsb f l = false -> filter f l = [].
Proof.
  induction l as [|x l IH]; cbn; [reflexivity|].
  destruct (f x); cbn; [discriminate|exact IH].
Qed.

Lemma dict_get_keys_Z {V : Type} (d : @dict Z V) q :
  dict_mem Z.eqb d q = true <-> In q (dict_keys d).
Proof.
  unfold dict_mem, dict_keys.
  induction d as [|[k v] d IH]; cbn; [intuition discriminate|].
  destruct (Z.eqb_spec k q) as [-> | N].
  - intuition.
  - rewrite IH. intuition.
Qed.

(** What [pages] holds once the blocks [l] have been appended. *)
Lemma group_by_page_spec l :
  let pages := group_by_page h l in
  (forall q, dict_get Z.eqb pages q =
             if existsb (on_page h q) l
             then Some (filter (on_page h q) l) else None)
  /\ NoDup (dict_keys pages).
Proof.
  unfold group_by_page.
  induction l as [|a l IH] using rev_ind; cbn zeta.
  - cbn. split; [reflexivity|constructor].
  - rewrite fold_left_app. cbn [fold_left].
    destruct IH as [IH1 IH2].
    set (pages := fold_left (add_to_page h) l []) in *.
    unfold add_to_page. set (pn := page_num (h a)).
    assert (G : pages_getitem
                  (if dict_mem Z.eqb pages pn then pages
                   else dict_set Z.eqb pages pn []) pn
                = filter (on_page h pn) l).
    { unfold pages_getitem, dict_mem.
      destruct (dict_get Z.eqb pages pn) as [v|] eqn:E.
      - rewrite E. rewrite IH1 in E.
        destruct (existsb _ l); congruence.
      - rewrite (dict_get_set Z.ltb Z.eqb _ Z_key_order), Z.eqb_refl.
        rewrite IH1 in E. destruct (existsb _ l) eqn:X; [discriminate|].
        symmetry. now apply existsb_false_filter. }
    rewrite G. split.
    + intros q. rewrite (dict_get_set Z.ltb Z.eqb _ Z_key_order).
      rewrite existsb_app, filter_app. cbn [existsb filter].
      change (on_page h q a) with (Z.eqb pn q).
      destruct (Z.eqb_spec pn q) as [<- | N].
      * rewrite orb_true_l, orb_true_r. reflexivity.
      * rewrite !orb_false_r, app_nil_r.
        destruct (dict_mem Z.eqb pages pn); [apply IH1|].
        rewrite (dict_get_set Z.ltb Z.eqb _ Z_key_order).
        destruct (Z.eqb_spec pn q); [contradiction|apply IH1].
    + rewrite (dict_keys_set Z.eqb).
      destruct (dict_mem Z.eqb pages pn) eqn:M.
      * rewrite M. exact IH2.
      * assert (M' : dict_mem Z.eqb (dict_set Z.eqb pages pn []) pn = true).
        { unfold dict_mem.
          rewrite (dict_get_set Z.ltb Z.eqb _ Z_key_order), Z.eqb_refl.
          reflexivity. }
        rewrite M', (dict_keys_set Z.eqb), M.
        apply NoDup_app.
        -- exact IH2.
        -- constructor; [intros []|constructor].
        -- intros x Hx [<- | []].
           apply dict_get_keys_Z in Hx. congruence.
Qed.

Lemma pages_getitem_spec l q :
  pages_getitem (group_by_page h l) q = filter (on_page h q) l.
Proof.
  unfold pages_getitem. rewrite (proj1 (group_by_page_spec l)).
  destruct (existsb _ l) eqn:E; [reflexivity|].
  symmetry. now apply existsb_false_filter.
Qed.

Lemma page_nums_In l q :
  In q (page_nums h l) <-> exists a, In a l /\ page_num (h a) = q.
Proof.
  unfold page_nums, sorted. rewrite sort_by_In, <- dict_get_keys_Z.
  unfold dict_mem. rewrite (proj1 (group_by_page_spec l)).
  destruct (existsb _ l) eqn:E.
  - apply existsb_exists in E. destruct E as [a [Ha Ea]].
    apply Z.eqb_eq in Ea. split; [eauto|reflexivity].
  - split; [discriminate|]. intros [a [Ha Ea]].
    assert (X : existsb (on_page h q) l = true).
    { apply existsb_exists. exists a. split; [assumption|].
      now apply Z.eqb_eq. }
    congruence.
Qed.

Lemma page_nums_strictly l :
  StronglySorted Z.lt (page_nums h l).
Proof.
  assert (S : strictly_ascending Z.ltb (fun p => p) (page_nums h l)).
  { apply (sort_by_strictly Z.ltb Z.eqb (fun _ => True) _ Z_key_order).
    - apply Forall_forall. trivial.
    - pose proof (proj2 (group_by_page_spec l)) as N. cbn zeta in N.
      unfold distinct_keys. induction N as [|x k Hx Hk IH]; constructor.
      + apply Forall_forall. intros y Hy. apply Z.eqb_neq. congruence.
      + exact IH. }
  unfold strictly_ascending in S.
  induction S as [|x k Hk IH Hx]; constructor; [assumption|].
  eapply Forall_impl; [|exact Hx]. intros y. apply Z.ltb_lt.
Qed.

Lemma reorder_pages l :
  reorder_text_blocks h l =
  flat_map (fun p => reorder_page h (filter (on_page h p) l)) (page_nums h l).
Proof.
  destruct l as [|a l]; [reflexivity|].
  unfold reorder_text_blocks. rewrite fold_left_append. cbn [app].
  apply flat_map_ext. intros p. now rewrite pages_getitem_spec.
Qed.

End Pages.

(** *** The rows of a two-column page *)

Section Rows.
Variables (h : heap) (left_blocks right_blocks : list ref).

Let ys : list float :=
  all_y_coords (y_map h left_blocks) (y_map h right_blocks).

Lemma all_y_coords_from y :
  In y ys -> exists a, In a (left_blocks ++ right_blocks) /\ y0 h a = y.
Proof.
  unfold ys, all_y_coords, sorted. intros H.
  apply (proj1 (sort_by_In _ _ _ _)) in H.
  apply set_union_In in H.
  assert (G : forall l, In y (set_of feq (dict_keys (y_map h l))) ->
                        exists a, In a l /\ y0 h a = y).
  { intros l Hl. apply set_of_In in Hl. unfold y_map in Hl.
    apply (dict_keys_key_map_In feq (y0 h)) in Hl.
    destruct Hl as [[] | Hl]. apply in_map_iff in Hl.
    destruct Hl as [a [E Ha]]. eauto. }
  destruct H as [H | H]; apply G in H; destruct H as [a [Ha E]];
    exists a; (split; [apply in_or_app; auto | assumption]).
Qed.

Hypothesis Hleft : Forall (fun a => not_nan (y0 h a)) left_blocks.
Hypothesis Hright : Forall (fun a => not_nan (y0 h a)) right_blocks.

Lemma all_y_coords_not_nan : Forall not_nan ys.
Proof.
  apply Forall_forall. intros y Hy.
  destruct (all_y_coords_from y Hy) as [a [Ha <-]].
  apply in_app_or in Ha. rewrite Forall_forall in Hleft, Hright.
  destruct Ha; auto.
Qed.

Lemma all_y_coords_covers a :
  In a (left_blocks ++ right_blocks) ->
  exists y, In y ys /\ feq y (y0 h a) = true.
Proof.
  intros Ha.
  assert (G : forall l, Forall (fun a => not_nan (y0 h a)) l -> In a l ->
              exists y, In y (set_of feq (dict_keys (y_map h l)))
                        /\ feq y (y0 h a) = true).
  { intros l Hl Hin. rewrite Forall_forall in Hl.
    destruct (key_map_covers flt feq not_nan (y0 h) float_key_order l a Hin
                (Hl _ Hin)) as [k [Hk Ek]].
    assert (Nk : not_nan k).
    { apply (dict_keys_key_map_In feq (y0 h)) in Hk.
      destruct Hk as [[] | Hk]. apply in_map_iff in Hk.
      destruct Hk as [b [<- Hb]]. auto. }
    destruct (set_of_covers flt feq not_nan float_key_order _ k Hk Nk)
      as [y [Hy Ey]].
    exists y. split; [exact Hy|]. eapply feq_trans; eassumption. }
  unfold ys, all_y_coords, sorted.
  apply in_app_or in Ha. destruct Ha as [Ha | Ha].
  - destruct (G _ Hleft Ha) as [y [Hy Ey]]. exists y. split; [|assumption].
    apply sort_by_In. now apply set_union_incl.
  - destruct (G _ Hright Ha) as [y [Hy Ey]].
    assert (Ny : not_nan y).
    { unfold not_nan. rewrite feq_rank in Ey.
      destruct (is_nan y); [discriminate|reflexivity]. }
    destruct (set_union_covers flt feq not_nan float_key_order
                _ (set_of feq (dict_keys (y_map h left_blocks))) y Hy Ny)
      as [y' [Hy' Ey']].
    exists y'. split; [now apply sort_by_In|].
    eapply feq_trans; eassumption.
Qed.

Lemma all_y_coords_strictly : strictly_ascending flt (fun y => y) ys.
Proof.
  pose proof all_y_coords_not_nan as N. unfold ys, all_y_coords, sorted in *.
  apply (sort_by_strictly flt feq not_nan (fun y => y) float_key_order).
  - rewrite Forall_forall in *. intros y Hy. apply N.
    now apply sort_by_In.
  - apply set_union_distinct, set_of_distinct.
Qed.

End Rows.

(** *** Pages in the output *)

Lemma interleave_In h l r a :
  In a (_interleave_columns h l r) -> In a (l ++ r).
Proof.
  rewrite interleave_rows. intros H. apply in_flat_map in H.
  destruct H as [y [_ H]]. unfold emit_row in H.
  apply in_app_or in H. apply in_or_app.
  destruct H as [H | H]; [left | right];
    (destruct (last_with _ _ _ y) as [b|] eqn:E; [|contradiction]);
    destruct H as [<- | []]; now apply last_with_Some in E.
Qed.

Lemma reorder_page_In h l a : In a (reorder_page h l) -> In a l.
Proof.
  unfold reorder_page.
  set (s := sort_by flt (fun b => bbox1 (h b)) l).
  assert (S : forall b, In b s -> In b l) by (intros b; apply sort_by_In).
  destruct (filter _ s) as [|x lf] eqn:L; [now auto|].
  destruct (filter (fun b => (column (h b) =? 1)%Z) s) as [|z rt] eqn:R;
    [now auto|].
  intros H. apply interleave_In in H. apply S.
  apply in_app_or in H. destruct H as [H | H].
  - rewrite <- L in H. now apply filter_In in H.
  - rewrite <- R in H. now apply filter_In in H.
Qed.

Lemma filter_flat_map {A B : Type} (f : A -> bool) (g : B -> list A) l :
  filter f (flat_map g l) = flat_map (fun x => filter f (g x)) l.
Proof.
  induction l as [|x l IH]; cbn; [reflexivity|].
  now rewrite filter_app, IH.
Qed.

Lemma filter_all {A : Type} (f : A -> bool) l :
  (forall a, In a l -> f a = true) -> filter f l = l.
Proof.
  induction l as [|x l IH]; intros H; cbn; [reflexivity|].
  rewrite (H x) by now left. f_equal. apply IH. intros a Ha. apply H. now right.
Qed.

Lemma filter_none {A : Type} (f : A -> bool) l :
  (forall a, In a l -> f a = false) -> filter f l = [].
Proof.
  induction l as [|x l IH]; intros H; cbn; [reflexivity|].
  rewrite (H x) by now left. apply IH. intros a Ha. apply H. now right.
Qed.

Lemma flat_map_select {A : Type} (X : Z -> list A) p l :
  NoDup l ->
  flat_map (fun q => if (q =? p)%Z then X q else []) l =
  if existsb (Z.eqb p) l then X p else [].
Proof.
  induction 1 as [|q l Hq Hl IH]; cbn; [reflexivity|].
  rewrite IH. rewrite (Z.eqb_sym p q).
  destruct (Z.eqb_spec q p) as [-> | N]; cbn; [|reflexivity].
  destruct (existsb (Z.eqb p) l) eqn:E; [|now rewrite app_nil_r].
  apply existsb_exists in E. destruct E as [x [Hx Ex]].
  apply Z.eqb_eq in Ex. subst x. contradiction.
Qed.

Lemma strictly_sorted_NoDup l : StronglySorted Z.lt l -> NoDup l.
Proof.
  induction 1 as [|x l Hl IH Hx]; constructor; [|assumption].
  intros Hin. rewrite Forall_forall in Hx. specialize (Hx _ Hin). lia.
Qed.

(** The part of the output that belongs to page [p] is what the loop body
    made of the blocks of page [p]. *)
Lemma reorder_page_segment h blocks p :
  filter (on_page h p) (reorder_text_blocks h blocks) =
  reorder_page h (filter (on_page h p) blocks).
Proof.
  rewrite reorder_pages, filter_flat_map.
  rewrite (flat_map_ext _
             (fun q => if (q =? p)%Z
                       then reorder_page h (filter (on_page h q) blocks)
                       else [])).
  - rewrite flat_map_select
      by apply strictly_sorted_NoDup, page_nums_strictly.
    destruct (existsb (Z.eqb p) (page_nums h blocks)) eqn:E; [reflexivity|].
    rewrite (filter_none (on_page h p) blocks); [reflexivity|].
    intros a Ha. unfold on_page. apply Z.eqb_neq. intros Hp.
    assert (X : existsb (Z.eqb p) (page_nums h blocks) = true).
    { apply existsb_exists. exists p. split; [|apply Z.eqb_refl].
      apply page_nums_In. eauto. }
    congruence.
  - intros q.
    assert (Q : forall a, In a (reorder_page h (filter (on_page h q) blocks))
                          -> page_num (h a) = q).
    { intros a Ha. apply reorder_page_In, filter_In in Ha.
      now apply Z.eqb_eq. }
    destruct (Z.eqb_spec q p) as [-> | N].
    + apply filter_all. intros a Ha. apply Z.eqb_eq. auto.
    + apply filter_none. intros a Ha. apply Z.eqb_neq.
      rewrite (Q a Ha). assumption.
Qed.

Lemma filter_sort_nil h (f : ref -> bool) l :
  filter f l = [] -> filter f (sort_by flt (y0 h) l) = [].
Proof.
  intros H. apply filter_none. intros a Ha. apply sort_by_In in Ha.
  destruct (f a) eqn:E; [|reflexivity].
  assert (X : In a (filter f l)) by (apply filter_In; auto).
  rewrite H in X. contradiction.
Qed.

Lemma reorder_page_single h l :
  filter (in_column h 0) l = [] \/ filter (in_column h 1) l = [] ->
  reorder_page h l = sort_by flt (y0 h) l.
Proof.
  intros H. unfold reorder_page.
  change (fun b => bbox1 (h b)) with (y0 h).
  change (fun b => (column (h b) =? 0)%Z) with (in_column h 0).
  change (fun b => (column (h b) =? 1)%Z) with (in_column h 1).
  destruct H as [H | H]; rewrite (filter_sort_nil h _ l H).
  - reflexivity.
  - destruct (filter (in_column h 0) _); reflexivity.
Qed.

Lemma reorder_page_two h l :
  let page_blocks := sort_by flt (y0 h) l in
  let left_blocks := filter (in_column h 0) page_blocks in
  let right_blocks := filter (in_column h 1) page_blocks in
  left_blocks <> [] -> right_blocks <> [] ->
  reorder_page h l = _interleave_columns h left_blocks right_blocks.
Proof.
  cbn zeta. intros HL HR. unfold reorder_page.
  change (fun b => bbox1 (h b)) with (y0 h).
  change (fun b => (column (h b) =? 0)%Z) with (in_column h 0).
  change (fun b => (column (h b) =? 1)%Z) with (in_column h 1).
  destruct (filter (in_column h 0) _); [contradiction|].
  destruct (filter (in_column h 1) _); [contradiction|].
  reflexivity.
Qed.

Lemma strictly_distinct {A K : Type} (ltb eqb : K -> K -> bool) ok
  (key : A -> K) l :
  key_order ltb eqb ok ->
  strictly_ascending ltb key l -> distinct_keys eqb key l.
Proof.
  intros KO. unfold strictly_ascending, distinct_keys.
  induction 1 as [|x l Hl IH Hx]; constructor; [|assumption].
  eapply Forall_impl; [|exact Hx]. intros a. apply (ko_lt_neq _ _ _ KO).
Qed.

Lemma flat_map_app_perm {A B : Type} (f g : B -> list A) l :
  Permutation (flat_map (fun y => f y ++ g y) l)
              (flat_map f l ++ flat_map g l).
Proof.
  induction l as [|y l IH]; cbn; [constructor|].
  rewrite IH, <- !app_assoc. apply Permutation_app_head.
  rewrite !app_assoc. apply Permutation_app_tail, Permutation_app_comm.
Qed.

(** With distinct keys on one side, the rows emit each block of that side
    once. *)
Lemma emit_side_perm h l ys :
  Forall (fun a => not_nan (y0 h a)) l ->
  distinct_keys feq (y0 h) l ->
  distinct_keys feq (fun y => y) ys ->
  (forall a, In a l -> exists y, In y ys /\ feq y (y0 h a) = true) ->
  Permutation l (flat_map (fun y => opt_list (last_with feq (y0 h) l y)) ys).
Proof.
  intros Hok Hd Hys Hcov.
  apply NoDup_Permutation.
  - now apply (distinct_keys_NoDup flt feq not_nan (y0 h) float_key_order).
  - clear Hcov. unfold distinct_keys in Hys.
    induction Hys as [|y ys Hy Hys IH]; cbn; [constructor|].
    destruct (last_with feq (y0 h) l y) as [a|] eqn:E; cbn; [|exact IH].
    constructor; [|exact IH].
    intros Hin. apply in_flat_map in Hin. destruct Hin as [y' [Hy' Hin]].
    destruct (last_with feq (y0 h) l y') as [b|] eqn:E'; [|contradiction].
    destruct Hin as [-> | []].
    apply last_with_Some in E, E'. destruct E as [_ E], E' as [_ E'].
    rewrite Forall_forall in Hy. specialize (Hy _ Hy'). cbv beta in Hy.
    apply feq_sym in E. pose proof (feq_trans _ _ _ E E') as T. congruence.
  - intros a. split.
    + intros Ha. destruct (Hcov a Ha) as [y [Hy Ey]].
      apply in_flat_map. exists y. split; [assumption|].
      rewrite Forall_forall in Hok.
      destruct (last_with feq (y0 h) l y) as [b|] eqn:E.
      * left. apply last_with_Some in E. destruct E as [Hb Eb].
        apply (distinct_keys_eq flt feq not_nan (y0 h) float_key_order l);
          auto.
        eapply feq_trans; eassumption.
      * unfold last_with in E. apply in_rev in Ha.
        apply (find_none _ _ E) in Ha. cbv beta in Ha.
        apply feq_sym in Ey. congruence.
    + intros Ha. apply in_flat_map in Ha. destruct Ha as [y [_ Ha]].
      destruct (last_with feq (y0 h) l y) as [b|] eqn:E; [|contradiction].
      destruct Ha as [<- | []]. now apply last_with_Some in E.
Qed.

Lemma distinct_keys_perm {A K : Type} (eqb : K -> K -> bool) (key : A -> K)
  l l' :
  (forall x y, eqb x y = true -> eqb y x = true) ->
  Permutation l l' -> distinct_keys eqb key l -> distinct_keys eqb key l'.
Proof.
  intros Hsym. unfold distinct_keys.
  induction 1 as [|x l l' P IH|x y l|l l' l'' P1 IH1 P2 IH2]; intros H.
  - assumption.
  - inversion H as [|? ? Hx Hl]; subst. constructor; [|now apply IH].
    eapply Permutation_Forall; eassumption.
  - inversion H as [|? ? Hy Hl]; subst.
    inversion Hy as [|? ? Hyx Hy']; subst.
    inversion Hl as [|? ? Hx Hl']; subst.
    constructor; [|constructor; assumption].
    constructor; [|assumption].
    destruct (eqb (key x) (key y)) eqn:E; [|reflexivity].
    apply Hsym in E. congruence.
  - auto.
Qed.

Lemma Permutation_filter {A : Type} (f : A -> bool) l l' :
  Permutation l l' -> Permutation (filter f l) (filter f l').
Proof.
  induction 1 as [|x l l' P IH|x y l|l l' l'' P1 IH1 P2 IH2]; cbn.
  - constructor.
  - destruct (f x); [now constructor|assumption].
  - destruct (f x), (f y); try reflexivity. apply perm_swap.
  - etransitivity; eassumption.
Qed.

Lemma filter_split_perm {A : Type} (f g : A -> bool) l :
  (forall a, In a l -> f a = negb (g a)) ->
  Permutation l (filter f l ++ filter g l).
Proof.
  induction l as [|x l IH]; intros H; cbn; [constructor|].
  assert (IH' : Permutation l (filter f l ++ filter g l)).
  { apply IH. intros a Ha. apply H. now right. }
  rewrite (H x) by now left. destruct (g x); cbn.
  - rewrite <- Permutation_middle. now constructor.
  - now constructor.
Qed.

(** The merge of a left and a right list whose top edges are pairwise
    different on each side is a rearrangement of the two lists; a block that
    a later block of its side follows at the same height does not come out. *)
Lemma interleave_columns_blocks (h : heap)
  (left_blocks right_blocks : list ref) :
  Forall (fun a => not_nan (y0 h a)) left_blocks ->
  Forall (fun a => not_nan (y0 h a)) right_blocks ->
  (distinct_keys feq (y0 h) left_blocks ->
   distinct_keys feq (y0 h) right_blocks ->
   Permutation (left_blocks ++ right_blocks)
               (_interleave_columns h left_blocks right_blocks))
  /\ (forall l1 a l2 b,
        NoDup (left_blocks ++ right_blocks) ->
        left_blocks = l1 ++ a :: l2 \/ right_blocks = l1 ++ a :: l2 ->
        In b l2 -> feq (y0 h b) (y0 h a) = true ->
        ~ In a (_interleave_columns h left_blocks right_blocks)).
Proof.
  intros HL HR. rewrite interleave_rows.
  set (ys := all_y_coords (y_map h left_blocks) (y_map h right_blocks)).
  split.
  - intros DL DR. unfold emit_row.
    rewrite flat_map_app_perm.
    assert (Dys : distinct_keys feq (fun y => y) ys).
    { apply (strictly_distinct flt feq not_nan _ _ float_key_order).
      now apply all_y_coords_strictly. }
    apply Permutation_app.
    + apply emit_side_perm; auto.
      intros a Ha. apply all_y_coords_covers; auto.
      apply in_or_app. now left.
    + apply emit_side_perm; auto.
      intros a Ha. apply all_y_coords_covers; auto.
      apply in_or_app. now right.
  - intros l1 a l2 b ND Hside Hb E Hin.
    apply in_flat_map in Hin. destruct Hin as [y [_ Hin]].
    unfold emit_row in Hin. apply in_app_or in Hin.
    destruct Hside as [-> | ->].
    + destruct Hin as [Hin | Hin].
      * destruct (last_with feq (y0 h) (l1 ++ a :: l2) y) as [c|] eqn:L;
          [|contradiction].
        destruct Hin as [-> | []]. revert L.
        apply (last_with_shadowed flt feq not_nan (y0 h) float_key_order
                 l1 a l2 b y Hb E).
        apply NoDup_app_remove_r, NoDup_remove_2 in ND.
        intros X. apply ND. apply in_or_app. now right.
      * destruct (last_with feq (y0 h) right_blocks y) as [c|] eqn:L;
          [|contradiction].
        destruct Hin as [-> | []]. apply last_with_Some in L.
        rewrite <- app_assoc in ND. apply NoDup_remove_2 in ND.
        apply ND. apply in_or_app. right. apply in_or_app. right. apply L.
    + destruct Hin as [Hin | Hin].
      * destruct (last_with feq (y0 h) left_blocks y) as [c|] eqn:L;
          [|contradiction].
        destruct Hin as [-> | []]. apply last_with_Some in L.
        rewrite app_assoc in ND. apply NoDup_remove_2 in ND.
        apply ND. apply in_or_app. left. apply in_or_app. left. apply L.
      * destruct (last_with feq (y0 h) (l1 ++ a :: l2) y) as [c|] eqn:L;
          [|contradiction].
        destruct Hin as [-> | []]. revert L.
        apply (last_with_shadowed flt feq not_nan (y0 h) float_key_order
                 l1 a l2 b y Hb E).
        apply NoDup_app_remove_l, NoDup_remove_2 in ND.
        intros X. apply ND. apply in_or_app. now right.
Qed.

Lemma flat_map_pages_sorted {A : Type} (pg : A -> Z) (seg : Z -> list A) l :
  StronglySorted Z.lt l ->
  (forall p a, In a (seg p) -> pg a = p) ->
  StronglySorted Z.le (map pg (flat_map seg l)).
Proof.
  intros S Hseg. induction S as [|p l Hl IH Hp]; cbn; [constructor|].
  rewrite map_app.
  assert (Hs : forall a, In a (seg p) -> pg a = p) by (intros; eauto).
  assert (Hr : Forall (fun z => (p <= z)%Z) (map pg (flat_map seg l))).
  { apply Forall_forall. intros z Hz. apply in_map_iff in Hz.
    destruct Hz as [a [<- Ha]]. apply in_flat_map in Ha.
    destruct Ha as [q [Hq Ha]]. rewrite (Hseg q a Ha).
    rewrite Forall_forall in Hp. specialize (Hp _ Hq). lia. }
  induction (seg p) as [|a s IHs]; cbn; [assumption|].
  constructor.
  - apply IHs. intros b Hb. apply Hs. now right.
  - apply Forall_app. split.
    + apply Forall_forall. intros z Hz. apply in_map_iff in Hz.
      destruct Hz as [b [<- Hb]]. rewrite (Hs a), (Hs b); cbn; auto. lia.
    + rewrite (Hs a) by now left. exact Hr.
Qed.

End Reorder.

(** ** The text normaliser *)

Module Clean.

(** *** Stripping *)

Lemma lstrip_suffix s : exists a, s = a ++ lstrip s.
Proof.
  induction s as [|c s [a IH]]; [now exists []|]. cbn.
  destruct (isspace c).
  - exists (c :: a). cbn. now f_equal.
  - now exists [].
Qed.

Lemma lstrip_solid s : starts_solid (lstrip s).
Proof.
  induction s as [|c s IH]; cbn; [exact I|].
  destruct (isspace c) eqn:E; [exact IH|exact E].
Qed.

Lemma lstrip_fix s : starts_solid s -> lstrip s = s.
Proof.
  destruct s as [|c s]; cbn; [reflexivity|]. now intros ->.
Qed.

Lemma rstrip_prefix s : exists b, s = rstrip s ++ b.
Proof.
  unfold rstrip. destruct (lstrip_suffix (rev s)) as [a H].
  exists (rev a). rewrite <- rev_app_distr, <- H. now rewrite rev_involutive.
Qed.

Lemma starts_solid_prefix a b :
  starts_solid (a ++ b) -> starts_solid a.
Proof. destruct a; cbn; auto. Qed.

Lemma strip_solid s : starts_solid (strip s).
Proof.
  unfold strip. destruct (rstrip_prefix (lstrip s)) as [b H].
  apply (starts_solid_prefix _ b). rewrite <- H. apply lstrip_solid.
Qed.

Lemma strip_strip s : strip (strip s) = strip s.
Proof.
  unfold strip at 1. rewrite (lstrip_fix (strip s)) by apply strip_solid.
  unfold strip, rstrip. rewrite rev_involutive.
  now rewrite (lstrip_fix (lstrip _)) by apply lstrip_solid.
Qed.

(** A stripped text is a piece of the text. *)
Lemma strip_piece s : exists a b, s = a ++ strip s ++ b.
Proof.
  unfold strip. destruct (lstrip_suffix s) as [a Ha].
  destruct (rstrip_prefix (lstrip s)) as [b Hb].
  exists a, b. now rewrite <- Hb.
Qed.

(** *** Tidy texts *)

Lemma tidy_app_l a b : tidy (a ++ b) -> tidy a.
Proof.
  induction a as [|c a IH]; cbn; [trivial|].
  intros [T [B H]]. repeat split; auto.
  intros Hc. specialize (B Hc). destruct a; [reflexivity|exact B].
Qed.

Lemma tidy_app_r a b : tidy (a ++ b) -> tidy b.
Proof.
  induction a as [|c a IH]; cbn; [trivial|]. intros [_ [_ H]]. auto.
Qed.

Lemma tidy_piece a s b : tidy (a ++ s ++ b) -> tidy s.
Proof. intros H. apply tidy_app_r in H. now apply tidy_app_l in H. Qed.

Lemma tidy_app a c b :
  tidy a -> blank c = false -> tidy (c :: b) -> tidy (a ++ c :: b).
Proof.
  intros Ha Hc Hb. induction a as [|x a IH]; cbn; [exact Hb|].
  destruct Ha as [T [B H]]. repeat split; auto.
  intros Hx. destruct a; [exact Hc|now apply B].
Qed.

(** *** Lines *)

Lemma split_nonempty sep s : split sep s <> [].
Proof.
  destruct s as [|c s]; cbn; [discriminate|].
  destruct (c =? sep)%N; [discriminate|].
  destruct (split sep s); discriminate.
Qed.

Lemma split_head sep s l ls :
  split sep s = l :: ls -> exists b, s = l ++ b.
Proof.
  revert l ls. induction s as [|c s IH]; intros l ls; cbn.
  - intros [= <- <-]. now exists [].
  - destruct (c =? sep)%N.
    + intros [= <- <-]. now exists (c :: s).
    + destruct (split sep s) as [|l0 ls0] eqn:E.
      * intros [= <- <-]. exists s. reflexivity.
      * intros [= <- <-]. destruct (IH _ _ eq_refl) as [b ->].
        now exists b.
Qed.

Lemma split_piece sep s l :
  In l (split sep s) -> exists a b, s = a ++ l ++ b.
Proof.
  revert l. induction s as [|c s IH]; intros l; cbn.
  - intros [<- | []]. now exists [], [].
  - destruct (c =? sep)%N.
    + intros [<- | H].
      * now exists [], (c :: s).
      * destruct (IH _ H) as [a [b ->]]. now exists (c :: a), b.
    + destruct (split sep s) as [|l0 ls0] eqn:E.
      * intros [<- | []]. exists [], s. reflexivity.
      * intros [<- | H].
        -- destruct (split_head _ _ _ _ E) as [b ->]. now exists [], b.
        -- destruct (IH l (or_intror H)) as [a [b ->]].
           now exists (c :: a), b.
Qed.

Lemma split_no_sep sep s l : In l (split sep s) -> ~ In sep l.
Proof.
  revert l. induction s as [|c s IH]; intros l; cbn.
  - intros [<- | []]. auto.
  - destruct (N.eqb_spec c sep) as [-> | N].
    + intros [<- | H]; auto.
    + destruct (split sep s) as [|l0 ls0] eqn:E.
      * intros [<- | []]. intros [-> | []]. contradiction.
      * intros [<- | H].
        -- intros [-> | H]; [contradiction|].
           now apply (IH l0 (or_introl eq_refl)).
        -- apply IH. now right.
Qed.

Lemma split_join ls :
  ls <> [] -> Forall (fun l => ~ In LF l) ls ->
  split LF (join [LF] ls) = ls.
Proof.
  induction ls as [|l ls IH]; [contradiction|]. intros _ H.
  inversion H as [|? ? Hl Hls]; subst.
  assert (G : forall rest, split LF (l ++ LF :: rest) = l :: split LF rest).
  { clear -Hl. induction l as [|c l IHl]; intros rest; cbn.
    - reflexivity.
    - destruct (N.eqb_spec c LF) as [-> | N]; [exfalso; apply Hl; now left|].
      rewrite IHl by (intros X; apply Hl; now right). reflexivity. }
  destruct ls as [|l' ls].
  - cbn [join]. clear IH G H Hls.
    induction l as [|c l IHl]; cbn; [reflexivity|].
    destruct (N.eqb_spec c LF) as [-> | N]; [exfalso; apply Hl; now left|].
    rewrite IHl by (intros X; apply Hl; now right). reflexivity.
  - change (join [LF] (l :: l' :: ls))
      with (l ++ LF :: join [LF] (l' :: ls)).
    rewrite G, IH by (discriminate || assumption). reflexivity.
Qed.


(** *** The three substitutions *)

(** The pattern of the blank lines, [\n\s*\n\s*\n]. *)
Local Abbreviation blank_lines :=
  [Chr LF; Star isspace; Chr LF; Star isspace; Chr LF].

Lemma isspace_LF : isspace LF = true.
Proof. reflexivity. Qed.

Lemma isspace_SP : isspace SP = true.
Proof. reflexivity. Qed.

Lemma blank_cases c : blank c = true -> c = SP \/ c = TAB.
Proof.
  unfold blank. intros H. apply orb_prop in H.
  destruct H as [H | H]; apply N.eqb_eq in H; auto.
Qed.

Lemma blank_lines_no_match pos s :
  solid_after_lf s -> match_here blank_lines pos s = None.
Proof.
  destruct s as [|c s]; [reflexivity|]. cbn [solid_after_lf match_here].
  intros [H _]. destruct (N.eqb_spec c LF) as [-> | N]; [|reflexivity].
  specialize (H eq_refl). destruct s as [|c' s]; [contradiction|].
  cbn [greedy]. rewrite H. cbn [match_here].
  destruct (N.eqb_spec c' LF) as [-> | N']; [|reflexivity].
  rewrite isspace_LF in H. discriminate.
Qed.

Lemma lf_space_no_match pos s :
  solid_after_lf s -> match_here [Chr LF; Chr SP] pos s = None.
Proof.
  destruct s as [|c s]; [reflexivity|]. cbn [solid_after_lf match_here].
  intros [H _]. destruct (N.eqb_spec c LF) as [-> | N]; [|reflexivity].
  specialize (H eq_refl). destruct s as [|c' s]; [contradiction|].
  destruct (N.eqb_spec c' SP) as [-> | N']; [|reflexivity].
  rewrite isspace_SP in H. discriminate.
Qed.

(** Where the pattern matches nowhere, [re.sub] changes nothing. *)
Lemma sub_scan_fix (p : pattern) repl (P : str -> Prop) :
  (forall c s, P (c :: s) -> P s) ->
  (forall pos s, P s -> match_here p pos s = None) ->
  forall s pos, P s -> sub_scan p repl pos 0 s = s.
Proof.
  intros Htl Hno. induction s as [|c s IH]; intros pos H; cbn [sub_scan].
  - now rewrite Hno.
  - rewrite Hno by assumption. f_equal. apply IH. eapply Htl, H.
Qed.

Lemma solid_after_lf_tail c s : solid_after_lf (c :: s) -> solid_after_lf s.
Proof. cbn. tauto. Qed.

Lemma sub_blank_lines_fix s :
  solid_after_lf s -> re_sub blank_lines [LF; LF] s = s.
Proof.
  apply (sub_scan_fix _ _ solid_after_lf).
  - exact solid_after_lf_tail.
  - intros pos t. apply blank_lines_no_match.
Qed.

Lemma sub_lf_space_fix s :
  solid_after_lf s -> re_sub [Chr LF; Chr SP] [LF] s = s.
Proof.
  apply (sub_scan_fix _ _ solid_after_lf).
  - exact solid_after_lf_tail.
  - intros pos t. apply lf_space_no_match.
Qed.

Lemma greedy_blank pos s :
  greedy blank (match_here []) pos s = Some (blank_run s).
Proof.
  revert pos. induction s as [|c s IH]; intros pos; cbn; [reflexivity|].
  destruct (blank c); [|reflexivity]. now rewrite IH.
Qed.

Lemma match_blanks pos s :
  match_here [Plus blank] pos s =
  match s with
  | [] => None
  | c :: s' => if blank c then Some (S (blank_run s')) else None
  end.
Proof.
  destruct s as [|c s]; [reflexivity|]. cbn [match_here].
  destruct (blank c); [|reflexivity]. now rewrite greedy_blank.
Qed.

Lemma blank_run_0 s : starts_blank s = false -> blank_run s = 0%nat.
Proof. destruct s as [|c s]; cbn; [reflexivity|]. now intros ->. Qed.

Lemma sub_blanks_fix s : tidy s -> re_sub [Plus blank] [SP] s = s.
Proof.
  unfold re_sub. generalize 0%nat at 1.
  induction s as [|c s IH]; intros pos H; cbn [sub_scan].
  - reflexivity.
  - rewrite match_blanks. destruct H as [T [B H]].
    destruct (blank c) eqn:E.
    + rewrite (blank_run_0 s (B eq_refl)). cbn [app].
      destruct (blank_cases c E) as [-> | ->]; [|contradiction].
      f_equal. now apply IH.
    + f_equal. now apply IH.
Qed.

(** Skipping the rest of a match. *)
Lemma sub_scan_skip (p : pattern) repl n s pos :
  (n <= length s)%nat ->
  sub_scan p repl pos n s = sub_scan p repl (pos + n) 0 (skipn n s).
Proof.
  revert s pos. induction n as [|n IH]; intros s pos H.
  - now rewrite Nat.add_0_r.
  - destruct s as [|c s]; [cbn in H; lia|]. cbn [sub_scan skipn].
    rewrite IH by (cbn in H; lia). f_equal. lia.
Qed.

Lemma blank_run_le s : (blank_run s <= length s)%nat.
Proof.
  induction s as [|c s IH]; cbn; [lia|]. destruct (blank c); lia.
Qed.

Lemma blank_run_skip s : starts_blank (skipn (blank_run s) s) = false.
Proof.
  induction s as [|c s IH]; cbn; [reflexivity|].
  destruct (blank c) eqn:E; [exact IH|]. cbn. exact E.
Qed.

Lemma not_blank_not_tab c : blank c = false -> c <> TAB.
Proof. intros H ->. discriminate. Qed.

(** The text after the runs of blanks were replaced is tidy. *)
Lemma sub_blanks_tidy_aux n :
  forall s pos, (length s <= n)%nat ->
    tidy (sub_scan [Plus blank] [SP] pos 0 s)
    /\ (starts_blank s = false ->
        starts_blank (sub_scan [Plus blank] [SP] pos 0 s) = false).
Proof.
  induction n as [|n IH]; intros s pos L.
  - destruct s; [|cbn in L; lia]. cbn. auto.
  - destruct s as [|c s]; [cbn; auto|]. cbn [sub_scan].
    rewrite match_blanks. destruct (blank c) eqn:E.
    + rewrite sub_scan_skip by apply blank_run_le. cbn [app].
      pose proof (blank_run_le s) as Le.
      destruct (IH (skipn (blank_run s) s) (S pos + blank_run s)%nat) as [T B].
      { rewrite length_skipn. cbn in L. lia. }
      split; [|cbn; congruence].
      cbn [tidy]. repeat split.
      * discriminate.
      * intros _. apply B, blank_run_skip.
      * exact T.
    + destruct (IH s (S pos)) as [T B]; [cbn in L; lia|].
      split; [|intros _; exact E].
      cbn [tidy]. repeat split.
      * now apply not_blank_not_tab.
      * congruence.
      * exact T.
Qed.

Lemma sub_blanks_tidy s : tidy (re_sub [Plus blank] [SP] s).
Proof. apply (sub_blanks_tidy_aux (length s)). lia. Qed.

Lemma match_lf_space pos s :
  match_here [Chr LF; Chr SP] pos s =
  match s with
  | c :: c' :: _ => if ((c =? LF) && (c' =? SP))%N then Some 2%nat else None
  | _ => None
  end.
Proof.
  destruct s as [|c [|c' s]]; cbn; try reflexivity.
  - destruct (c =? LF)%N; reflexivity.
  - destruct (c =? LF)%N; [|reflexivity]. cbn.
    destruct (c' =? SP)%N; reflexivity.
Qed.

(** Taking out the blank after a line feed keeps the text tidy. *)
Lemma sub_lf_space_tidy_aux n :
  forall s pos, (length s <= n)%nat -> tidy s ->
    tidy (sub_scan [Chr LF; Chr SP] [LF] pos 0 s)
    /\ (starts_blank s = false ->
        starts_blank (sub_scan [Chr LF; Chr SP] [LF] pos 0 s) = false).
Proof.
  induction n as [|n IH]; intros s pos L T.
  - destruct s; [|cbn in L; lia]. cbn. auto.
  - destruct s as [|c s]; [cbn; auto|]. cbn [sub_scan].
    rewrite match_lf_space. destruct T as [Tc [Bc T]].
    assert (Plain :
              tidy (c :: sub_scan [Chr LF; Chr SP] [LF] (S pos) 0 s)
              /\ (starts_blank (c :: s) = false ->
                  starts_blank
                    (c :: sub_scan [Chr LF; Chr SP] [LF] (S pos) 0 s) = false)).
    { destruct (IH s (S pos)) as [T' B']; [cbn in L; lia|exact T|].
      split; [|trivial]. cbn [tidy]. repeat split; auto. }
    destruct s as [|c' s]; [exact Plain|].
    destruct ((c =? LF) && (c' =? SP))%N eqn:E; [|exact Plain].
    apply andb_prop in E. destruct E as [E1 E2].
    apply N.eqb_eq in E1, E2. subst c c'.
    cbn [app sub_scan]. destruct T as [_ [B' T]].
    destruct (IH s (S (S pos))) as [T' B'']; [cbn in L; lia|exact T|].
    split; [|reflexivity]. cbn [tidy]. repeat split.
    + discriminate.
    + discriminate.
    + exact T'.
Qed.

Lemma sub_lf_space_tidy s : tidy s -> tidy (re_sub [Chr LF; Chr SP] [LF] s).
Proof. intros T. apply (sub_lf_space_tidy_aux (length s)); [lia|exact T]. Qed.


(** *** The lines that come out *)

Section Lines.
Variable unicode_decimal : N -> bool.

Lemma keep_line_clean acc line :
  tidy line -> ~ In LF line ->
  Forall (clean_line unicode_decimal) acc ->
  Forall (clean_line unicode_decimal) (keep_line unicode_decimal acc line).
Proof.
  intros T NL H. unfold keep_line.
  destruct (strip line) as [|c l] eqn:E; [exact H|]. rewrite <- E.
  destruct (re_match _ (strip line) || re_match _ (strip line)) eqn:D;
    [exact H|].
  destruct (Nat.ltb_spec (length (strip line)) 3) as [Lt | Ge]; [exact H|].
  apply Forall_app. split; [exact H|]. constructor; [|constructor].
  destruct (strip_piece line) as [a [b P]].
  unfold clean_line. repeat split.
  - apply strip_strip.
  - rewrite E. discriminate.
  - intros X. apply NL. rewrite P. apply in_or_app. right.
    apply in_or_app. now left.
  - apply (tidy_piece a _ b). now rewrite <- P.
  - exact D.
  - exact Ge.
Qed.

Lemma keep_lines_clean lines acc :
  Forall (fun l => tidy l /\ ~ In LF l) lines ->
  Forall (clean_line unicode_decimal) acc ->
  Forall (clean_line unicode_decimal)
         (fold_left (keep_line unicode_decimal) lines acc).
Proof.
  revert acc. induction lines as [|l lines IH]; intros acc H A; cbn.
  - exact A.
  - inversion H as [|? ? [T NL] Hl]; subst.
    apply IH; [exact Hl|]. now apply keep_line_clean.
Qed.

Lemma split_tidy s :
  tidy s -> Forall (fun l => tidy l /\ ~ In LF l) (split LF s).
Proof.
  intros T. apply Forall_forall. intros l Hl. split.
  - destruct (split_piece _ _ _ Hl) as [a [b P]].
    apply (tidy_piece a _ b). now rewrite <- P.
  - now apply (split_no_sep LF s).
Qed.

Lemma keep_lines_fix lines acc :
  Forall (clean_line unicode_decimal) lines ->
  fold_left (keep_line unicode_decimal) lines acc = acc ++ lines.
Proof.
  revert acc. induction lines as [|l lines IH]; intros acc H; cbn [fold_left].
  - now rewrite app_nil_r.
  - inversion H as [|? ? Hl Hls]; subst.
    destruct Hl as [S [NE [_ [_ [D L]]]]].
    assert (K : keep_line unicode_decimal acc l = acc ++ [l]).
    { unfold keep_line. rewrite S. destruct l as [|c l]; [contradiction|].
      rewrite D. destruct (Nat.ltb_spec (length (c :: l)) 3); [lia|].
      reflexivity. }
    rewrite K, IH by assumption. now rewrite <- app_assoc.
Qed.

Lemma clean_line_solid l :
  clean_line unicode_decimal l -> starts_solid l /\ l <> [].
Proof.
  intros [S [NE _]]. split; [|exact NE]. rewrite <- S. apply strip_solid.
Qed.

Lemma join_cons l l' ls :
  join [LF] (l :: l' :: ls) = l ++ LF :: join [LF] (l' :: ls).
Proof. reflexivity. Qed.

Lemma join_solid l ls :
  Forall (clean_line unicode_decimal) (l :: ls) ->
  starts_solid (join [LF] (l :: ls)) /\ join [LF] (l :: ls) <> [].
Proof.
  intros H. inversion H as [|? ? Hl _]; subst.
  destruct (clean_line_solid l Hl) as [S NE].
  destruct l as [|c l]; [contradiction|].
  destruct ls; cbn; split; (exact S || discriminate).
Qed.

Lemma join_tidy ls :
  Forall (clean_line unicode_decimal) ls -> tidy (join [LF] ls).
Proof.
  induction ls as [|l ls IH]; intros H; [exact I|].
  inversion H as [|? ? Hl Hls]; subst.
  destruct ls as [|l' ls]; [apply Hl|].
  rewrite join_cons. apply tidy_app.
  - apply Hl.
  - reflexivity.
  - cbn [tidy]. repeat split; [discriminate|discriminate|now apply IH].
Qed.

Lemma solid_after_lf_line l rest :
  ~ In LF l -> solid_after_lf rest -> solid_after_lf (l ++ rest).
Proof.
  intros NL R. induction l as [|c l IH]; cbn; [exact R|].
  split.
  - intros ->. exfalso. apply NL. now left.
  - apply IH. intros X. apply NL. now right.
Qed.

Lemma join_solid_after_lf ls :
  Forall (clean_line unicode_decimal) ls -> solid_after_lf (join [LF] ls).
Proof.
  induction ls as [|l ls IH]; intros H; [exact I|].
  inversion H as [|? ? Hl Hls]; subst.
  assert (NL : ~ In LF l) by apply Hl.
  destruct ls as [|l' ls].
  - cbn [join]. rewrite <- (app_nil_r l).
    now apply solid_after_lf_line.
  - rewrite join_cons. apply solid_after_lf_line; [exact NL|].
    destruct (join_solid l' ls Hls) as [S NE].
    cbn [solid_after_lf]. split; [|now apply IH].
    intros _. destruct (join [LF] (l' :: ls)); [contradiction|exact S].
Qed.

(** The normaliser leaves a text of clean lines as it is. *)
Lemma clean_lines_fix ls :
  Forall (clean_line unicode_decimal) ls ->
  clean_extracted_text unicode_decimal (join [LF] ls) = join [LF] ls.
Proof.
  intros H. unfold clean_extracted_text.
  destruct (join [LF] ls) as [|c t] eqn:E; [reflexivity|]. rewrite <- E.
  assert (NE : ls <> []) by (intros ->; discriminate).
  rewrite sub_blank_lines_fix by now apply join_solid_after_lf.
  rewrite sub_blanks_fix by now apply join_tidy.
  rewrite sub_lf_space_fix by now apply join_solid_after_lf.
  rewrite split_join.
  - now rewrite keep_lines_fix.
  - exact NE.
  - eapply Forall_impl; [|exact H]. intros l Hl. apply Hl.
Qed.

(** The normaliser makes a text of clean lines. *)
Lemma clean_extracted_text_lines text :
  exists ls,
    Forall (clean_line unicode_decimal) ls
    /\ clean_extracted_text unicode_decimal text = join [LF] ls.
Proof.
  unfold clean_extracted_text. destruct text as [|c t].
  - exists []. split; [constructor|reflexivity].
  - eexists. split; [|reflexivity].
    apply keep_lines_clean; [|constructor].
    apply split_tidy, sub_lf_space_tidy, sub_blanks_tidy.
Qed.

End Lines.

End Clean.

(** ** The column detector: what a call does to the bins and the store *)

Module DetectorMore.

Import FloatOrder Keys Detector.

(** What one round of the binning loop does when it returns: one bin went
    up by one. *)
Lemma count_into_bin_inv bin_size bins x bins' :
  count_into_bin bin_size bins x = Ok bins' ->
  exists j k c,
    bin_index bin_size x = Ok j
    /\ norm_index (length bins) j = Ok k
    /\ nth_error bins k = Some c
    /\ bins' = firstn k bins ++ (c + 1)%Z :: skipn (S k) bins.
Proof.
  unfold count_into_bin, getitem, setitem.
  destruct (bin_index bin_size x) as [j|]; [cbn [bind]|discriminate].
  destruct (norm_index (length bins) j) as [k|] eqn:E; [cbn [bind]|discriminate].
  destruct (nth_error bins k) as [c|] eqn:N; [cbn [bind]|discriminate].
  intros [= <-]. exists j, k, c. auto.
Qed.

Lemma total_app a b : total (a ++ b) = (total a + total b)%Z.
Proof. unfold total. induction a as [|x a IH]; cbn; [reflexivity|]. lia. Qed.

Lemma total_upd bins k c v :
  nth_error bins k = Some c ->
  total (firstn k bins ++ v :: skipn (S k) bins) = (total bins - c + v)%Z.
Proof.
  intros H. rewrite <- (firstn_skipn_middle k bins H) at 3.
  rewrite !total_app. cbn. lia.
Qed.

Lemma Forall_upd (P : Z -> Prop) bins k v :
  Forall P bins -> P v -> Forall P (firstn k bins ++ v :: skipn (S k) bins).
Proof.
  intros H Hv.
  assert (F : Forall P (firstn k bins) /\ Forall P (skipn k bins)).
  { apply Forall_app. now rewrite firstn_skipn. }
  destruct F as [F1 F2]. apply Forall_app. split; [exact F1|].
  constructor; [exact Hv|].
  assert (F : Forall P (firstn 1 (skipn k bins))
              /\ Forall P (skipn 1 (skipn k bins))).
  { apply Forall_app. now rewrite firstn_skipn. }
  rewrite skipn_skipn in F. apply F.
Qed.

Lemma count_loop_mass bin_size xs bins bins' :
  for_each (count_into_bin bin_size) xs bins = Ok bins' ->
  Forall (fun c => 0 <= c)%Z bins ->
  length bins' = length bins
  /\ total bins' = (total bins + Z.of_nat (length xs))%Z
  /\ Forall (fun c => 0 <= c)%Z bins'.
Proof.
  revert bins. induction xs as [|x xs IH]; intros bins H P.
  - cbn in H. injection H as <-. cbn [length]. repeat split; auto. lia.
  - cbn [for_each] in H.
    destruct (count_into_bin bin_size bins x) as [b|] eqn:E; [|discriminate].
    cbn [bind] in H.
    destruct (count_into_bin_inv _ _ _ _ E) as [j [k [c [_ [Hk [Hc ->]]]]]].
    assert (Pc : (0 <= c)%Z).
    { rewrite Forall_forall in P. apply P. eapply nth_error_In, Hc. }
    destruct (IH _ H) as [L [T F]].
    { apply Forall_upd; [exact P|lia]. }
    rewrite L, T, (total_upd _ _ _ _ Hc).
    rewrite upd_length by now apply norm_index_lt in Hk.
    cbn [length]. repeat split; [lia|exact F].
Qed.

Lemma norm_index_some n i :
  (- Z.of_nat n <= i < Z.of_nat n)%Z -> exists k, norm_index n i = Ok k.
Proof.
  intros H. unfold norm_index.
  destruct (Z.ltb_spec i 0).
  - destruct (Z.ltb_spec (i + Z.of_nat n) 0); [lia|eauto].
  - destruct (Z.ltb_spec i (Z.of_nat n)); [eauto|lia].
Qed.

Lemma norm_index_range n i k :
  norm_index n i = Ok k -> (- Z.of_nat n <= i < Z.of_nat n)%Z.
Proof.
  unfold norm_index.
  destruct (Z.ltb_spec i 0).
  - destruct (Z.ltb_spec (i + Z.of_nat n) 0); [discriminate|]. lia.
  - destruct (Z.ltb_spec i (Z.of_nat n)); [|discriminate]. lia.
Qed.

(** The binning loop returns exactly when every left edge has a bin that
    is a subscript of the 20 bins. *)
Lemma count_loop_returns bin_size xs bins :
  length bins = 20%nat ->
  (exists bins', for_each (count_into_bin bin_size) xs bins = Ok bins')
  <-> forallb (subscriptable bin_size) xs = true.
Proof.
  revert bins. induction xs as [|x xs IH]; intros bins L.
  - cbn. split; eauto.
  - cbn [for_each forallb]. split.
    + intros [bins' H].
      destruct (count_into_bin bin_size bins x) as [b|] eqn:E; [|discriminate].
      cbn [bind] in H.
      destruct (count_into_bin_inv _ _ _ _ E) as [j [k [c [Hj [Hk [Hc ->]]]]]].
      apply andb_true_intro. split.
      * unfold subscriptable. rewrite Hj. apply Z.leb_le.
        apply norm_index_range in Hk. lia.
      * apply (IH (firstn k bins ++ (c + 1)%Z :: skipn (S k) bins)); eauto.
        rewrite upd_length; [exact L|]. now apply norm_index_lt in Hk.
    + intros H. apply andb_prop in H. destruct H as [Hx Hxs].
      unfold subscriptable in Hx.
      destruct (bin_index bin_size x) as [j|] eqn:Hj; [|discriminate].
      apply Z.leb_le in Hx. pose proof (bin_index_le _ _ _ Hj) as Hle.
      destruct (norm_index_some (length bins) j) as [k Hk]; [lia|].
      pose proof (norm_index_lt _ _ _ Hk) as Lt.
      destruct (nth_error bins k) as [c|] eqn:Hc;
        [|apply nth_error_None in Hc; lia].
      unfold count_into_bin, getitem, setitem.
      rewrite Hj. cbn [bind]. rewrite Hk. cbn [bind]. rewrite Hc. cbn [bind].
      apply IH; [|exact Hxs]. rewrite upd_length; [exact L|exact Lt].
Qed.


Lemma flt_below_not_below x y b :
  not_nan y -> flt x b = true -> flt y b = false -> flt x y = true.
Proof.
  unfold not_nan. intros Ny. rewrite !flt_rank, Ny.
  destruct (is_nan x), (is_nan b); cbn [orb negb andb]; try discriminate.
  float_order.
Qed.

Lemma first_division_raises bin_size x xs bins :
  feq bin_size 0 = true ->
  for_each (count_into_bin bin_size) (x :: xs) bins = Raise ZeroDivisionError.
Proof.
  intros H. cbn [for_each]. unfold count_into_bin, bin_index, truediv.
  now rewrite H.
Qed.

Lemma x_positions_length h blocks :
  length (x_positions h blocks) = length blocks.
Proof.
  unfold x_positions, sorted. now rewrite sort_by_length, length_map.
Qed.

Lemma TextBlock_ext (b b' : TextBlock) :
  text b = text b' -> bbox b = bbox b' -> page_num b = page_num b' ->
  column b = column b' -> b = b'.
Proof. destruct b, b'. cbn. now intros -> -> -> ->. Qed.

(** The left edges and the page width do not depend on the columns. *)
Lemma geometry_frame h h' blocks :
  (forall a, bbox (h' a) = bbox (h a)) ->
  x_positions h' blocks = x_positions h blocks
  /\ page_width h' blocks = page_width h blocks.
Proof.
  intros H. unfold x_positions, page_width. split.
  - f_equal. apply map_ext. intros a. unfold x0, bbox0. now rewrite H.
  - rewrite (map_ext (fun a => bbox2 (h' a)) (fun a => bbox2 (h a)));
      [reflexivity|]. intros a. unfold bbox2. now rewrite H.
Qed.

Lemma classified_again h blocks b a :
  classified (classified h blocks b) blocks b a = classified h blocks b a.
Proof.
  set (h1 := classified h blocks b).
  destruct (in_dec Nat.eq_dec a blocks) as [Hin | Hout].
  - destruct (classified_frame blocks b h1 a) as [T [B P]].
    apply TextBlock_ext; auto.
    rewrite (classified_column blocks b h1 a Hin).
    unfold h1 at 2. rewrite (classified_column blocks b h a Hin).
    unfold bbox0, h1.
    now rewrite (proj1 (proj2 (classified_frame blocks b h a))).
  - now apply classified_other.
Qed.

(** What a returning call of [detect_columns] has done. *)
Lemma detect_columns_returned blocks h h' out :
  detect_columns blocks h = (h', Ok out) ->
  out = blocks
  /\ (blocks = [] /\ h' = h
      \/ exists cb,
           _find_column_boundary (x_positions h blocks) (page_width h blocks)
           = Ok cb
           /\ h' = classified h blocks
                    (match cb with
                     | None => (page_width h blocks * 0.5)%float
                     | Some b => b
                     end)).
Proof.
  destruct blocks as [|b l].
  - cbn. intros [= <- <-]. auto.
  - rewrite detect_columns_run by discriminate.
    destruct (_find_column_boundary _ _) as [cb|e]; [|discriminate].
    intros [= <- <-]. split; [reflexivity|]. right. exists cb. auto.
Qed.

(** A returning call leaves every block of the list in column 0 or 1. *)
Lemma detect_columns_binary blocks h h' out :
  detect_columns blocks h = (h', Ok out) ->
  forall a, In a blocks -> column (h' a) = 0%Z \/ column (h' a) = 1%Z.
Proof.
  intros H a Ha. destruct (detect_columns_returned _ _ _ _ H) as [_ D].
  destruct D as [[-> _] | [cb [_ ->]]]; [contradiction|].
  rewrite classified_column by assumption.
  destruct (flt _ _); auto.
Qed.

(** A returning call changes no text, no bounding box and no page number. *)
Lemma detect_columns_keeps blocks h h' out :
  detect_columns blocks h = (h', Ok out) ->
  forall a, text (h' a) = text (h a)
            /\ bbox (h' a) = bbox (h a)
            /\ page_num (h' a) = page_num (h a).
Proof.
  intros H a. destruct (detect_columns_returned _ _ _ _ H) as [_ D].
  destruct D as [[_ ->] | [cb [_ ->]]]; [auto|]. apply classified_frame.
Qed.

End DetectorMore.

Import DetectorMore.

(* ================================================================== *)
(** * Part III: the properties of the specification *)
(* ================================================================== *)

Import FloatOrder Keys Detector Reorder Clean.

(** ** Reading-order reconstruction *)

(** C1. On a page with at least one left and one right block, the part of
    the output that belongs to the page is made row by row: there is a list
    [ys] of heights, strictly ascending, that holds exactly the top edges of
    the blocks of both sides (each once, up to [==]), and the output is, for
    each height in that order, the left block at that height if there is one,
    then the right block at that height if there is one; where blocks of one
    side share a height, the block kept is the last of them in the y-sorted
    order. *)
Theorem reorder_two_column_page (h : heap) (blocks : list ref) (p : Z) :
  let page_blocks := sort_by flt (y0 h) (filter (on_page h p) blocks) in
  let left_blocks := filter (in_column h 0) page_blocks in
  let right_blocks := filter (in_column h 1) page_blocks in
  Forall (fun a => not_nan (y0 h a)) (filter (on_page h p) blocks) ->
  left_blocks <> [] -> right_blocks <> [] ->
  exists ys : list float,
    strictly_ascending flt (fun y => y) ys
    /\ (forall y, In y ys ->
                  exists a, In a (left_blocks ++ right_blocks) /\ y0 h a = y)
    /\ (forall a, In a (left_blocks ++ right_blocks) ->
                  exists y, In y ys /\ feq y (y0 h a) = true)
    /\ filter (on_page h p) (reorder_text_blocks h blocks) =
       flat_map
         (fun y => opt_list (last_with feq (y0 h) left_blocks y)
                   ++ opt_list (last_with feq (y0 h) right_blocks y))
         ys.
Proof.
  cbn zeta. intros Hok HL HR.
  set (page_blocks := sort_by flt (y0 h) (filter (on_page h p) blocks)) in *.
  set (left_blocks := filter (in_column h 0) page_blocks) in *.
  set (right_blocks := filter (in_column h 1) page_blocks) in *.
  assert (Hside : forall c, Forall (fun a => not_nan (y0 h a))
                                   (filter (in_column h c) page_blocks)).
  { intros c. apply Forall_forall. intros a Ha.
    apply filter_In in Ha. destruct Ha as [Ha _].
    apply sort_by_In in Ha. rewrite Forall_forall in Hok. auto. }
  exists (all_y_coords (y_map h left_blocks) (y_map h right_blocks)).
  split; [apply all_y_coords_strictly; apply Hside|].
  split; [apply all_y_coords_from|].
  split; [apply all_y_coords_covers; apply Hside|].
  rewrite reorder_page_segment, (reorder_page_two h _ HL HR).
  apply interleave_rows.
Qed.

Lemma reorder_two_column_page_witness :
  exists ys : list float,
    strictly_ascending flt (fun y => y) ys
    /\ filter (on_page two_column_page 0)
         (reorder_text_blocks two_column_page [0; 1; 2; 3]%nat)
       = flat_map
           (fun y =>
              opt_list (last_with feq (y0 two_column_page) [0; 1]%nat y)
              ++ opt_list (last_with feq (y0 two_column_page) [2; 3]%nat y))
           ys.
Proof.
  destruct (reorder_two_column_page two_column_page [0; 1; 2; 3]%nat 0)
    as [ys [H1 [_ [_ H2]]]].
  - repeat constructor.
  - discriminate.
  - discriminate.
  - exists ys. split; [exact H1|exact H2].
Defined.

(** C5. The output is the concatenation, over the page numbers of the input
    in strictly ascending order, of what the loop body makes of each page;
    each part holds blocks of its page only, so that the page numbers along
    the output never decrease: no block of a later page comes before a block
    of an earlier page. *)
Theorem reorder_text_blocks_page_order (h : heap) (blocks : list ref) :
  reorder_text_blocks h blocks =
    flat_map (fun p => reorder_page h (filter (on_page h p) blocks))
             (page_nums h blocks)
  /\ StronglySorted Z.lt (page_nums h blocks)
  /\ (forall p, In p (page_nums h blocks) <->
                exists a, In a blocks /\ page_num (h a) = p)
  /\ (forall p a, In a (reorder_page h (filter (on_page h p) blocks)) ->
                  In a blocks /\ page_num (h a) = p)
  /\ StronglySorted Z.le
       (map (fun a => page_num (h a)) (reorder_text_blocks h blocks)).
Proof.
  assert (Q : forall p a,
             In a (reorder_page h (filter (on_page h p) blocks)) ->
             In a blocks /\ page_num (h a) = p).
  { intros p a Ha. apply reorder_page_In, filter_In in Ha.
    destruct Ha as [Ha E]. split; [assumption|now apply Z.eqb_eq]. }
  split; [apply reorder_pages|].
  split; [apply page_nums_strictly|].
  split; [apply page_nums_In|].
  split; [exact Q|].
  rewrite reorder_pages. apply flat_map_pages_sorted.
  - apply page_nums_strictly.
  - intros p a Ha. now apply Q.
Qed.

(** C6, as the claim states it, fails: two blocks of a one-column page at the
    same height come out one after the other, and their top edges are not
    strictly ascending. *)
Lemma reorder_single_column_not_strict :
  (forall a, In a [0; 1]%nat -> column (tied_page a) = 0%Z)
  /\ ~ strictly_ascending flt (y0 tied_page)
        (filter (on_page tied_page 0)
                (reorder_text_blocks tied_page [0; 1]%nat)).
Proof.
  split.
  - intros a [<- | [<- | []]]; reflexivity.
  - intros H. vm_compute in H. inversion H as [|? ? _ F]; subst.
    inversion F as [|? ? E _]; subst. vm_compute in E. discriminate.
Qed.

(** C6, amended. On a page on which no block is in the left column or no
    block is in the right column (an empty page too), the part of the output
    that belongs to the page is the page's blocks sorted by their top edge:
    a rearrangement of the page's blocks in which no block comes before a
    block of smaller top edge, and strictly ascending where the top edges are
    pairwise different. The store is not written. *)
Theorem reorder_single_column_page (h : heap) (blocks : list ref) (p : Z) :
  let page := filter (on_page h p) blocks in
  let out := filter (on_page h p) (reorder_text_blocks h blocks) in
  Forall (fun a => not_nan (y0 h a)) page ->
  filter (in_column h 0) page = [] \/ filter (in_column h 1) page = [] ->
  out = sort_by flt (y0 h) page
  /\ Permutation page out
  /\ ascending flt (y0 h) out
  /\ (distinct_keys feq (y0 h) page -> strictly_ascending flt (y0 h) out).
Proof.
  cbn zeta. intros Hok Hcol.
  rewrite reorder_page_segment, (reorder_page_single h _ Hcol).
  split; [reflexivity|].
  split; [apply sort_by_perm|].
  split.
  - now apply (sort_by_ascending flt feq not_nan (y0 h) float_key_order).
  - now apply (sort_by_strictly flt feq not_nan (y0 h) float_key_order).
Qed.

Lemma reorder_single_column_page_witness :
  filter (on_page tied_page 0) (reorder_text_blocks tied_page [0; 1]%nat)
  = sort_by flt (y0 tied_page) [0; 1]%nat.
Proof.
  apply (reorder_single_column_page tied_page [0; 1]%nat 0).
  - repeat constructor.
  - right. reflexivity.
Defined.

(** C9. On a two-column page (at least one block in each column) whose left
    blocks have pairwise different top edges, and whose right blocks have
    too, the part of the output that belongs to the page is a rearrangement
    of the page's left and right blocks, every block once, and so of the whole
    page when every block of it is in column 0 or 1. A block that a later
    block of its side follows, in the y-sorted order, at the same height does
    not come out at all. *)
Theorem interleave_columns_permutation (h : heap) (blocks : list ref) (p : Z) :
  let page := filter (on_page h p) blocks in
  let page_blocks := sort_by flt (y0 h) page in
  let left_blocks := filter (in_column h 0) page_blocks in
  let right_blocks := filter (in_column h 1) page_blocks in
  let out := filter (on_page h p) (reorder_text_blocks h blocks) in
  Forall (fun a => not_nan (y0 h a)) page ->
  left_blocks <> [] -> right_blocks <> [] ->
  (distinct_keys feq (y0 h) left_blocks ->
   distinct_keys feq (y0 h) right_blocks ->
   Permutation (left_blocks ++ right_blocks) out
   /\ ((forall a, In a page -> column (h a) = 0%Z \/ column (h a) = 1%Z) ->
       Permutation page out))
  /\ (forall l1 a l2 b,
        NoDup page ->
        left_blocks = l1 ++ a :: l2 \/ right_blocks = l1 ++ a :: l2 ->
        In b l2 -> feq (y0 h b) (y0 h a) = true ->
        ~ In a out).
Proof.
  cbn zeta. intros Hok HL HR.
  set (page := filter (on_page h p) blocks) in *.
  set (page_blocks := sort_by flt (y0 h) page) in *.
  set (left_blocks := filter (in_column h 0) page_blocks) in *.
  set (right_blocks := filter (in_column h 1) page_blocks) in *.
  assert (Hside : forall c, Forall (fun a => not_nan (y0 h a))
                                   (filter (in_column h c) page_blocks)).
  { intros c. apply Forall_forall. intros a Ha.
    apply filter_In in Ha. destruct Ha as [Ha _].
    apply sort_by_In in Ha. rewrite Forall_forall in Hok. auto. }
  rewrite reorder_page_segment. fold page.
  rewrite (reorder_page_two h page HL HR).
  fold page_blocks. fold left_blocks. fold right_blocks.
  destruct (interleave_columns_blocks h left_blocks right_blocks
              (Hside 0%Z) (Hside 1%Z)) as [P O].
  split.
  - intros DL DR. split; [now apply P|].
    intros Hcol. rewrite <- (P DL DR).
    rewrite (sort_by_perm flt (y0 h) page) at 1. fold page_blocks.
    apply filter_split_perm. intros a Ha. apply sort_by_In in Ha.
    unfold in_column. destruct (Hcol a Ha) as [-> | ->]; reflexivity.
  - intros l1 a l2 b ND. apply O.
    assert (NS : NoDup page_blocks).
    { apply (Permutation_NoDup (sort_by_perm flt (y0 h) page) ND). }
    apply NoDup_app.
    + now apply NoDup_filter.
    + now apply NoDup_filter.
    + intros x Hx Hx'. apply filter_In in Hx, Hx'.
      destruct Hx as [_ Hx], Hx' as [_ Hx']. unfold in_column in *.
      apply Z.eqb_eq in Hx, Hx'. congruence.
Qed.

Lemma interleave_columns_permutation_witness :
  Permutation [0; 1; 2; 3]%nat
              (filter (on_page two_column_page 0)
                      (reorder_text_blocks two_column_page [0; 1; 2; 3]%nat))
  /\ ~ In 0%nat (filter (on_page colliding_page 0)
                        (reorder_text_blocks colliding_page [0; 1; 2]%nat)).
Proof.
  split.
  - apply (interleave_columns_permutation two_column_page [0; 1; 2; 3]%nat 0).
    + repeat constructor.
    + discriminate.
    + discriminate.
    + repeat constructor.
    + repeat constructor.
    + intros a [<- | [<- | [<- | [<- | []]]]]; auto.
  - apply (proj2 (interleave_columns_permutation colliding_page
                    [0; 1; 2]%nat 0
                    ltac:(repeat constructor) ltac:(discriminate)
                    ltac:(discriminate))
             [] 0%nat [1%nat] 1%nat).
    + repeat constructor; cbn; intuition discriminate.
    + left. reflexivity.
    + now left.
    + reflexivity.
Defined.

(** ** Column detection *)

(** C2, as the claim states it, fails: the binning has no lower clamp. On
    a page of four blocks, one of which starts at -2100 while the page is
    2000 wide, the bins counted by truncated division have a valley, bin 1,
    yet the detector returns no boundary: the subscript -21 of the 20 bins
    raises [IndexError]. *)
Lemma find_column_boundary_far_left :
  let h := far_left_page in
  let blocks := [0; 1; 2; 3]%nat in
  let pw := page_width h blocks in
  (4 <= length blocks)%nat
  /\ pw = 2000%float
  /\ bin_index (pw / 20)%float (x0 h 0%nat) = Ok (-21)%Z
  /\ valleys (histogram (pw / 20)%float (map (x0 h) blocks)) = [1%Z]
  /\ _find_column_boundary (x_positions h blocks) pw = Raise IndexError.
Proof. cbn zeta. repeat split; vm_compute; reflexivity. Qed.

(** C2, amended. On a page of at least four blocks whose left edges all
    fall into a bin (the quotient of the left edge by the bin width is a
    number and its integer part is not negative), the detector takes as
    page width a largest right edge, counts the
    left edges per bin (the bin of a left edge is its quotient by a twentieth
    of the page width, truncated, at most 19), takes 0.3 times the largest
    count as threshold, collects the bins from 1 to 18 that are below the
    threshold while both neighbours reach it, and, when there is such a
    valley, returns the left edge of the middle one, [valleys[len // 2]]
    times the bin width; the blocks are then classified by that boundary. *)
Theorem find_column_boundary_valleys (h : heap) (blocks : list ref) :
  let pw := page_width h blocks in
  let hist := histogram (pw / 20)%float (map (x0 h) blocks) in
  let boundary :=
    (float_of_int (item (valleys hist) (Z.of_nat (length (valleys hist) / 2)))
     * (pw / 20))%float in
  (4 <= length blocks)%nat ->
  Forall (fun a => not_nan (bbox2 (h a))) blocks ->
  forallb (binnable (pw / 20)%float) (map (x0 h) blocks) = true ->
  valleys hist <> [] ->
  is_maximum pw (map (fun a => bbox2 (h a)) blocks)
  /\ for_each (count_into_bin (pw / 20)%float) (x_positions h blocks)
              (repeat 0%Z 20) = Ok hist
  /\ _find_column_boundary (x_positions h blocks) pw = Ok (Some boundary)
  /\ detect_columns blocks h = (classified h blocks boundary, Ok blocks).
Proof.
  cbn zeta. intros L N B V.
  assert (NE : blocks <> []) by (destruct blocks; [cbn in L; lia|discriminate]).
  assert (P : Permutation (map (x0 h) blocks) (x_positions h blocks))
    by apply sort_by_perm.
  assert (Hb : for_each (count_into_bin (page_width h blocks / 20)%float)
                 (x_positions h blocks) (repeat 0%Z 20)
               = Ok (histogram (page_width h blocks / 20)%float
                               (map (x0 h) blocks))).
  { rewrite (histogram_perm _ _ _ P). apply binning_histogram.
    apply forallb_forall. intros x Hx.
    apply (Permutation_in _ (Permutation_sym P)) in Hx.
    revert x Hx. now apply forallb_forall. }
  assert (F : _find_column_boundary (x_positions h blocks) (page_width h blocks)
              = Ok (boundary_of (page_width h blocks / 20)%float
                      (histogram (page_width h blocks / 20)%float
                                 (map (x0 h) blocks)))).
  { apply find_column_boundary_binned; [|exact Hb].
    rewrite <- (Permutation_length P), length_map. exact L. }
  unfold boundary_of in F.
  destruct (valleys _) as [|v vs] eqn:E; [contradiction|].
  split; [now apply page_width_max|].
  split; [exact Hb|].
  split; [exact F|].
  rewrite detect_columns_run, F by assumption. reflexivity.
Qed.

Lemma find_column_boundary_valleys_witness :
  _find_column_boundary (x_positions two_edge_page [0; 1; 2; 3]%nat)
                        (page_width two_edge_page [0; 1; 2; 3]%nat)
  = Ok (Some 100%float).
Proof.
  apply (find_column_boundary_valleys two_edge_page [0; 1; 2; 3]%nat).
  - cbn. lia.
  - repeat constructor.
  - vm_compute. reflexivity.
  - vm_compute. discriminate.
Defined.

(** C3. When the detector reports no boundary on a page that is not empty,
    [detect_columns] classifies by half the page width: it returns the list,
    and every block of it whose left edge is below half the page width is in
    column 0 afterwards, every other block in column 1. The page width is a
    largest right edge. *)
Theorem detect_columns_fallback (h : heap) (blocks : list ref) :
  let pw := page_width h blocks in
  blocks <> [] ->
  _find_column_boundary (x_positions h blocks) pw = Ok None ->
  exists h',
    detect_columns blocks h = (h', Ok blocks)
    /\ (forall a, In a blocks ->
                  column (h' a) =
                  if flt (x0 h a) (pw * 0.5)%float then 0%Z else 1%Z)
    /\ (Forall (fun a => not_nan (bbox2 (h a))) blocks ->
        is_maximum pw (map (fun a => bbox2 (h a)) blocks)).
Proof.
  cbn zeta. intros NE F.
  exists (classified h blocks (page_width h blocks * 0.5)%float).
  split; [now rewrite detect_columns_run, F|].
  split; [intros a Ha; now apply classified_column|].
  now apply page_width_max.
Qed.

Lemma detect_columns_fallback_witness :
  exists h',
    detect_columns [0; 1; 2]%nat narrow_page = (h', Ok [0; 1; 2]%nat)
    /\ column (h' 0%nat) = 0%Z /\ column (h' 1%nat) = 0%Z
    /\ column (h' 2%nat) = 0%Z.
Proof.
  destruct (detect_columns_fallback narrow_page [0; 1; 2]%nat)
    as [h' [R [C _]]].
  - discriminate.
  - reflexivity.
  - exists h'. split; [exact R|].
    repeat split; [rewrite (C 0%nat)|rewrite (C 1%nat)|rewrite (C 2%nat)];
      cbn; auto.
Defined.




(** C10, as the claim states it, fails: [detect_columns] does not return
    the list for every list of blocks. On the page with a block that starts
    at -2100 it raises [IndexError]. *)
Lemma detect_columns_far_left :
  snd (detect_columns [0; 1; 2; 3]%nat far_left_page) = Raise IndexError.
Proof. vm_compute. reflexivity. Qed.

(** C10, amended. [detect_columns] writes the column of the blocks of its
    list and nothing else: the text, the bounding box and the page of every
    block are what they were, and a block that is not in the list is what it
    was. The call returns exactly when the list has fewer than four blocks
    or every left edge has a bin that is a subscript of the 20 bins; it then
    returns the list as it was given, same blocks in the same order.
    Otherwise it raises, and nothing at all was written. *)
Theorem detect_columns_frame (h : heap) (blocks : list ref) :
  let h' := fst (detect_columns blocks h) in
  let r := snd (detect_columns blocks h) in
  let pw := page_width h blocks in
  (forall a, text (h' a) = text (h a) /\ bbox (h' a) = bbox (h a)
             /\ page_num (h' a) = page_num (h a))
  /\ (forall a, ~ In a blocks -> h' a = h a)
  /\ (r = Ok blocks
      <-> (length blocks < 4)%nat
          \/ forallb (subscriptable (pw / 20)%float) (map (x0 h) blocks) = true)
  /\ (r <> Ok blocks -> h' = h /\ exists e, r = Raise e).
Proof.
  cbn zeta. destruct blocks as [|b l].
  { cbn. split; [auto|]. split; [auto|].
    split; [split; [intros _; left; lia|reflexivity]|].
    intros N. now contradiction N. }
  set (blocks := b :: l).
  assert (NE : blocks <> []) by discriminate.
  rewrite (detect_columns_run blocks h NE).
  assert (P : Permutation (map (x0 h) blocks) (x_positions h blocks))
    by apply sort_by_perm.
  assert (Len : length (x_positions h blocks) = length blocks).
  { now rewrite <- (Permutation_length P), length_map. }
  assert (S : forallb (subscriptable (page_width h blocks / 20)%float)
                      (map (x0 h) blocks)
              = forallb (subscriptable (page_width h blocks / 20)%float)
                        (x_positions h blocks)).
  { apply eq_true_iff_eq. rewrite !forallb_forall.
    split; intros H x Hx; apply H.
    - now apply (Permutation_in _ (Permutation_sym P)).
    - now apply (Permutation_in _ P). }
  rewrite S.
  rewrite <- (count_loop_returns (page_width h blocks / 20)%float
                (x_positions h blocks) (repeat 0%Z 20)) by reflexivity.
  destruct (_find_column_boundary (x_positions h blocks) (page_width h blocks))
    as [cb|e] eqn:F; cbn [fst snd].
  - split; [intros a; apply classified_frame|].
    split; [intros a; apply classified_other|].
    split; [|intros N; now contradiction N].
    split; [|reflexivity]. intros _.
    destruct (Nat.lt_ge_cases (length blocks) 4) as [Lt | Ge]; [now left|].
    right.
    destruct (for_each (count_into_bin (page_width h blocks / 20)%float)
                (x_positions h blocks) (repeat 0%Z 20)) as [bins|e'] eqn:B;
      [eauto|].
    rewrite (find_column_boundary_raise _ _ e') in F by (lia || exact B).
    discriminate.
  - split; [auto|]. split; [auto|]. split; [|eauto].
    split; [discriminate|]. intros [Lt | [bins B]]; exfalso.
    + rewrite find_column_boundary_short in F by lia. discriminate.
    + destruct (Nat.lt_ge_cases (length blocks) 4) as [Lt | Ge].
      * rewrite find_column_boundary_short in F by lia. discriminate.
      * rewrite (find_column_boundary_binned _ _ bins) in F
          by (lia || exact B).
        discriminate.
Qed.

Lemma detect_columns_frame_witness :
  snd (detect_columns [0; 1; 2; 3]%nat two_edge_page) = Ok [0; 1; 2; 3]%nat
  /\ fst (detect_columns [0; 1; 2; 3]%nat far_left_page) = far_left_page.
Proof.
  split.
  - apply (proj2 (proj1 (proj2 (proj2
             (detect_columns_frame two_edge_page [0; 1; 2; 3]%nat))))).
    right. vm_compute. reflexivity.
  - apply (proj2 (proj2 (proj2
             (detect_columns_frame far_left_page [0; 1; 2; 3]%nat)))).
    vm_compute. discriminate.
Defined.

(** ** Text normalisation *)

(** C7, as the claim states it, fails: whatever the table of the decimal
    digits beyond ASCII, the normaliser does not turn the text of scenario D
    into "Real content here". *)
Lemma clean_scenario_D_keeps_page :
  ~ exists unicode_decimal,
      clean_extracted_text unicode_decimal scenario_D = real_content_here.
Proof. intros [unicode_decimal H]. vm_compute in H. discriminate. Qed.

(** C7, amended. The normaliser turns "Page\n\n\n5\n\nReal content here"
    into "Page\nReal content here": the blank lines go, the line "5" goes,
    and the line "Page", which has four characters, stays. *)
Theorem clean_scenario_D (unicode_decimal : N -> bool) :
  clean_extracted_text unicode_decimal scenario_D = page_real_content_here.
Proof. vm_compute. reflexivity. Qed.

(** C8. The normaliser is idempotent: whatever the table of the decimal
    digits, a text that went through it once comes out of it unchanged. *)
Theorem clean_extracted_text_idempotent (unicode_decimal : N -> bool)
  (text : str) :
  clean_extracted_text unicode_decimal
    (clean_extracted_text unicode_decimal text)
  = clean_extracted_text unicode_decimal text.
Proof.
  destruct (clean_extracted_text_lines unicode_decimal text) as [ls [H ->]].
  now apply clean_lines_fix.
Qed.

(* ================================================================== *)
(** * Part IV: further properties of the code *)
(* ================================================================== *)

(** ** The column detector, continued *)

(** X1. When the binning loop returns, the 20 bins hold no negative count
    and add up to the number of left edges: every left edge was counted
    once, also one that a negative subscript put into a bin at the far
    end. *)
Theorem binning_counts_every_edge (bin_size : float) (xs : list float)
  (bins : list Z) :
  for_each (count_into_bin bin_size) xs (repeat 0%Z 20) = Ok bins ->
  length bins = 20%nat
  /\ total bins = Z.of_nat (length xs)
  /\ Forall (fun c => 0 <= c)%Z bins.
Proof.
  intros H. destruct (count_loop_mass _ _ _ _ H) as [L [T F]].
  - repeat constructor; lia.
  - rewrite L, T. repeat split; auto.
Qed.

Lemma binning_counts_every_edge_witness :
  exists bins,
    for_each (count_into_bin 100%float) [-100; 10; 250; 250]%float
             (repeat 0%Z 20) = Ok bins
    /\ total bins = 4%Z.
Proof.
  eexists. split; [vm_compute; reflexivity|].
  apply (binning_counts_every_edge 100%float [-100; 10; 250; 250]%float).
  vm_compute. reflexivity.
Defined.

(** X2. [_find_column_boundary] returns exactly when the page has fewer
    than four left edges or every left edge has a bin that is a subscript of
    the 20 bins (its quotient by the bin width is a number, and not below
    -20); otherwise it raises. *)
Theorem find_column_boundary_returns (xs : list float) (pw : float) :
  (exists r, _find_column_boundary xs pw = Ok r)
  <-> ((length xs < 4)%nat
       \/ forallb (subscriptable (pw / 20)%float) xs = true).
Proof.
  destruct (Nat.lt_ge_cases (length xs) 4) as [Lt | Ge].
  - split; [auto|]. intros _. exists None.
    now apply find_column_boundary_short.
  - rewrite <- (count_loop_returns (pw / 20)%float xs (repeat 0%Z 20))
      by reflexivity.
    split.
    + intros [r H]. right.
      destruct (for_each _ xs _) as [bins|e] eqn:B; [eauto|].
      rewrite (find_column_boundary_raise _ _ e Ge B) in H. discriminate.
    + intros [Lt | [bins B]]; [lia|].
      eexists. apply (find_column_boundary_binned _ _ bins Ge B).
Qed.

Lemma find_column_boundary_returns_witness :
  exists r, _find_column_boundary [-100; 10; 250; 250]%float 2000%float = Ok r.
Proof.
  apply (find_column_boundary_returns [-100; 10; 250; 250]%float 2000%float).
  right. vm_compute. reflexivity.
Defined.

(** X3. A boundary that [_find_column_boundary] returns is the left edge
    of a bin: [k] times the bin width for a [k] from 1 to 18 that is a valley
    of the bins the loop has filled. It is never in the first bin nor at
    the last. *)
Theorem find_column_boundary_on_bin_edge (xs : list float) (pw b : float) :
  _find_column_boundary xs pw = Ok (Some b) ->
  (4 <= length xs)%nat
  /\ exists bins k,
       for_each (count_into_bin (pw / 20)%float) xs (repeat 0%Z 20) = Ok bins
       /\ (1 <= k <= 18)%Z
       /\ valley bins k = true
       /\ b = (float_of_int k * (pw / 20))%float.
Proof.
  intros H.
  destruct (Nat.lt_ge_cases (length xs) 4) as [Lt | Ge].
  { rewrite find_column_boundary_short in H by assumption. discriminate. }
  split; [exact Ge|].
  destruct (for_each (count_into_bin (pw / 20)%float) xs (repeat 0%Z 20))
    as [bins|e] eqn:B.
  - rewrite (find_column_boundary_binned _ _ bins Ge B) in H.
    unfold boundary_of in H.
    destruct (valleys bins) as [|v vs] eqn:V; [discriminate|].
    injection H as <-.
    set (k := item (v :: vs) (Z.of_nat (length (v :: vs) / 2))).
    assert (Hk : In k (valleys bins)).
    { rewrite V. unfold k, item. apply nth_In. rewrite Nat2Z.id.
      apply Nat.div_lt; cbn [length]; lia. }
    unfold valleys in Hk. apply filter_In in Hk. destruct Hk as [R Vk].
    apply range_bounds in R.
    exists bins, k. repeat split; auto; lia.
  - rewrite (find_column_boundary_raise _ _ e Ge B) in H. discriminate.
Qed.

Lemma find_column_boundary_on_bin_edge_witness :
  exists bins k,
    for_each (count_into_bin (2000 / 20)%float) [10; 10; 250; 250]%float
             (repeat 0%Z 20) = Ok bins
    /\ (1 <= k <= 18)%Z
    /\ valley bins k = true
    /\ 100%float = (float_of_int k * (2000 / 20))%float.
Proof.
  apply (find_column_boundary_on_bin_edge [10; 10; 250; 250]%float
           2000%float 100%float).
  vm_compute. reflexivity.
Defined.

(** X4. A returning call of [detect_columns] has split the blocks of the
    list by one boundary: a block is in column 0 when its left edge is below
    the boundary, in column 1 otherwise. So every block is in column 0 or 1,
    and every block of column 0 starts strictly left of every block of
    column 1. *)
Theorem detect_columns_separates (blocks : list ref) (h h' : heap)
  (out : list ref) :
  detect_columns blocks h = (h', Ok out) ->
  exists b : float,
    (forall a, In a blocks ->
               column (h' a) = if flt (x0 h a) b then 0%Z else 1%Z)
    /\ (forall a, In a blocks -> column (h' a) = 0%Z \/ column (h' a) = 1%Z)
    /\ (forall a c, In a blocks -> In c blocks -> not_nan (x0 h c) ->
                    column (h' a) = 0%Z -> column (h' c) = 1%Z ->
                    flt (x0 h a) (x0 h c) = true).
Proof.
  intros H. destruct (detect_columns_returned _ _ _ _ H) as [-> D].
  destruct D as [[-> ->] | [cb [_ ->]]].
  - exists 0%float. repeat split; intros; contradiction.
  - set (b := match cb with
              | None => (page_width h blocks * 0.5)%float
              | Some b => b
              end).
    assert (C : forall a, In a blocks ->
                column (classified h blocks b a)
                = if flt (x0 h a) b then 0%Z else 1%Z).
    { intros a Ha. now apply classified_column. }
    exists b. split; [exact C|]. split.
    + intros a Ha. rewrite (C a Ha). destruct (flt (x0 h a) b); auto.
    + intros a c Ha Hc Nc. rewrite (C a Ha), (C c Hc).
      destruct (flt (x0 h a) b) eqn:Ea; [|discriminate].
      destruct (flt (x0 h c) b) eqn:Ec; [discriminate|]. intros _ _.
      now apply (flt_below_not_below _ _ b).
Qed.

Lemma detect_columns_separates_witness :
  exists b : float,
    forall a, In a [0; 1; 2; 3]%nat ->
      column (fst (detect_columns [0; 1; 2; 3]%nat two_edge_page) a)
      = if flt (x0 two_edge_page a) b then 0%Z else 1%Z.
Proof.
  destruct (detect_columns_separates [0; 1; 2; 3]%nat two_edge_page
              (fst (detect_columns [0; 1; 2; 3]%nat two_edge_page))
              [0; 1; 2; 3]%nat) as [b [C _]].
  - vm_compute. reflexivity.
  - exists b. exact C.
Defined.

(** X5. [detect_columns] is idempotent: a second call on the same list
    finds the same boundary, returns the list again and leaves every block
    as the first call left it. *)
Theorem detect_columns_idempotent (blocks : list ref) (h h' : heap)
  (out : list ref) :
  detect_columns blocks h = (h', Ok out) ->
  exists h'',
    detect_columns blocks h' = (h'', Ok blocks)
    /\ forall a, h'' a = h' a.
Proof.
  intros H. destruct (detect_columns_returned _ _ _ _ H) as [-> D].
  destruct D as [[-> ->] | [cb [F ->]]].
  - exists h. split; [reflexivity|auto].
  - destruct (list_eq_dec Nat.eq_dec blocks []) as [-> | NE].
    { eexists. split; [reflexivity|auto]. }
    set (b := match cb with
              | None => (page_width h blocks * 0.5)%float
              | Some b => b
              end) in *.
    destruct (geometry_frame h (classified h blocks b) blocks) as [X W].
    { intros a. apply classified_frame. }
    exists (classified (classified h blocks b) blocks b). split.
    + rewrite detect_columns_run by assumption. rewrite X, W, F. reflexivity.
    + intros a. apply classified_again.
Qed.

Lemma detect_columns_idempotent_witness :
  exists h'',
    detect_columns [0; 1; 2; 3]%nat
                   (fst (detect_columns [0; 1; 2; 3]%nat two_edge_page))
    = (h'', Ok [0; 1; 2; 3]%nat).
Proof.
  destruct (detect_columns_idempotent [0; 1; 2; 3]%nat two_edge_page
              (fst (detect_columns [0; 1; 2; 3]%nat two_edge_page))
              [0; 1; 2; 3]%nat) as [h'' [R _]].
  - vm_compute. reflexivity.
  - exists h''. exact R.
Defined.

(** X6. On a page of at least four blocks whose bin width, a twentieth of
    the page width, is zero (a page of width 0, or one so narrow that the
    division underflows), [detect_columns] raises [ZeroDivisionError] and
    has written no column. *)
Theorem detect_columns_zero_width (blocks : list ref) (h : heap) :
  (4 <= length blocks)%nat ->
  feq (page_width h blocks / 20)%float 0%float = true ->
  detect_columns blocks h = (h, Raise ZeroDivisionError).
Proof.
  intros L Z.
  assert (NE : blocks <> []) by (intros ->; cbn in L; lia).
  rewrite detect_columns_run by assumption.
  rewrite (find_column_boundary_raise _ _ ZeroDivisionError);
    [reflexivity|now rewrite x_positions_length|].
  destruct (x_positions h blocks) as [|x xs] eqn:E.
  - pose proof (x_positions_length h blocks) as Len. rewrite E in Len.
    cbn in Len. lia.
  - now apply first_division_raises.
Qed.

Lemma detect_columns_zero_width_witness :
  snd (detect_columns [0; 1; 2; 3]%nat
         (heap_of [block_at 0 5 0 6 0 0; block_at 0 7 0 8 0 0;
                   block_at 0 9 0 10 0 0; block_at 0 11 0 12 0 0]%float))
  = Raise ZeroDivisionError.
Proof.
  rewrite detect_columns_zero_width; [reflexivity| |].
  - cbv [length]. lia.
  - vm_compute. reflexivity.
Defined.

(** X7. The layout that the preview reports after [detect_columns] has
    returned is "no text blocks" only for a page without blocks: a page
    that has a block is reported as one column or two. *)
Theorem preview_layout_no_blocks (blocks : list ref) (h h' : heap)
  (out : list ref) :
  detect_columns blocks h = (h', Ok out) ->
  layout_of h' out = NoTextBlocks <-> blocks = [].
Proof.
  intros H. pose proof (detect_columns_binary _ _ _ _ H) as C.
  destruct (detect_columns_returned _ _ _ _ H) as [-> _].
  split.
  - destruct blocks as [|a l]; [reflexivity|]. intros L. exfalso.
    unfold layout_of, left_blocks, right_blocks in L. cbn [filter] in L.
    destruct (C a (or_introl eq_refl)) as [E | E]; rewrite E in L; cbn in L.
    + destruct (filter _ l); discriminate.
    + destruct (filter (fun b => (column (h' b) =? 0)%Z) l); discriminate.
  - intros ->. reflexivity.
Qed.

Lemma preview_layout_no_blocks_witness :
  layout_of (fst (detect_columns [0; 1; 2]%nat narrow_page)) [0; 1; 2]%nat
  <> NoTextBlocks.
Proof.
  intros L.
  apply (preview_layout_no_blocks [0; 1; 2]%nat narrow_page
           (fst (detect_columns [0; 1; 2]%nat narrow_page)) [0; 1; 2]%nat)
    in L.
  - discriminate.
  - vm_compute. reflexivity.
Defined.

(** X21. The two counts of the preview add up: after [detect_columns]
    has returned, every block of the page is in the list of the left column
    or in the list of the right column, and in one of them only. *)
Theorem preview_counts_add_up (blocks : list ref) (h h' : heap)
  (out : list ref) :
  detect_columns blocks h = (h', Ok out) ->
  (length (left_blocks h' out) + length (right_blocks h' out)
   = length blocks)%nat.
Proof.
  intros H. pose proof (detect_columns_binary _ _ _ _ H) as C.
  destruct (detect_columns_returned _ _ _ _ H) as [-> _].
  unfold left_blocks, right_blocks. clear H.
  induction blocks as [|a l IH]; [reflexivity|]. cbn [filter length].
  assert (IH' := IH (fun x Hx => C x (or_intror Hx))).
  destruct (C a (or_introl eq_refl)) as [E | E]; rewrite E;
    cbn [Z.eqb Pos.eqb length]; lia.
Qed.

Lemma preview_counts_add_up_witness :
  (length (left_blocks (fst (detect_columns [0; 1; 2; 3]%nat two_edge_page))
                       [0; 1; 2; 3]%nat)
   + length (right_blocks (fst (detect_columns [0; 1; 2; 3]%nat two_edge_page))
                          [0; 1; 2; 3]%nat)
   = 4)%nat.
Proof.
  apply (preview_counts_add_up [0; 1; 2; 3]%nat two_edge_page
           (fst (detect_columns [0; 1; 2; 3]%nat two_edge_page))
           [0; 1; 2; 3]%nat).
  vm_compute. reflexivity.
Defined.

(** ** The reading-order reconstruction, continued *)

Module ReorderMore.

Lemma all_y_coords_distinct h l r :
  distinct_keys feq (fun y => y) (all_y_coords (y_map h l) (y_map h r)).
Proof.
  unfold all_y_coords, sorted.
  eapply distinct_keys_perm; [exact feq_sym|apply sort_by_perm|].
  apply set_union_distinct, set_of_distinct.
Qed.

(** Different rows emit different blocks of a side. *)
Lemma emit_side_NoDup h l ys :
  distinct_keys feq (fun y => y) ys ->
  NoDup (flat_map (fun y => opt_list (last_with feq (y0 h) l y)) ys).
Proof.
  unfold distinct_keys. induction 1 as [|y ys Hy Hys IH]; cbn; [constructor|].
  destruct (last_with feq (y0 h) l y) as [a|] eqn:E; cbn; [|exact IH].
  constructor; [|exact IH].
  intros Hin. apply in_flat_map in Hin. destruct Hin as [y' [Hy' Hin]].
  destruct (last_with feq (y0 h) l y') as [b|] eqn:E'; [|contradiction].
  destruct Hin as [-> | []].
  apply last_with_Some in E, E'. destruct E as [_ E], E' as [_ E'].
  rewrite Forall_forall in Hy. specialize (Hy _ Hy'). cbv beta in Hy.
  apply feq_sym in E. pose proof (feq_trans _ _ _ E E') as T. congruence.
Qed.

Lemma emit_side_In h l ys a :
  In a (flat_map (fun y => opt_list (last_with feq (y0 h) l y)) ys) ->
  In a l.
Proof.
  intros H. apply in_flat_map in H. destruct H as [y [_ H]].
  destruct (last_with feq (y0 h) l y) as [b|] eqn:E; [|contradiction].
  destruct H as [<- | []]. now apply last_with_Some in E.
Qed.

Lemma interleave_NoDup h l r :
  (forall a, In a l -> ~ In a r) -> NoDup (_interleave_columns h l r).
Proof.
  intros D. rewrite interleave_rows. unfold emit_row.
  eapply Permutation_NoDup;
    [symmetry; apply flat_map_app_perm|].
  apply NoDup_app.
  - apply emit_side_NoDup, all_y_coords_distinct.
  - apply emit_side_NoDup, all_y_coords_distinct.
  - intros a Ha Hb. apply emit_side_In in Ha, Hb. now apply (D a).
Qed.

Lemma reorder_page_NoDup h l : NoDup l -> NoDup (reorder_page h l).
Proof.
  intros N. unfold reorder_page.
  set (s := sort_by flt (fun b => bbox1 (h b)) l).
  assert (Ns : NoDup s) by (eapply Permutation_NoDup; [apply sort_by_perm|exact N]).
  destruct (filter (fun b => (column (h b) =? 0)%Z) s) as [|x lf] eqn:L;
    [exact Ns|].
  destruct (filter (fun b => (column (h b) =? 1)%Z) s) as [|z rt] eqn:R;
    [exact Ns|].
  apply interleave_NoDup. intros a Ha Hb.
  rewrite <- L in Ha. rewrite <- R in Hb.
  apply filter_In in Ha, Hb. destruct Ha as [_ Ha], Hb as [_ Hb].
  apply Z.eqb_eq in Ha, Hb. congruence.
Qed.

Lemma NoDup_flat_map_pages {A : Type} (pg : A -> Z) (seg : Z -> list A) l :
  NoDup l ->
  (forall p, NoDup (seg p)) ->
  (forall p a, In a (seg p) -> pg a = p) ->
  NoDup (flat_map seg l).
Proof.
  intros N Hn Hp. induction N as [|p l Hpl Nl IH]; cbn; [constructor|].
  apply NoDup_app; [apply Hn|exact IH|].
  intros a Ha Hb. apply in_flat_map in Hb. destruct Hb as [q [Hq Hb]].
  apply Hp in Ha, Hb. subst. contradiction.
Qed.

Lemma flat_map_ext_In {A B : Type} (f g : A -> list B) l :
  (forall a, In a l -> f a = g a) -> flat_map f l = flat_map g l.
Proof.
  induction l as [|x l IH]; intros H; cbn; [reflexivity|].
  rewrite (H x) by now left. f_equal. apply IH. intros a Ha. apply H. now right.
Qed.

(** The blocks of a list, page by page. *)
Lemma pages_partition {A : Type} (pg : A -> Z) ps :
  NoDup ps ->
  forall l : list A,
    (forall a, In a l -> In (pg a) ps) ->
    Permutation l (flat_map (fun p => filter (fun a => (pg a =? p)%Z) l) ps).
Proof.
  induction 1 as [|p ps Hp Nps IH]; intros l H; cbn.
  - destruct l as [|a l]; [constructor|]. destruct (H a (or_introl eq_refl)).
  - set (rest := filter (fun a => negb (pg a =? p)%Z) l).
    assert (R : flat_map (fun q => filter (fun a => (pg a =? q)%Z) l) ps
                = flat_map (fun q => filter (fun a => (pg a =? q)%Z) rest) ps).
    { apply flat_map_ext_In. intros q Hq. unfold rest.
      clear -Hq Hp. induction l as [|a l IHl]; cbn; [reflexivity|].
      destruct (Z.eqb_spec (pg a) p) as [E | N]; cbn.
      - destruct (Z.eqb_spec (pg a) q) as [E' | _]; [|exact IHl].
        exfalso. apply Hp. congruence.
      - destruct (pg a =? q)%Z; [f_equal|]; exact IHl. }
    rewrite R, <- (IH rest).
    + unfold rest. apply filter_split_perm.
      intros a _. now rewrite negb_involutive.
    + intros a Ha. unfold rest in Ha. apply filter_In in Ha.
      destruct Ha as [Ha N]. destruct (H a Ha) as [E | Hin]; [|exact Hin].
      rewrite E, Z.eqb_refl in N. discriminate.
Qed.

(** The top edges of what a two-column page emits do not decrease. *)
Lemma rows_ascending h l r ys :
  strictly_ascending flt (fun y => y) ys ->
  ascending flt (y0 h) (flat_map (emit_row h l r) ys).
Proof.
  unfold strictly_ascending, ascending.
  induction 1 as [|y ys Hys IH Hy]; cbn; [constructor|].
  assert (K : forall a, In a (emit_row h l r y) -> feq (y0 h a) y = true).
  { intros a Ha. unfold emit_row in Ha. apply in_app_or in Ha.
    destruct Ha as [Ha | Ha];
      (destruct (last_with feq (y0 h) _ y) as [b|] eqn:E; [|contradiction]);
      destruct Ha as [<- | []]; now apply last_with_Some in E. }
  assert (Later : forall a b, In a (emit_row h l r y) ->
                              In b (flat_map (emit_row h l r) ys) ->
                              flt (y0 h b) (y0 h a) = false).
  { intros a b Ha Hb. apply in_flat_map in Hb. destruct Hb as [y' [Hy' Hb]].
    assert (Kb : feq (y0 h b) y' = true).
    { unfold emit_row in Hb. apply in_app_or in Hb.
      destruct Hb as [Hb | Hb];
        (destruct (last_with feq (y0 h) _ y') as [c|] eqn:E; [|contradiction]);
        destruct Hb as [<- | []]; now apply last_with_Some in E. }
    rewrite Forall_forall in Hy. specialize (Hy _ Hy'). cbv beta in Hy.
    rewrite (flt_feq_l _ _ _ Kb), (flt_feq_r _ _ _ (K a Ha)).
    now apply flt_asym. }
  assert (Same : forall a b, In a (emit_row h l r y) ->
                             In b (emit_row h l r y) ->
                             flt (y0 h b) (y0 h a) = false).
  { intros a b Ha Hb.
    rewrite (flt_feq_l _ _ _ (K b Hb)), (flt_feq_r _ _ _ (K a Ha)).
    apply flt_irrefl. }
  induction (emit_row h l r y) as [|a row IHrow]; cbn; [exact IH|].
  constructor.
  - apply IHrow.
    + intros b Hb. apply K. now right.
    + intros b c Hb Hc. apply Later; [now right|exact Hc].
    + intros b c Hb Hc. apply Same; now right.
  - apply Forall_app. split; apply Forall_forall; intros b Hb.
    + apply Same; [now left|now right].
    + apply Later; [now left|exact Hb].
Qed.

Lemma reorder_page_ascending h l :
  Forall (fun a => not_nan (y0 h a)) l -> ascending flt (y0 h) (reorder_page h l).
Proof.
  intros N.
  set (s := sort_by flt (y0 h) l).
  destruct (filter (in_column h 0) s) as [|x lf] eqn:L.
  { rewrite reorder_page_single.
    - now apply (sort_by_ascending flt feq not_nan (y0 h) float_key_order).
    - left. destruct (filter (in_column h 0) l) as [|a t] eqn:E; [reflexivity|].
      assert (X : In a (filter (in_column h 0) s)).
      { apply filter_In. assert (Y : In a (filter (in_column h 0) l))
          by (rewrite E; now left).
        apply filter_In in Y. destruct Y as [Y1 Y2]. split; [|exact Y2].
        now apply sort_by_In. }
      rewrite L in X. contradiction. }
  destruct (filter (in_column h 1) s) as [|z rt] eqn:R.
  { rewrite reorder_page_single.
    - now apply (sort_by_ascending flt feq not_nan (y0 h) float_key_order).
    - right. destruct (filter (in_column h 1) l) as [|a t] eqn:E; [reflexivity|].
      assert (X : In a (filter (in_column h 1) s)).
      { apply filter_In. assert (Y : In a (filter (in_column h 1) l))
          by (rewrite E; now left).
        apply filter_In in Y. destruct Y as [Y1 Y2]. split; [|exact Y2].
        now apply sort_by_In. }
      rewrite R in X. contradiction. }
  rewrite (reorder_page_two h l); fold s; rewrite ?L, ?R; try discriminate.
  rewrite interleave_rows. apply rows_ascending.
  assert (Hside : forall c, Forall (fun a => not_nan (y0 h a))
                                   (filter (in_column h c) s)).
  { intros c. apply Forall_forall. intros a Ha.
    apply filter_In in Ha. destruct Ha as [Ha _].
    apply sort_by_In in Ha. rewrite Forall_forall in N. auto. }
  apply all_y_coords_strictly; [rewrite <- L|rewrite <- R]; apply Hside.
Qed.

Lemma reorder_page_cases h l :
  let s := sort_by flt (y0 h) l in
  reorder_page h l = s
  \/ (filter (in_column h 0) s <> [] /\ filter (in_column h 1) s <> []
      /\ reorder_page h l
         = _interleave_columns h (filter (in_column h 0) s)
                               (filter (in_column h 1) s)).
Proof.
  cbn zeta. unfold reorder_page.
  change (fun b => bbox1 (h b)) with (y0 h).
  change (fun b => (column (h b) =? 0)%Z) with (in_column h 0).
  change (fun b => (column (h b) =? 1)%Z) with (in_column h 1).
  destruct (filter (in_column h 0) _) as [|x lf]; [now left|].
  destruct (filter (in_column h 1) _) as [|z rt]; [now left|].
  right. repeat split; discriminate.
Qed.

Lemma Permutation_flat_map_pointwise {A B : Type} (f g : A -> list B) l :
  (forall a, In a l -> Permutation (f a) (g a)) ->
  Permutation (flat_map f l) (flat_map g l).
Proof.
  induction l as [|x l IH]; intros H; cbn; [constructor|].
  apply Permutation_app; [apply H; now left|].
  apply IH. intros a Ha. apply H. now right.
Qed.

(** A page without two blocks of one column at the same height comes out
    whole. *)
Lemma reorder_page_perm h l :
  Forall (fun a => not_nan (y0 h a)) l ->
  (forall a, In a l -> column (h a) = 0%Z \/ column (h a) = 1%Z) ->
  (forall c, distinct_keys feq (y0 h) (filter (in_column h c) l)) ->
  Permutation l (reorder_page h l).
Proof.
  intros N C D. set (s := sort_by flt (y0 h) l).
  assert (P : Permutation l s) by apply sort_by_perm.
  destruct (reorder_page_cases h l) as [-> | [_ [_ ->]]]; [exact P|].
  fold s.
  assert (Hside : forall c, Forall (fun a => not_nan (y0 h a))
                                   (filter (in_column h c) s)).
  { intros c. apply Forall_forall. intros a Ha.
    apply filter_In in Ha. destruct Ha as [Ha _].
    apply sort_by_In in Ha. rewrite Forall_forall in N. auto. }
  assert (Ds : forall c, distinct_keys feq (y0 h) (filter (in_column h c) s)).
  { intros c. eapply distinct_keys_perm; [exact feq_sym| |apply (D c)].
    now apply Permutation_filter. }
  rewrite <- (proj1 (interleave_columns_blocks h _ _ (Hside 0%Z) (Hside 1%Z))
                (Ds 0%Z) (Ds 1%Z)).
  rewrite P at 1. apply filter_split_perm. intros a Ha.
  apply sort_by_In in Ha. unfold in_column.
  destruct (C a Ha) as [-> | ->]; reflexivity.
Qed.

Lemma no_collision_side h blocks p c :
  no_collision h blocks ->
  distinct_keys feq (y0 h)
                (filter (in_column h c) (filter (on_page h p) blocks)).
Proof.
  unfold no_collision, distinct_keys.
  induction 1 as [|x l Hx Hl IH]; cbn [filter]; [constructor|].
  destruct (on_page h p x) eqn:P; cbn [filter]; [|exact IH].
  destruct (in_column h c x) eqn:Cx; [|exact IH].
  constructor; [|exact IH].
  apply Forall_forall. intros b Hb.
  apply filter_In in Hb. destruct Hb as [Hb Cb].
  apply filter_In in Hb. destruct Hb as [Hb Pb].
  rewrite Forall_forall in Hx. apply (Hx b Hb).
  - unfold on_page in *. apply Z.eqb_eq in P, Pb. congruence.
  - unfold in_column in *. apply Z.eqb_eq in Cx, Cb. congruence.
Qed.

Lemma reorder_permutation h blocks :
  Forall (fun a => not_nan (y0 h a)) blocks ->
  (forall a, In a blocks -> column (h a) = 0%Z \/ column (h a) = 1%Z) ->
  no_collision h blocks ->
  Permutation blocks (reorder_text_blocks h blocks).
Proof.
  intros N C D. rewrite reorder_pages.
  rewrite (pages_partition (fun a => page_num (h a)) (page_nums h blocks)) at 1.
  - apply Permutation_flat_map_pointwise. intros p _.
    change (fun a => (page_num (h a) =? p)%Z) with (on_page h p).
    apply reorder_page_perm.
    + apply Forall_forall. intros a Ha. apply filter_In in Ha.
      rewrite Forall_forall in N. now apply N.
    + intros a Ha. apply filter_In in Ha. now apply C.
    + intros c. now apply no_collision_side.
  - apply strictly_sorted_NoDup, page_nums_strictly.
  - intros a Ha. apply page_nums_In. eauto.
Qed.

End ReorderMore.

Import ReorderMore.

(** X8. [reorder_text_blocks] makes up no block and repeats none: every
    block of the output is a block of the input, and when the input lists no
    block twice, neither does the output, which is then at most as long. *)
Theorem reorder_text_blocks_no_duplicates (h : heap) (blocks : list ref) :
  (forall a, In a (reorder_text_blocks h blocks) -> In a blocks)
  /\ (NoDup blocks ->
      NoDup (reorder_text_blocks h blocks)
      /\ (length (reorder_text_blocks h blocks) <= length blocks)%nat).
Proof.
  assert (I : forall a, In a (reorder_text_blocks h blocks) -> In a blocks).
  { intros a Ha. rewrite reorder_pages in Ha. apply in_flat_map in Ha.
    destruct Ha as [p [_ Ha]]. apply reorder_page_In, filter_In in Ha.
    apply Ha. }
  split; [exact I|]. intros N.
  assert (N' : NoDup (reorder_text_blocks h blocks)).
  { rewrite reorder_pages.
    apply (NoDup_flat_map_pages (fun a => page_num (h a))).
    - apply strictly_sorted_NoDup, page_nums_strictly.
    - intros p. apply reorder_page_NoDup. now apply NoDup_filter.
    - intros p a Ha. apply reorder_page_In, filter_In in Ha.
      now apply Z.eqb_eq. }
  split; [exact N'|]. now apply NoDup_incl_length.
Qed.

Lemma reorder_text_blocks_no_duplicates_witness :
  NoDup (reorder_text_blocks colliding_page [0; 1; 2]%nat).
Proof.
  apply (reorder_text_blocks_no_duplicates colliding_page [0; 1; 2]%nat).
  repeat constructor; cbn; intuition discriminate.
Defined.

(** X9. When every block is in column 0 or 1 and no two blocks of one page
    and one column have the same top edge, [reorder_text_blocks] loses
    nothing: its output is a rearrangement of its input. *)
Theorem reorder_text_blocks_lossless (h : heap) (blocks : list ref) :
  Forall (fun a => not_nan (y0 h a)) blocks ->
  (forall a, In a blocks -> column (h a) = 0%Z \/ column (h a) = 1%Z) ->
  no_collision h blocks ->
  Permutation blocks (reorder_text_blocks h blocks).
Proof. apply reorder_permutation. Qed.

Lemma reorder_text_blocks_lossless_witness :
  Permutation [0; 1; 2; 3]%nat
              (reorder_text_blocks two_column_page [0; 1; 2; 3]%nat).
Proof.
  apply reorder_text_blocks_lossless.
  - repeat constructor.
  - intros a [<- | [<- | [<- | [<- | []]]]]; auto.
  - repeat constructor; intros P Q; vm_compute in Q; try discriminate;
      vm_compute; reflexivity.
Defined.

(** X10. Within a page the output follows the page downwards: among the
    blocks of one page, whether the page has one column or two, none comes
    before a block of smaller top edge. *)
Theorem reorder_text_blocks_rows_ascending (h : heap) (blocks : list ref)
  (p : Z) :
  Forall (fun a => not_nan (y0 h a)) (filter (on_page h p) blocks) ->
  ascending flt (y0 h)
            (filter (on_page h p) (reorder_text_blocks h blocks)).
Proof.
  intros N. rewrite reorder_page_segment. now apply reorder_page_ascending.
Qed.

Lemma reorder_text_blocks_rows_ascending_witness :
  ascending flt (y0 two_column_page)
            (filter (on_page two_column_page 0)
                    (reorder_text_blocks two_column_page [0; 1; 2; 3]%nat)).
Proof.
  apply reorder_text_blocks_rows_ascending. repeat constructor.
Defined.

(** ** Reordering twice *)

Module ReorderTwice.

Lemma sort_by_ascending_id {A K : Type} (ltb : K -> K -> bool) (key : A -> K) l :
  ascending ltb key l -> sort_by ltb key l = l.
Proof.
  unfold ascending. induction 1 as [|x l Hl IH Hx]; [reflexivity|].
  rewrite sort_by_cons, IH. destruct l as [|y t]; [reflexivity|].
  cbn [sort_insert]. inversion Hx as [|? ? Hxy _]; subst. now rewrite Hxy.
Qed.

Lemma sorted_head_min {A : Type} (pg : A -> Z) x X z :
  StronglySorted Z.le (map pg (x :: X)) -> In z (x :: X) -> (pg x <= pg z)%Z.
Proof.
  cbn [map]. intros S [<- | Hz]; [lia|].
  apply StronglySorted_inv in S. destruct S as [_ F].
  rewrite Forall_forall in F. apply F. now apply in_map.
Qed.

(** A list whose pages never decrease is determined by its pages. *)
Lemma page_sorted_ext {A : Type} (pg : A -> Z) :
  forall X Y : list A,
    StronglySorted Z.le (map pg X) -> StronglySorted Z.le (map pg Y) ->
    (forall p, filter (fun a => (pg a =? p)%Z) X
               = filter (fun a => (pg a =? p)%Z) Y) ->
    X = Y.
Proof.
  induction X as [|x X IH]; intros Y SX SY H.
  - destruct Y as [|y Y]; [reflexivity|].
    specialize (H (pg y)). cbn in H. rewrite Z.eqb_refl in H. discriminate.
  - destruct Y as [|y Y].
    { specialize (H (pg x)). cbn in H. rewrite Z.eqb_refl in H. discriminate. }
    assert (Le1 : (pg y <= pg x)%Z).
    { assert (I : In x (filter (fun a => (pg a =? pg x)%Z) (y :: Y))).
      { rewrite <- H. cbn. rewrite Z.eqb_refl. now left. }
      apply filter_In in I. destruct I as [I _].
      now apply (sorted_head_min pg y Y x). }
    assert (Le2 : (pg x <= pg y)%Z).
    { assert (I : In y (filter (fun a => (pg a =? pg y)%Z) (x :: X))).
      { rewrite H. cbn. rewrite Z.eqb_refl. now left. }
      apply filter_In in I. destruct I as [I _].
      now apply (sorted_head_min pg x X y). }
    assert (E : pg x = pg y) by lia.
    assert (Hxy : x = y /\ forall p, filter (fun a => (pg a =? p)%Z) X
                                     = filter (fun a => (pg a =? p)%Z) Y).
    { split.
      - specialize (H (pg x)). cbn in H. rewrite <- E, Z.eqb_refl in H.
        now injection H.
      - intros p. specialize (H p). cbn in H. rewrite <- E in H.
        destruct (pg x =? p)%Z; [now injection H|exact H]. }
    destruct Hxy as [-> Ht]. f_equal.
    apply IH; [| |exact Ht].
    + cbn [map] in SX. now apply StronglySorted_inv in SX.
    + cbn [map] in SY. now apply StronglySorted_inv in SY.
Qed.

(** Two strictly ascending lists of heights with the same heights, up to
    [==], are equal, up to [==], place by place. *)
Lemma ascending_classes_Forall2 :
  forall ys ys' : list float,
    strictly_ascending flt (fun y => y) ys ->
    strictly_ascending flt (fun y => y) ys' ->
    (forall y, In y ys -> exists y', In y' ys' /\ feq y y' = true) ->
    (forall y', In y' ys' -> exists y, In y ys /\ feq y y' = true) ->
    Forall2 (fun y y' => feq y y' = true) ys ys'.
Proof.
  unfold strictly_ascending.
  induction ys as [|y t IH]; intros ys' S S' H H'.
  - destruct ys' as [|y' t']; [constructor|].
    destruct (H' y' (or_introl eq_refl)) as [z [[] _]].
  - destruct ys' as [|y' t'].
    { destruct (H y (or_introl eq_refl)) as [z [[] _]]. }
    apply StronglySorted_inv in S, S'.
    destruct S as [St Fy], S' as [St' Fy'].
    rewrite Forall_forall in Fy, Fy'.
    assert (E : feq y y' = true).
    { destruct (H y (or_introl eq_refl)) as [z' [[<- | Hz'] Ez']];
        [exact Ez'|].
      destruct (H' y' (or_introl eq_refl)) as [z [[<- | Hz] Ez]];
        [exact Ez|].
      (* y' < z' == y and y < z == y' *)
      pose proof (Fy' _ Hz') as L1. pose proof (Fy _ Hz) as L2.
      cbv beta in L1, L2.
      rewrite <- (flt_feq_r _ _ _ Ez') in L1.
      rewrite (flt_feq_r _ _ _ Ez) in L2.
      rewrite (flt_asym _ _ L1) in L2. discriminate. }
    constructor; [exact E|].
    apply IH; [exact St|exact St'| |].
    + intros u Hu. destruct (H u (or_intror Hu)) as [u' [[<- | Hu'] Eu]];
        [|eauto].
      exfalso. pose proof (Fy _ Hu) as L. cbv beta in L.
      apply flt_not_feq in L. apply feq_sym in Eu.
      rewrite (feq_trans _ _ _ E Eu) in L. discriminate.
    + intros u' Hu'. destruct (H' u' (or_intror Hu')) as [u [[<- | Hu] Eu]];
        [|eauto].
      exfalso. pose proof (Fy' _ Hu') as L. cbv beta in L.
      apply flt_not_feq in L. apply feq_sym in E.
      rewrite (feq_trans _ _ _ E Eu) in L. discriminate.
Qed.


Lemma flat_map_Forall2 {A B C : Type} (R : A -> B -> Prop)
  (f : A -> list C) (g : B -> list C) l l' :
  Forall2 R l l' ->
  (forall x x', In x l -> R x x' -> f x = g x') ->
  flat_map f l = flat_map g l'.
Proof.
  induction 1 as [|x x' l l' Hx Hl IH]; intros H; cbn; [reflexivity|].
  rewrite (H x x') by (auto; now left). f_equal.
  apply IH. intros y y' Hy. apply H. now right.
Qed.

Lemma last_with_found h l a q :
  In a l -> feq (y0 h a) q = true ->
  exists b, last_with feq (y0 h) l q = Some b.
Proof.
  intros Ha E. unfold last_with.
  destruct (find _ (rev l)) as [b|] eqn:F; [eauto|].
  apply in_rev in Ha. apply (find_none _ _ F) in Ha. cbv beta in Ha.
  congruence.
Qed.

(** *** The rows of the rows *)

Section Rows.
Variables (h : heap) (l : list ref) (ys : list float).
Hypothesis Dys : distinct_keys feq (fun y => y) ys.

Let side : list ref :=
  flat_map (fun y => opt_list (last_with feq (y0 h) l y)) ys.

(** Among the blocks that the rows emit, the block at a height is the block
    that the rows emit at that height. *)
Lemma last_with_emitted y y' :
  In y ys -> feq y y' = true ->
  last_with feq (y0 h) side y' = last_with feq (y0 h) l y.
Proof.
  intros Hy E.
  destruct (last_with feq (y0 h) l y) as [a|] eqn:La.
  - destruct (last_with_Some _ _ _ _ _ La) as [Ha Ea].
    assert (Hin : In a side).
    { apply in_flat_map. exists y. split; [exact Hy|]. rewrite La. now left. }
    destruct (last_with_found h side a y' Hin (feq_trans _ _ _ Ea E))
      as [b Lb].
    rewrite Lb. f_equal.
    destruct (last_with_Some _ _ _ _ _ Lb) as [Hb Eb].
    apply in_flat_map in Hb. destruct Hb as [y2 [Hy2 Hb]].
    destruct (last_with feq (y0 h) l y2) as [c|] eqn:Lc; [|contradiction].
    destruct Hb as [-> | []].
    destruct (last_with_Some _ _ _ _ _ Lc) as [_ Ec].
    assert (E2 : feq y2 y = true).
    { apply feq_sym in Ec. apply feq_sym in E.
      eapply feq_trans; [exact Ec|]. eapply feq_trans; eassumption. }
    assert (y2 = y).
    { apply (distinct_keys_eq flt feq not_nan (fun y => y) float_key_order
               ys); assumption. }
    subst y2. congruence.
  - destruct (last_with feq (y0 h) side y') as [b|] eqn:Lb; [|reflexivity].
    exfalso. destruct (last_with_Some _ _ _ _ _ Lb) as [Hb Eb].
    apply emit_side_In in Hb.
    destruct (last_with_found h l b y Hb) as [c Lc]; [|congruence].
    apply feq_sym in E. eapply feq_trans; eassumption.
Qed.

End Rows.

Section Page.
Variables (h : heap) (L R : list ref).
Hypothesis NL : Forall (fun a => not_nan (y0 h a)) L.
Hypothesis NR : Forall (fun a => not_nan (y0 h a)) R.

Let ys : list float := all_y_coords (y_map h L) (y_map h R).
Let L' : list ref := flat_map (fun y => opt_list (last_with feq (y0 h) L y)) ys.
Let R' : list ref := flat_map (fun y => opt_list (last_with feq (y0 h) R y)) ys.

Lemma emitted_not_nan l :
  Forall (fun a => not_nan (y0 h a)) l ->
  Forall (fun a => not_nan (y0 h a))
         (flat_map (fun y => opt_list (last_with feq (y0 h) l y)) ys).
Proof.
  intros N. apply Forall_forall. intros a Ha. apply emit_side_In in Ha.
  rewrite Forall_forall in N. auto.
Qed.

Lemma emitted_covers l a :
  In a l -> (exists y, In y ys /\ feq y (y0 h a) = true) ->
  exists b y,
    In y ys /\ feq (y0 h b) y = true
    /\ In b (flat_map (fun y => opt_list (last_with feq (y0 h) l y)) ys).
Proof.
  intros Ha [y [Hy Ey]].
  destruct (last_with_found h l a y Ha (feq_sym _ _ Ey)) as [b Lb].
  exists b, y. split; [exact Hy|]. split; [now apply last_with_Some in Lb|].
  apply in_flat_map. exists y. split; [exact Hy|]. rewrite Lb. now left.
Qed.

Lemma second_heights :
  Forall2 (fun y y' => feq y y' = true)
          ys (all_y_coords (y_map h L') (y_map h R')).
Proof.
  assert (NL' : Forall (fun a => not_nan (y0 h a)) L')
    by now apply emitted_not_nan.
  assert (NR' : Forall (fun a => not_nan (y0 h a)) R')
    by now apply emitted_not_nan.
  apply ascending_classes_Forall2.
  - now apply all_y_coords_strictly.
  - now apply all_y_coords_strictly.
  - intros y Hy.
    destruct (all_y_coords_from h L R y Hy) as [a [Ha Ea]].
    assert (Cov : exists y1, In y1 ys /\ feq y1 (y0 h a) = true).
    { apply all_y_coords_covers; assumption. }
    assert (G : exists b, In b (L' ++ R') /\ feq (y0 h b) y = true).
    { apply in_app_or in Ha. destruct Ha as [Ha | Ha].
      - destruct (last_with_found h L a y Ha) as [b Lb].
        { rewrite Ea. apply feq_refl. rewrite <- Ea.
          rewrite Forall_forall in NL. now apply NL. }
        exists b. split; [|now apply last_with_Some in Lb].
        apply in_or_app. left. apply in_flat_map. exists y.
        split; [exact Hy|]. rewrite Lb. now left.
      - destruct (last_with_found h R a y Ha) as [b Lb].
        { rewrite Ea. apply feq_refl. rewrite <- Ea.
          rewrite Forall_forall in NR. now apply NR. }
        exists b. split; [|now apply last_with_Some in Lb].
        apply in_or_app. right. apply in_flat_map. exists y.
        split; [exact Hy|]. rewrite Lb. now left. }
    destruct G as [b [Hb Eb]].
    destruct (all_y_coords_covers h L' R' NL' NR' b Hb) as [y' [Hy' Ey']].
    exists y'. split; [exact Hy'|].
    apply feq_sym. eapply feq_trans; eassumption.
  - intros y' Hy'.
    destruct (all_y_coords_from h L' R' y' Hy') as [b [Hb <-]].
    apply in_app_or in Hb.
    destruct Hb as [Hb | Hb]; apply in_flat_map in Hb;
      destruct Hb as [y [Hy Hb]];
      (destruct (last_with feq (y0 h) _ y) as [c|] eqn:Lc; [|contradiction]);
      destruct Hb as [-> | []]; apply last_with_Some in Lc;
      exists y; (split; [exact Hy|]); apply feq_sym, Lc.
Qed.

(** Merging what a merge has emitted gives it again. *)
Lemma interleave_again :
  _interleave_columns h L' R' = _interleave_columns h L R.
Proof.
  rewrite !interleave_rows. symmetry.
  apply (flat_map_Forall2 _ _ _ _ _ second_heights).
  intros y y' Hy E. unfold emit_row, L', R'.
  pose proof (all_y_coords_distinct h L R) as D.
  now rewrite !(last_with_emitted h _ ys D y y' Hy E).
Qed.

End Page.

Lemma filter_emitted h (f : ref -> bool) l r ys :
  (forall a, In a l -> f a = true) -> (forall a, In a r -> f a = false) ->
  filter f (flat_map (emit_row h l r) ys)
  = flat_map (fun y => opt_list (last_with feq (y0 h) l y)) ys.
Proof.
  intros Hl Hr. rewrite filter_flat_map. apply flat_map_ext. intros y.
  unfold emit_row. rewrite filter_app.
  rewrite (filter_all f), (filter_none f), app_nil_r; [reflexivity| |].
  - intros a Ha. destruct (last_with feq (y0 h) r y) as [b|] eqn:E;
      [|contradiction].
    destruct Ha as [<- | []]. apply Hr. now apply last_with_Some in E.
  - intros a Ha. destruct (last_with feq (y0 h) l y) as [b|] eqn:E;
      [|contradiction].
    destruct Ha as [<- | []]. apply Hl. now apply last_with_Some in E.
Qed.

Lemma filter_emitted_r h (f : ref -> bool) l r ys :
  (forall a, In a l -> f a = false) -> (forall a, In a r -> f a = true) ->
  filter f (flat_map (emit_row h l r) ys)
  = flat_map (fun y => opt_list (last_with feq (y0 h) r y)) ys.
Proof.
  intros Hl Hr. rewrite filter_flat_map. apply flat_map_ext. intros y.
  unfold emit_row. rewrite filter_app.
  rewrite (filter_none f), (filter_all f); [reflexivity| |].
  - intros a Ha. destruct (last_with feq (y0 h) r y) as [b|] eqn:E;
      [|contradiction].
    destruct Ha as [<- | []]. apply Hr. now apply last_with_Some in E.
  - intros a Ha. destruct (last_with feq (y0 h) l y) as [b|] eqn:E;
      [|contradiction].
    destruct Ha as [<- | []]. apply Hl. now apply last_with_Some in E.
Qed.


Lemma emitted_nonempty h L R l :
  Forall (fun a => not_nan (y0 h a)) L ->
  Forall (fun a => not_nan (y0 h a)) R ->
  l <> [] -> incl l (L ++ R) ->
  flat_map (fun y => opt_list (last_with feq (y0 h) l y))
           (all_y_coords (y_map h L) (y_map h R)) <> [].
Proof.
  intros NL NR NE I. destruct l as [|a t]; [contradiction|].
  assert (Ha : In a (L ++ R)) by (apply I; now left).
  destruct (all_y_coords_covers h L R NL NR a Ha) as [y [Hy Ey]].
  destruct (emitted_covers h L R (a :: t) a (or_introl eq_refl))
    as [b [y1 [_ [_ Hb]]]]; [eauto|].
  intros E. rewrite E in Hb. contradiction.
Qed.

(** What the loop body made of a page, it leaves as it is. *)
Lemma reorder_page_again h l :
  Forall (fun a => not_nan (y0 h a)) l ->
  reorder_page h (reorder_page h l) = reorder_page h l.
Proof.
  intros N. set (s := sort_by flt (y0 h) l).
  assert (As : ascending flt (y0 h) s)
    by now apply (sort_by_ascending flt feq not_nan (y0 h) float_key_order).
  assert (Single : filter (in_column h 0) s = []
                   \/ filter (in_column h 1) s = [] ->
                   reorder_page h s = s).
  { intros E. rewrite reorder_page_single; [now apply sort_by_ascending_id|].
    destruct E as [E | E]; [left | right];
      (destruct (filter _ s) as [|a t] eqn:F; [reflexivity|discriminate]). }
  destruct (filter (in_column h 0) s) as [|x lf] eqn:EL.
  { assert (E : reorder_page h l = s).
    { apply reorder_page_single. left.
      destruct (filter (in_column h 0) l) as [|a t] eqn:F; [reflexivity|].
      assert (X : In a (filter (in_column h 0) s)).
      { assert (Y : In a (filter (in_column h 0) l)) by (rewrite F; now left).
        apply filter_In in Y. apply filter_In.
        split; [now apply sort_by_In|apply Y]. }
      rewrite EL in X. contradiction. }
    rewrite E. apply Single. now left. }
  destruct (filter (in_column h 1) s) as [|z rt] eqn:ER.
  { assert (E : reorder_page h l = s).
    { apply reorder_page_single. right.
      destruct (filter (in_column h 1) l) as [|a t] eqn:F; [reflexivity|].
      assert (X : In a (filter (in_column h 1) s)).
      { assert (Y : In a (filter (in_column h 1) l)) by (rewrite F; now left).
        apply filter_In in Y. apply filter_In.
        split; [now apply sort_by_In|apply Y]. }
      rewrite ER in X. contradiction. }
    rewrite E. apply Single. now right. }
  set (L := x :: lf) in *. set (R := z :: rt) in *.
  assert (Hside : forall c, Forall (fun a => not_nan (y0 h a))
                                   (filter (in_column h c) s)).
  { intros c. apply Forall_forall. intros a Ha.
    apply filter_In in Ha. destruct Ha as [Ha _].
    apply sort_by_In in Ha. rewrite Forall_forall in N. auto. }
  assert (NL : Forall (fun a => not_nan (y0 h a)) L)
    by (rewrite <- EL; apply Hside).
  assert (NR : Forall (fun a => not_nan (y0 h a)) R)
    by (rewrite <- ER; apply Hside).
  assert (CL : forall a, In a L -> column (h a) = 0%Z).
  { intros a Ha. rewrite <- EL in Ha. apply filter_In in Ha.
    now apply Z.eqb_eq. }
  assert (CR : forall a, In a R -> column (h a) = 1%Z).
  { intros a Ha. rewrite <- ER in Ha. apply filter_In in Ha.
    now apply Z.eqb_eq. }
  assert (E : reorder_page h l = _interleave_columns h L R).
  { rewrite (reorder_page_two h l); fold s; rewrite ?EL, ?ER;
      (reflexivity || discriminate). }
  rewrite E.
  set (ys := all_y_coords (y_map h L) (y_map h R)).
  set (o := _interleave_columns h L R).
  assert (O : o = flat_map (emit_row h L R) ys) by apply interleave_rows.
  assert (So : sort_by flt (y0 h) o = o).
  { apply sort_by_ascending_id. rewrite O. apply rows_ascending.
    now apply all_y_coords_strictly. }
  assert (FL : filter (in_column h 0) o
               = flat_map (fun y => opt_list (last_with feq (y0 h) L y)) ys).
  { rewrite O. apply filter_emitted; intros a Ha; unfold in_column.
    - now rewrite (CL a Ha).
    - now rewrite (CR a Ha). }
  assert (FR : filter (in_column h 1) o
               = flat_map (fun y => opt_list (last_with feq (y0 h) R y)) ys).
  { rewrite O. apply filter_emitted_r; intros a Ha; unfold in_column.
    - now rewrite (CL a Ha).
    - now rewrite (CR a Ha). }
  rewrite (reorder_page_two h o); rewrite So, ?FL, ?FR.
  - now apply interleave_again.
  - apply emitted_nonempty; try assumption; [discriminate|].
    intros a Ha. apply in_or_app. now left.
  - apply emitted_nonempty; try assumption; [discriminate|].
    intros a Ha. apply in_or_app. now right.
Qed.

Lemma reorder_pages_sorted h blocks :
  StronglySorted Z.le
    (map (fun a => page_num (h a)) (reorder_text_blocks h blocks)).
Proof.
  rewrite reorder_pages. apply flat_map_pages_sorted.
  - apply page_nums_strictly.
  - intros p a Ha. apply reorder_page_In, filter_In in Ha.
    now apply Z.eqb_eq.
Qed.

End ReorderTwice.

Import ReorderTwice.

(** X11. [reorder_text_blocks] is idempotent: reordering a list that was
    reordered gives the same list, on pages of one column and on pages of
    two. *)
Theorem reorder_text_blocks_idempotent (h : heap) (blocks : list ref) :
  Forall (fun a => not_nan (y0 h a)) blocks ->
  reorder_text_blocks h (reorder_text_blocks h blocks)
  = reorder_text_blocks h blocks.
Proof.
  intros N.
  apply (page_sorted_ext (fun a => page_num (h a)));
    try apply reorder_pages_sorted.
  intros p. change (fun a => (page_num (h a) =? p)%Z) with (on_page h p).
  rewrite !reorder_page_segment. apply reorder_page_again.
  apply Forall_forall. intros a Ha. apply filter_In in Ha.
  rewrite Forall_forall in N. now apply N.
Qed.

Lemma reorder_text_blocks_idempotent_witness :
  reorder_text_blocks colliding_page
    (reorder_text_blocks colliding_page [0; 1; 2]%nat)
  = reorder_text_blocks colliding_page [0; 1; 2]%nat.
Proof.
  apply reorder_text_blocks_idempotent. repeat constructor.
Defined.

(** ** The text normaliser, continued *)

Module CleanMore.

(** *** Numeric lines *)

Lemma greedy_digits (d : N -> bool) pos s :
  ~ In LF s ->
  greedy d (match_here [Eos]) pos s =
  if forallb d s then Some (length s) else None.
Proof.
  revert pos. induction s as [|c s IH]; intros pos NL; [reflexivity|].
  cbn [greedy forallb length].
  assert (K : match_here [Eos] pos (c :: s) = None).
  { cbn [match_here]. destruct s as [|c' s']; [|reflexivity].
    destruct (N.eqb_spec c 10) as [-> | _]; [|reflexivity].
    exfalso. apply NL. now left. }
  rewrite K. destruct (d c); [|reflexivity]. cbn [andb].
  rewrite IH by (intros X; apply NL; now right).
  destruct (forallb d s); reflexivity.
Qed.

(** On a line, [^\d+$] matches when the line is not empty and all its
    characters are decimal digits. *)
Lemma match_digits (d : N -> bool) l :
  ~ In LF l -> l <> [] -> re_match [Bos; Plus d; Eos] l = forallb d l.
Proof.
  intros NL NE. destruct l as [|c s]; [contradiction|].
  unfold re_match. cbn [match_here forallb].
  destruct (d c); [|reflexivity]. cbn [andb].
  rewrite greedy_digits by (intros X; apply NL; now right).
  destruct (forallb d s); reflexivity.
Qed.

(** *** Blank texts *)

Lemma sub_scan_chars (p : pattern) repl c :
  forall s pos k,
    In c (sub_scan p repl pos k s) -> In c s \/ In c repl.
Proof.
  induction s as [|x s IH]; intros pos k H; cbn [sub_scan] in H.
  - destruct k; [|contradiction].
    destruct (match_here p pos []); [now right|contradiction].
  - destruct k as [|k].
    + destruct (match_here p pos (x :: s)) as [[|n]|].
      * apply in_app_or in H. destruct H as [H | [<- | H]];
          [now right|left; now left|].
        destruct (IH _ _ H); [left; now right|now right].
      * apply in_app_or in H. destruct H as [H | H]; [now right|].
        destruct (IH _ _ H); [left; now right|now right].
      * destruct H as [<- | H]; [left; now left|].
        destruct (IH _ _ H); [left; now right|now right].
    + destruct (IH _ _ H); [left; now right|now right].
Qed.

Lemma lstrip_blank s : Forall (fun c => isspace c = true) s -> lstrip s = [].
Proof.
  induction 1 as [|c s Hc Hs IH]; cbn; [reflexivity|]. now rewrite Hc.
Qed.

Lemma strip_blank s : Forall (fun c => isspace c = true) s -> strip s = [].
Proof. intros H. unfold strip. now rewrite lstrip_blank. Qed.

(** *** Lengths *)

Lemma greedy_bounds (cls : N -> bool) (k : nat -> str -> option nat) m :
  (forall pos s n, k pos s = Some n -> (m <= n <= length s)%nat) ->
  forall s pos n, greedy cls k pos s = Some n -> (m <= n <= length s)%nat.
Proof.
  intros Hk. induction s as [|c s IH]; intros pos n H; cbn [greedy] in H.
  - now apply Hk in H.
  - destruct (cls c).
    + destruct (greedy cls k (S pos) s) as [n'|] eqn:G.
      * injection H as <-. apply IH in G. cbn [length]. lia.
      * now apply Hk in H.
    + now apply Hk in H.
Qed.

(** A match has at least [min_len] characters and is within the text. *)
Lemma match_here_bounds p :
  forall pos s n,
    match_here p pos s = Some n -> (min_len p <= n <= length s)%nat.
Proof.
  induction p as [|i p IH]; intros pos s n H.
  - cbn in H. injection H as <-. cbn. lia.
  - destruct i as [c|cls|cls| |]; cbn [match_here min_len] in *.
    + destruct s as [|a s]; [discriminate|].
      destruct (a =? c)%N; [|discriminate].
      destruct (match_here p (S pos) s) as [n'|] eqn:M; [|discriminate].
      injection H as <-. apply IH in M. cbn [length]. lia.
    + now apply (greedy_bounds cls (match_here p) (min_len p) IH) in H.
    + destruct s as [|a s]; [discriminate|].
      destruct (cls a); [|discriminate].
      destruct (greedy cls (match_here p) (S pos) s) as [n'|] eqn:G;
        [|discriminate].
      injection H as <-.
      apply (greedy_bounds cls (match_here p) (min_len p) IH) in G.
      cbn [length]. lia.
    + destruct pos; [|discriminate]. now apply IH in H.
    + destruct s as [|a [|b s]].
      * now apply IH in H.
      * destruct (a =? 10)%N; [|discriminate]. now apply IH in H.
      * discriminate.
Qed.

(** A substitution whose replacement is no longer than the shortest match
    does not lengthen the text. *)
Lemma sub_scan_length (p : pattern) repl :
  (length repl <= min_len p)%nat ->
  forall s pos k,
    (k <= length s)%nat ->
    (length (sub_scan p repl pos k s) + k <= length s)%nat.
Proof.
  intros R. induction s as [|c s IH]; intros pos k K; cbn [sub_scan].
  - cbn [length] in K. destruct k; [|lia].
    destruct (match_here p pos []) as [n|] eqn:M; [|cbn; lia].
    apply match_here_bounds in M. cbn [length] in *. lia.
  - cbn [length] in *. destruct k as [|k].
    + destruct (match_here p pos (c :: s)) as [[|n]|] eqn:M.
      * apply match_here_bounds in M.
        rewrite length_app. cbn [length].
        specialize (IH (S pos) 0%nat ltac:(lia)). lia.
      * apply match_here_bounds in M. cbn [length] in M.
        rewrite length_app.
        specialize (IH (S pos) n ltac:(lia)). lia.
      * cbn [length]. specialize (IH (S pos) 0%nat ltac:(lia)). lia.
    + specialize (IH (S pos) k ltac:(lia)). lia.
Qed.

Lemma re_sub_length (p : pattern) repl s :
  (length repl <= min_len p)%nat -> (length (re_sub p repl s) <= length s)%nat.
Proof.
  intros R. pose proof (sub_scan_length p repl R s 0%nat 0%nat) as H.
  unfold re_sub. lia.
Qed.

Lemma lines_size_cons l ls :
  lines_size (l :: ls) = (S (length l) + lines_size ls)%nat.
Proof. reflexivity. Qed.

Lemma join_size ls : S (length (join [LF] ls)) = lines_size ls \/ ls = [].
Proof.
  induction ls as [|l ls IH]; [now right|]. left.
  destruct ls as [|l' ls].
  - cbn. lia.
  - destruct IH as [IH | IH]; [|discriminate].
    rewrite lines_size_cons, <- IH.
    replace (join [LF] (l :: l' :: ls))
      with (l ++ LF :: join [LF] (l' :: ls)) by reflexivity.
    rewrite length_app. cbn [length]. lia.
Qed.

Lemma join_split s : join [LF] (split LF s) = s.
Proof.
  induction s as [|c s IH]; [reflexivity|]. cbn [split].
  destruct (N.eqb_spec c LF) as [-> | N].
  - destruct (split LF s) as [|l ls] eqn:E; [now apply split_nonempty in E|].
    replace (join [LF] ([] :: l :: ls)) with (LF :: join [LF] (l :: ls))
      by reflexivity.
    now rewrite IH.
  - destruct (split LF s) as [|l ls] eqn:E; [now apply split_nonempty in E|].
    destruct ls as [|l' ls].
    + cbn in *. now rewrite IH.
    + replace (join [LF] ((c :: l) :: l' :: ls))
        with (c :: join [LF] (l :: l' :: ls)) by reflexivity.
      now rewrite IH.
Qed.

Lemma strip_length s : (length (strip s) <= length s)%nat.
Proof.
  destruct (strip_piece s) as [a [b H]]. rewrite H at 2.
  rewrite !length_app. lia.
Qed.

Lemma lines_size_app a b : lines_size (a ++ b) = (lines_size a + lines_size b)%nat.
Proof. unfold lines_size. now rewrite map_app, list_sum_app. Qed.

Lemma keep_lines_size (d : N -> bool) lines acc :
  (lines_size (fold_left (keep_line d) lines acc)
   <= lines_size acc + lines_size lines)%nat.
Proof.
  revert acc. induction lines as [|l lines IH]; intros acc; cbn [fold_left].
  - unfold lines_size at 3. cbn. lia.
  - specialize (IH (keep_line d acc l)).
    assert (K : (lines_size (keep_line d acc l)
                 <= lines_size acc + S (length l))%nat).
    { unfold keep_line. pose proof (strip_length l) as SL.
      destruct (strip l) as [|c t] eqn:E; [lia|].
      destruct (_ || _); [lia|].
      destruct (_ <? _)%nat; [lia|].
      rewrite lines_size_app, lines_size_cons.
      change (lines_size []) with 0%nat. lia. }
    rewrite lines_size_cons. lia.
Qed.

End CleanMore.

Import CleanMore.

(** X12. Every line of what the normaliser returns is a line that it lets
    through: not empty, at least three characters long, without white space
    at either end, without a tab and without two blanks in a row, and not
    made of decimal digits only. So the output has no blank line and no
    line feed at either end. *)
Theorem clean_extracted_text_lines_clean (unicode_decimal : N -> bool)
  (text : str) :
  clean_extracted_text unicode_decimal text <> [] ->
  Forall
    (fun l =>
       l <> [] /\ (3 <= length l)%nat /\ strip l = l /\ starts_solid l
       /\ ~ In TAB l /\ tidy l
       /\ forallb (isdecimal unicode_decimal) l = false)
    (split LF (clean_extracted_text unicode_decimal text)).
Proof.
  intros NE.
  destruct (clean_extracted_text_lines unicode_decimal text) as [ls [H E]].
  rewrite E in *.
  assert (NEl : ls <> []) by (intros ->; now apply NE).
  rewrite split_join.
  - eapply Forall_impl; [|exact H]. intros l C.
    destruct (clean_line_solid _ l C) as [S _].
    destruct C as [St [Nl [NL [T [D Len]]]]].
    repeat split; auto.
    + clear -T. induction l as [|c l IH]; [tauto|].
      cbn in T. intros [-> | X]; [tauto|]. now apply IH.
    + apply orb_false_elim in D. destruct D as [D _].
      now rewrite match_digits in D.
  - exact NEl.
  - eapply Forall_impl; [|exact H]. intros l C. apply C.
Qed.

Lemma clean_extracted_text_lines_clean_witness :
  Forall (fun l => (3 <= length l)%nat)
         (split LF (clean_extracted_text (fun _ => false) scenario_D)).
Proof.
  eapply Forall_impl;
    [|apply (clean_extracted_text_lines_clean (fun _ => false) scenario_D)].
  - intros l H. apply H.
  - vm_compute. discriminate.
Defined.

(** X13. The texts that the normaliser leaves as they are, are exactly the
    texts made of lines that it lets through, joined by single line
    feeds. *)
Theorem clean_extracted_text_fixpoints (unicode_decimal : N -> bool)
  (text : str) :
  clean_extracted_text unicode_decimal text = text
  <-> exists ls,
        Forall (clean_line unicode_decimal) ls /\ text = join [LF] ls.
Proof.
  split.
  - intros E.
    destruct (clean_extracted_text_lines unicode_decimal text) as [ls [H J]].
    exists ls. split; [exact H|congruence].
  - intros [ls [H ->]]. now apply clean_lines_fix.
Qed.

(** X14. A text of white space only, however long, is normalised to the
    empty text. *)
Theorem clean_extracted_text_blank (unicode_decimal : N -> bool) (text : str) :
  Forall (fun c => isspace c = true) text ->
  clean_extracted_text unicode_decimal text = [].
Proof.
  intros B. unfold clean_extracted_text. destruct text as [|c0 t0];
    [reflexivity|].
  set (t := re_sub [Chr LF; Chr SP] [LF] _).
  assert (Bt : Forall (fun c => isspace c = true) t).
  { apply Forall_forall. intros c Hc. rewrite Forall_forall in B.
    unfold t, re_sub in Hc.
    apply sub_scan_chars in Hc. destruct Hc as [Hc | [<- | []]];
      [|reflexivity].
    apply sub_scan_chars in Hc. destruct Hc as [Hc | [<- | []]];
      [|reflexivity].
    apply sub_scan_chars in Hc. destruct Hc as [Hc | [<- | [<- | []]]];
      [now apply B|reflexivity|reflexivity]. }
  assert (K : forall lines acc,
             Forall (Forall (fun c => isspace c = true)) lines ->
             fold_left (keep_line unicode_decimal) lines acc = acc).
  { induction lines as [|l lines IH]; intros acc H; [reflexivity|].
    inversion H as [|? ? Hl Hls]; subst. cbn [fold_left].
    unfold keep_line at 2. rewrite (strip_blank l Hl). now apply IH. }
  rewrite K; [reflexivity|].
  apply Forall_forall. intros l Hl.
  destruct (split_piece _ _ _ Hl) as [a [b P]]. rewrite P in Bt.
  apply Forall_app in Bt. destruct Bt as [_ Bt].
  apply Forall_app in Bt. apply Bt.
Qed.

Lemma clean_extracted_text_blank_witness :
  clean_extracted_text (fun _ => false) [SP; LF; TAB; LF; LF; 160; SP]%N = [].
Proof.
  apply clean_extracted_text_blank. repeat constructor.
Defined.

(** X15. The normaliser never makes a text longer. *)
Theorem clean_extracted_text_shorter (unicode_decimal : N -> bool)
  (text : str) :
  (length (clean_extracted_text unicode_decimal text) <= length text)%nat.
Proof.
  unfold clean_extracted_text. destruct text as [|c0 t0]; [cbn; lia|].
  set (text := c0 :: t0).
  set (t1 := re_sub _ [LF; LF] text).
  set (t2 := re_sub [Plus blank] [SP] t1).
  set (t3 := re_sub [Chr LF; Chr SP] [LF] t2).
  assert (L1 : (length t1 <= length text)%nat)
    by (apply re_sub_length; cbn; lia).
  assert (L2 : (length t2 <= length t1)%nat)
    by (apply re_sub_length; cbn; lia).
  assert (L3 : (length t3 <= length t2)%nat)
    by (apply re_sub_length; cbn; lia).
  pose proof (keep_lines_size unicode_decimal (split LF t3) []) as K.
  destruct (join_size (fold_left (keep_line unicode_decimal) (split LF t3) []))
    as [J | J].
  - destruct (join_size (split LF t3)) as [J' | J'];
      [|now apply split_nonempty in J'].
    rewrite join_split in J'. change (lines_size []) with 0%nat in K.
    fold text t1 t2 t3 in J. lia.
  - rewrite J. cbn. lia.
Qed.

(** ** From the page dictionaries to the text *)

Module PipelineMore.

(** *** Blank and solid text *)

Lemma truthy_lstrip s : truthy (lstrip s) = existsb solid s.
Proof.
  induction s as [|c s IH]; [reflexivity|]. cbn [lstrip existsb].
  unfold solid at 1. destruct (isspace c); [exact IH|reflexivity].
Qed.

Lemma existsb_lstrip s : existsb solid (lstrip s) = existsb solid s.
Proof.
  induction s as [|c s IH]; [reflexivity|]. cbn [lstrip].
  destruct (isspace c) eqn:E; [|reflexivity].
  cbn [existsb]. unfold solid at 2. now rewrite E.
Qed.

Lemma truthy_rev (s : str) : truthy (rev s) = truthy s.
Proof.
  destruct s as [|c s]; [reflexivity|]. cbn [rev truthy].
  now destruct (rev s).
Qed.

Lemma existsb_solid_rev (s : str) : existsb solid (rev s) = existsb solid s.
Proof.
  induction s as [|c s IH]; [reflexivity|]. cbn [rev existsb].
  rewrite existsb_app, IH. cbn [existsb].
  now destruct (existsb solid s), (solid c).
Qed.

(** A text is blank for [strip] exactly when all its characters are white
    space. *)
Lemma truthy_strip s : truthy (strip s) = existsb solid s.
Proof.
  unfold strip, rstrip.
  now rewrite truthy_rev, truthy_lstrip, existsb_solid_rev, existsb_lstrip.
Qed.

Lemma existsb_join l ls :
  existsb solid l = true -> existsb solid (join [SP] (l :: ls)) = true.
Proof.
  intros H. destruct ls as [|l' ls]; [exact H|].
  replace (join [SP] (l :: l' :: ls)) with (l ++ [SP] ++ join [SP] (l' :: ls))
    by reflexivity.
  now rewrite existsb_app, H.
Qed.

(** *** The loops of [extract_text_blocks] *)

Lemma fold_left_keep {A B : Type} (f : A -> B) (keep : B -> bool) l acc :
  fold_left (fun acc x => if keep (f x) then acc ++ [f x] else acc) l acc
  = acc ++ filter keep (map f l).
Proof.
  revert acc. induction l as [|x l IH]; intros acc; cbn [fold_left map filter].
  - now rewrite app_nil_r.
  - rewrite IH. destruct (keep (f x)); [|reflexivity].
    now rewrite <- app_assoc.
Qed.

Lemma text_lines_of_filter lines :
  text_lines_of lines
  = filter (fun t => truthy (strip t)) (map line_text_of lines).
Proof.
  unfold text_lines_of.
  exact (fold_left_keep line_text_of (fun t => truthy (strip t)) lines []).
Qed.

Lemma filter_nil_existsb {A B : Type} (f : A -> B) (keep : B -> bool) l :
  existsb (fun x => keep (f x)) l = false -> filter keep (map f l) = [].
Proof.
  induction l as [|x l IH]; [reflexivity|]. cbn [existsb map filter].
  destruct (keep (f x)); [discriminate|]. exact IH.
Qed.

Lemma filter_cons_existsb {A B : Type} (f : A -> B) (keep : B -> bool) l :
  existsb (fun x => keep (f x)) l = true ->
  exists t ts, filter keep (map f l) = t :: ts /\ keep t = true.
Proof.
  induction l as [|x l IH]; [discriminate|]. cbn [existsb map filter].
  destruct (keep (f x)) eqn:E; [eauto|]. exact IH.
Qed.

(** The text of a block with a line that is not blank is not blank: the
    test of the joined text never fails. *)
Lemma block_text_solid lines :
  existsb (fun line => truthy (strip (line_text_of line))) lines = true ->
  exists t ts,
    text_lines_of lines = t :: ts
    /\ truthy (strip (join [SP] (t :: ts))) = true.
Proof.
  intros H. rewrite text_lines_of_filter.
  destruct (filter_cons_existsb line_text_of (fun t => truthy (strip t))
              lines H) as [t [ts [E K]]].
  exists t, ts. split; [exact E|].
  rewrite truthy_strip in *. now apply existsb_join.
Qed.

Lemma extract_text_blocks_step page_num (blocks : list TextBlock) block :
  match raw_lines block with
  | Some lines =>
      let text_lines := text_lines_of lines in
      let bbox := raw_bbox block in
      match text_lines with
      | _ :: _ =>
          let text := join [SP] text_lines in
          if truthy (strip text)
          then blocks ++ [mkTextBlock (strip text) bbox page_num 0]
          else blocks
      | [] => blocks
      end
  | None => blocks
  end
  = blocks ++ (if has_text block then [block_of page_num block] else []).
Proof.
  unfold has_text, block_of.
  destruct (raw_lines block) as [lines|]; [|now rewrite app_nil_r].
  destruct (existsb _ lines) eqn:E.
  - destruct (block_text_solid lines E) as [t [ts [T K]]].
    rewrite T. cbv zeta. now rewrite K.
  - rewrite text_lines_of_filter.
    rewrite (filter_nil_existsb line_text_of
               (fun t => truthy (strip t)) lines E).
    now rewrite app_nil_r.
Qed.

Lemma extract_text_blocks_loop page_num raws acc :
  fold_left
    (fun blocks block =>
       match raw_lines block with
       | Some lines =>
           let text_lines := text_lines_of lines in
           let bbox := raw_bbox block in
           match text_lines with
           | _ :: _ =>
               let text := join [SP] text_lines in
               if truthy (strip text)
               then blocks ++ [mkTextBlock (strip text) bbox page_num 0]
               else blocks
           | [] => blocks
           end
       | None => blocks
       end)
    raws acc
  = acc ++ map (block_of page_num) (filter has_text raws).
Proof.
  revert acc. induction raws as [|r raws IH]; intros acc;
    cbn [fold_left filter].
  - cbn [map]. now rewrite app_nil_r.
  - rewrite extract_text_blocks_step, IH.
    destruct (has_text r); cbn [map].
    + now rewrite <- app_assoc.
    + now rewrite app_nil_r.
Qed.

Lemma extract_text_blocks_map raws page_num :
  extract_text_blocks raws page_num
  = map (block_of page_num) (filter has_text raws).
Proof. apply (extract_text_blocks_loop page_num raws []). Qed.

Lemma extract_all_blocks_none doc :
  Forall (Forall (fun block => has_text block = false)) doc ->
  extract_all_blocks doc = [].
Proof.
  intros H. unfold extract_all_blocks.
  generalize (range 0 (Z.of_nat (length doc))). intros nums. revert nums.
  induction H as [|raws doc Hr _ IH]; intros nums.
  - now destruct nums.
  - destruct nums as [|n nums]; [reflexivity|]. cbn [combine fold_left fst snd].
    rewrite extract_text_blocks_map.
    replace (filter has_text raws) with (@nil RawBlock); [apply IH|].
    clear -Hr. induction Hr as [|r raws E _ IH]; [reflexivity|].
    cbn [filter]. now rewrite E.
Qed.

(** *** The store of [extract_text] *)

Lemma heap_of_map bs : map (heap_of bs) (seq 0 (length bs)) = bs.
Proof.
  induction bs as [|b bs IH]; [reflexivity|].
  cbn [length seq map]. rewrite <- seq_shift, map_map.
  f_equal. exact IH.
Qed.

Lemma ForallOrdPairs_map {A B : Type} (f : A -> B) (R : B -> B -> Prop) l :
  ForallOrdPairs R (map f l) -> ForallOrdPairs (fun a b => R (f a) (f b)) l.
Proof.
  induction l as [|x l IH]; intros H; [constructor|].
  cbn [map] in H. inversion H as [|? ? Hx Hl]; subst.
  constructor; [|now apply IH].
  apply Forall_forall. intros a Ha. rewrite Forall_forall in Hx.
  apply Hx. now apply in_map.
Qed.

Lemma ForallOrdPairs_weaken {A : Type} (R Q : A -> A -> Prop) l :
  (forall a b, R a b -> Q a b) -> ForallOrdPairs R l -> ForallOrdPairs Q l.
Proof.
  intros I. induction 1 as [|x l Hx _ IH]; constructor; [|exact IH].
  eapply Forall_impl; [|exact Hx]. apply I.
Qed.

(** *** [str.replace] *)

Lemma match_here_chars old pos s :
  match_here (map Chr old) pos s
  = if startswith old s then Some (length old) else None.
Proof.
  revert pos s. induction old as [|c old IH]; intros pos s; [reflexivity|].
  cbn [map match_here startswith]. destruct s as [|a s]; [reflexivity|].
  destruct (a =? c)%N; [|reflexivity]. rewrite IH.
  now destruct (startswith old s).
Qed.

Lemma startswith_app old s :
  startswith old s = true <-> exists r, s = old ++ r.
Proof.
  revert s. induction old as [|c old IH]; intros s.
  - split; [exists s; reflexivity|reflexivity].
  - destruct s as [|a s]; cbn [startswith].
    + split; [discriminate|]. intros [r H]. discriminate.
    + rewrite andb_true_iff, N.eqb_eq, IH. split.
      * intros [-> [r ->]]. now exists r.
      * intros [r H]. injection H as -> ->. eauto.
Qed.

(** [occurs old s] says that [old] is a part of [s]. *)
Lemma occurs_spec old s :
  occurs old s = true <-> exists a b, s = a ++ old ++ b.
Proof.
  induction s as [|c s IH]; cbn [occurs].
  - rewrite orb_false_r, startswith_app. split.
    + intros [r H]. now exists [], r.
    + intros [a [b H]]. destruct a as [|x a]; [|discriminate]. now exists b.
  - rewrite orb_true_iff, startswith_app, IH. split.
    + intros [[r H] | [a [b H]]].
      * now exists [], r.
      * exists (c :: a), b. now rewrite H.
    + intros [a [b H]]. destruct a as [|x a].
      * left. now exists b.
      * right. injection H as _ H. now exists a, b.
Qed.

Lemma occurs_tail old c s : occurs old (c :: s) = false -> occurs old s = false.
Proof. cbn [occurs]. intros H. now apply orb_false_elim in H. Qed.

Lemma occurs_head old s : occurs old s = false -> startswith old s = false.
Proof.
  destruct s as [|c s]; cbn [occurs]; intros H;
    now apply orb_false_elim in H.
Qed.



(** An occurrence of [".pdf"] that starts before the end of [s] in
    [s ++ ".pdf"] is within [s]: the full stop is at its start only. *)
Lemma startswith_stem s :
  s <> [] -> startswith dot_pdf (s ++ dot_pdf) = startswith dot_pdf s.
Proof.
  intros NE. destruct s as [|a [|b [|c [|d s]]]]; [contradiction| | | |];
    cbn [app startswith dot_pdf];
    repeat match goal with
           | |- context [(?x =? ?y)%N] =>
               is_var x; destruct (x =? y)%N; cbn [andb]
           end; reflexivity.
Qed.

Lemma replace_suffix stem pos :
  occurs dot_pdf stem = false ->
  sub_scan (map Chr dot_pdf) dot_txt pos 0 (stem ++ dot_pdf)
  = stem ++ dot_txt.
Proof.
  revert pos. induction stem as [|c stem IH]; intros pos H; [reflexivity|].
  change ((c :: stem) ++ dot_pdf) with (c :: (stem ++ dot_pdf)).
  cbn [sub_scan]. rewrite match_here_chars.
  change (c :: (stem ++ dot_pdf)) with ((c :: stem) ++ dot_pdf).
  rewrite startswith_stem by discriminate.
  rewrite (occurs_head _ _ H). cbn [app]. f_equal.
  apply IH. now apply occurs_tail in H.
Qed.

End PipelineMore.

Import PipelineMore.

(** X16. [extract_text_blocks] returns one block for each raw block of the
    page that is a text block with a line that is not blank, in the order of
    the page and with the bounding box of the raw block; image blocks and
    blocks of blank lines are left out. Every block it returns has a text
    that is not empty and has no white space at either end, the number of
    the page, and column 0. *)
Theorem extract_text_blocks_kept (raws : list RawBlock) (page : Z) :
  map bbox (extract_text_blocks raws page)
  = map raw_bbox (filter has_text raws)
  /\ Forall
       (fun b => text b <> [] /\ strip (text b) = text b
                 /\ page_num b = page /\ column b = 0%Z)
       (extract_text_blocks raws page).
Proof.
  rewrite extract_text_blocks_map. split.
  - rewrite map_map. reflexivity.
  - apply Forall_forall. intros b Hb. apply in_map_iff in Hb.
    destruct Hb as [r [<- Hr]]. apply filter_In in Hr. destruct Hr as [_ Hr].
    unfold block_of. cbn [text page_num column].
    split; [|split; [apply strip_strip|auto]].
    unfold has_text in Hr. destruct (raw_lines r) as [lines|]; [|discriminate].
    destruct (block_text_solid lines Hr) as [t [ts [T K]]]. rewrite T.
    intros E. now rewrite E in K.
Qed.

(** X17. A document without text (no page has a text block with a line
    that is not blank: an empty document, or scanned pages) gives the empty
    text, and [extract_text] does not raise. *)
Theorem extract_text_no_text (doc : list (list RawBlock)) :
  Forall (Forall (fun block => has_text block = false)) doc ->
  extract_text doc = Ok [].
Proof.
  intros H. unfold extract_text.
  now rewrite (extract_all_blocks_none doc H).
Qed.

Lemma extract_text_no_text_witness :
  extract_text
    [[mkRawBlock (0, 0, 50, 50)%float None];
     [mkRawBlock (10, 7, 100, 8)%float (Some [mkLine [mkSpan [32; 9]%N]])]]
  = Ok [].
Proof.
  apply extract_text_no_text. repeat constructor.
Defined.

(** X18. When no two text blocks of a page have the same top edge,
    [extract_text] loses no block: the text it returns is made of the texts
    of all blocks of the document, each once, in some order, joined by line
    feeds. *)
Theorem extract_text_lossless (doc : list (list RawBlock)) (t : str) :
  Forall (fun b => not_nan (bbox1 b)) (extract_all_blocks doc) ->
  ForallOrdPairs
    (fun a b => page_num a = page_num b -> feq (bbox1 a) (bbox1 b) = false)
    (extract_all_blocks doc) ->
  extract_text doc = Ok t ->
  exists ordered,
    Permutation (extract_all_blocks doc) ordered
    /\ t = join [LF] (map text ordered).
Proof.
  intros N D H. unfold extract_text in H.
  set (bs := extract_all_blocks doc) in *.
  set (h := heap_of bs) in *. set (refs := seq 0 (length bs)) in *.
  unfold bindM at 1 in H.
  destruct (detect_columns refs h) as [h' [out|e]] eqn:E; [|discriminate].
  destruct (detect_columns_returned _ _ _ _ E) as [-> _].
  pose proof (detect_columns_keeps _ _ _ _ E) as K.
  pose proof (detect_columns_binary _ _ _ _ E) as C.
  cbn in H. injection H as <-.
  assert (B : forall a, bbox1 (h' a) = bbox1 (h a)).
  { intros a. unfold bbox1. now rewrite (proj1 (proj2 (K a))). }
  exists (map h (reorder_text_blocks h' refs)). split.
  - rewrite <- (heap_of_map bs) at 1. fold h refs. apply Permutation_map.
    apply reorder_permutation.
    + apply Forall_forall. intros a Ha. unfold y0. rewrite B.
      rewrite Forall_forall in N. apply N.
      rewrite <- (heap_of_map bs). fold h refs. now apply in_map.
    + exact C.
    + unfold no_collision. rewrite <- (heap_of_map bs) in D. fold h refs in D.
      apply ForallOrdPairs_map in D.
      eapply ForallOrdPairs_weaken; [|exact D]. cbv beta.
      intros a b F P _. unfold y0. rewrite !B. apply F.
      now rewrite <- (proj2 (proj2 (K a))), <- (proj2 (proj2 (K b))).
  - rewrite map_map. f_equal. apply map_ext. intros a. apply K.
Qed.

Lemma extract_text_lossless_witness :
  exists t ordered,
    extract_text sample_doc = Ok t
    /\ Permutation (extract_all_blocks sample_doc) ordered
    /\ t = join [LF] (map text ordered).
Proof.
  assert (E : exists t, extract_text sample_doc = Ok t)
    by (vm_compute; eexists; reflexivity).
  destruct E as [t E].
  destruct (extract_text_lossless sample_doc t) as [ordered [P J]].
  - vm_compute. repeat constructor.
  - vm_compute. repeat (constructor || intro); try discriminate.
  - exact E.
  - exists t, ordered. auto.
Defined.


(** X20. For a path that ends in [".pdf"] and has [".pdf"] nowhere before,
    the output path made up is the path with [".txt"] for that ending. *)
Theorem output_path_suffix (stem : str) :
  occurs dot_pdf stem = false ->
  output_path_of (stem ++ dot_pdf) None = stem ++ dot_txt.
Proof. apply replace_suffix. Qed.

Lemma output_path_suffix_witness :
  output_path_of ([97; 47; 98] ++ dot_pdf)%N None = ([97; 47; 98] ++ dot_txt)%N.
Proof.
  apply output_path_suffix. reflexivity.
Defined.
